(** * enterprise2: deployment hooks and the helpdesk ticket extension

    A shallow embedding of the post-init hooks
    ([connect-odoo.py], [install_modules.py], the two [bootstrap.py]) and of
    the SLA logic of [helpdesk_ticket.py], with the properties the
    specification states about them.

    Conventions.  Python [str] values are Rocq strings (one [ascii] per
    character; the character classes below are the ASCII part of Python's).
    The ORM and the HTTP layer are outside the repository: what the code
    only calls (a search, the base [write], [urlopen]) appears either as a
    small explicit model of the documented contract or as a section
    variable. *)

From Stdlib Require Import ZArith Ascii String Lia Permutation.
From stdpp Require Import base option list strings gmap sorting.

Local Open Scope Z_scope.
Set Warnings "-register-all,-clear-no-such-hyp".

(** ** Python string primitives *)

Module PyStr.

Definition code (c : ascii) : nat := nat_of_ascii c.

(** [str.isspace] on the ASCII range: TAB..CR, FS..US and the blank. *)
Definition is_space (c : ascii) : bool :=
  let n := code c in
  ((9 <=? n) && (n <=? 13) || (28 <=? n) && (n <=? 32))%nat%bool.

Definition is_upper (c : ascii) : bool :=
  ((65 <=? code c) && (code c <=? 90))%nat.

(** [str.isalnum] on the ASCII range: the digits and the letters.  Beyond
    ASCII Python's test also holds of accented letters and of other
    scripts; a property that depends on the class of such a character is
    stated for ASCII text. *)
Definition is_alnum (c : ascii) : bool :=
  let n := code c in
  ((48 <=? n) && (n <=? 57) || (65 <=? n) && (n <=? 90)
   || (97 <=? n) && (n <=? 122))%nat%bool.

Definition lower_char (c : ascii) : ascii :=
  if is_upper c then ascii_of_nat (code c + 32) else c.

(** [s.lower()] *)
Fixpoint lower (s : string) : string :=
  match s with
  | EmptyString => EmptyString
  | String c r => String (lower_char c) (lower r)
  end.

(** [s.lstrip(chars)], the class of stripped characters given by [p]. *)
Fixpoint lstrip_by (p : ascii -> bool) (s : string) : string :=
  match s with
  | EmptyString => EmptyString
  | String c r => if p c then lstrip_by p r else s
  end.

(** [s.rstrip(chars)] *)
Fixpoint rstrip_by (p : ascii -> bool) (s : string) : string :=
  match s with
  | EmptyString => EmptyString
  | String c r =>
      match rstrip_by p r with
      | EmptyString => if p c then EmptyString else String c EmptyString
      | r' => String c r'
      end
  end.

Definition strip_by (p : ascii -> bool) (s : string) : string :=
  lstrip_by p (rstrip_by p s).

(** [s.strip()], [s.rstrip("/")], [s.strip("/")] *)
Definition strip : string -> string := strip_by is_space.
Definition is_slash (c : ascii) : bool := Ascii.eqb c "/"%char.
Definition rstrip_slash : string -> string := rstrip_by is_slash.
Definition strip_slash : string -> string := strip_by is_slash.

(** [needle in hay] *)
Fixpoint contains (needle hay : string) : bool :=
  String.prefix needle hay ||
  match hay with
  | EmptyString => false
  | String _ r => contains needle r
  end.

(** [s.replace(a, b)] for one-character [a] and [b]. *)
Fixpoint replace_char (a b : ascii) (s : string) : string :=
  match s with
  | EmptyString => EmptyString
  | String c r => String (if Ascii.eqb c a then b else c) (replace_char a b r)
  end.

(** [s.split(sep, 1)[0]]: the part before the first [sep]. *)
Fixpoint before_first (sep : ascii) (s : string) : string :=
  match s with
  | EmptyString => EmptyString
  | String c r => if Ascii.eqb c sep then EmptyString else String c (before_first sep r)
  end.

(** [s.split()]: maximal runs of non-blank characters. *)
Fixpoint split_ws (s : string) : list string :=
  match s with
  | EmptyString => []
  | String c r =>
      if is_space c then split_ws r
      else match r with
           | EmptyString => [String c EmptyString]
           | String c' _ =>
               if is_space c' then String c EmptyString :: split_ws r
               else match split_ws r with
                    | w :: ws => String c w :: ws
                    | [] => [String c EmptyString]
                    end
           end
  end.

(** [s.split(sep)] for a one-character separator (keeps empty fields). *)
Fixpoint split_on (sep : ascii) (s : string) : list string :=
  match s with
  | EmptyString => [EmptyString]
  | String c r =>
      if Ascii.eqb c sep then EmptyString :: split_on sep r
      else match split_on sep r with
           | w :: ws => String c w :: ws
           | [] => [String c EmptyString]
           end
  end.

(** [all(p(ch) for ch in s)] *)
Fixpoint all_chars (p : ascii -> bool) (s : string) : bool :=
  match s with
  | EmptyString => true
  | String c r => p c && all_chars p r
  end.

(** [sep.join(parts)] *)
Fixpoint join (sep : string) (parts : list string) : string :=
  match parts with
  | [] => EmptyString
  | [p] => p
  | p :: ps => p +:+ sep +:+ join sep ps
  end.

(** Order-preserving removal of repeats, the [seen]/[unique] loop that
    several hooks spell out. *)
Fixpoint dedupe_go {A} `{EqDecision A} (seen : list A) (l : list A) : list A :=
  match l with
  | [] => []
  | x :: r =>
      if bool_decide (x ∈ seen) then dedupe_go seen r
      else x :: dedupe_go (x :: seen) r
  end.
Definition dedupe {A} `{EqDecision A} (l : list A) : list A := dedupe_go [] l.

Example lower_mixed : lower "AlReady 409" = "already 409".
Proof. reflexivity. Qed.
Example strip_blank : strip "  a b " = "a b".
Proof. reflexivity. Qed.
Example split_ws_runs : split_ws " crm  sale stock " = ["crm"; "sale"; "stock"].
Proof. reflexivity. Qed.
Example dedupe_keeps_first : dedupe ["a"; "b"; "a"; "c"; "b"] = ["a"; "b"; "c"].
Proof. reflexivity. Qed.

Lemma lower_app s t : lower (s +:+ t) = lower s +:+ lower t.
Proof.
  induction s as [|c s IH]; [reflexivity|].
  change (String c s +:+ t) with (String c (s +:+ t)).
  cbn [lower]. now rewrite IH.
Qed.

Lemma prefix_app n t : String.prefix n (n +:+ t) = true.
Proof.
  induction n as [|c n IH]; simpl.
  - now destruct t.
  - destruct (ascii_dec c c); [assumption | congruence].
Qed.

Lemma prefix_split n h :
  String.prefix n h = true -> exists t, h = n +:+ t.
Proof.
  revert h; induction n as [|c n IH]; intros h Hp.
  - exists h; reflexivity.
  - destruct h as [|d h]; simpl in Hp; [discriminate|].
    destruct (ascii_dec c d) as [->|]; [|discriminate].
    destruct (IH _ Hp) as [t ->]. now exists t.
Qed.

Lemma contains_prefix n h : String.prefix n h = true -> contains n h = true.
Proof. intros H. destruct h; cbn [contains]; rewrite H; reflexivity. Qed.

Lemma contains_app n a b : contains n (a +:+ n +:+ b) = true.
Proof.
  induction a as [|c a IH].
  - apply contains_prefix. apply (prefix_app n b).
  - change (String c a +:+ n +:+ b) with (String c (a +:+ n +:+ b)).
    cbn [contains]. rewrite IH. apply orb_true_r.
Qed.

Lemma contains_split n h :
  contains n h = true -> exists a b, h = a +:+ n +:+ b.
Proof.
  induction h as [|c h IH]; cbn [contains]; intros H.
  - rewrite orb_false_r in H. destruct (prefix_split _ _ H) as [t ->].
    now exists EmptyString, t.
  - apply orb_true_iff in H as [H|H].
    + destruct (prefix_split _ _ H) as [t Ht]. exists EmptyString, t. exact Ht.
    + destruct (IH H) as (a & b & ->). now exists (String c a), b.
Qed.

(** A needle that is already lower case survives [lower] of the haystack. *)
Lemma contains_lower n h :
  lower n = n -> contains n h = true -> contains n (lower h) = true.
Proof.
  intros Hn H. destruct (contains_split _ _ H) as (a & b & ->).
  rewrite !lower_app, Hn. apply contains_app.
Qed.

Lemma dedupe_go_elem {A} `{EqDecision A} (l seen : list A) x :
  x ∈ dedupe_go seen l <-> x ∈ l /\ x ∉ seen.
Proof.
  revert seen; induction l as [|y l IH]; intros seen; simpl.
  - split; [intros H; inversion H | intros [H _]; inversion H].
  - case_bool_decide as Hy.
    + rewrite IH, elem_of_cons. split; [tauto|].
      intros [[->|?] ?]; tauto.
    + rewrite elem_of_cons, IH, !elem_of_cons. split.
      * intros [->|[? ?]]; [tauto|]. split; tauto.
      * intros [[->|?] ?]; [tauto|].
        destruct (decide (x = y)); [tauto|]. right; tauto.
Qed.

Lemma dedupe_elem {A} `{EqDecision A} (l : list A) x : x ∈ dedupe l <-> x ∈ l.
Proof.
  unfold dedupe. rewrite dedupe_go_elem. split; [tauto|].
  intros ?; split; [assumption | apply not_elem_of_nil].
Qed.

Lemma dedupe_go_NoDup {A} `{EqDecision A} (l seen : list A) : NoDup (dedupe_go seen l).
Proof.
  revert seen; induction l as [|y l IH]; intros seen; cbn [dedupe_go].
  - constructor.
  - case_bool_decide as Hy; [apply IH|].
    constructor; [|apply IH]. rewrite dedupe_go_elem.
    intros [_ Hn]. apply Hn, elem_of_cons. left. reflexivity.
Qed.

Lemma dedupe_NoDup {A} `{EqDecision A} (l : list A) : NoDup (dedupe l).
Proof. apply dedupe_go_NoDup. Qed.

End PyStr.

(** ** connect-odoo.py: the configuration-parameter setter *)

Module ConnectOdoo.
Import PyStr.

(** [ir.config_parameter]: one value per key.  [get_param] yields a falsy
    value for a missing key, which the code turns into the empty string. *)
Definition get_param (icp : gmap string string) (key : string) : option string :=
  icp !! key.
Definition set_param (icp : gmap string string) (key value : string)
  : gmap string string := <[key := value]> icp.

(** [_ensure_param(env, key, value)]: the returned flag and the store
    after the call. *)
Definition _ensure_param (icp : gmap string string) (key value : string)
  : bool * gmap string string :=
  let current := strip (default EmptyString (get_param icp key)) in
  if String.eqb current value then (false, icp)
  else (true, set_param icp key value).

(** The flags reported by [n] successive calls with the same arguments. *)
Fixpoint repeat_ensure (n : nat) (icp : gmap string string) (key value : string)
  : list bool :=
  match n with
  | O => []
  | S k => let '(b, icp') := _ensure_param icp key value in
           b :: repeat_ensure k icp' key value
  end.

(** After a call with a value that [strip] leaves alone, every further
    call with that value reports [False] and leaves the store as it is. *)
Lemma ensure_param_settles icp key value :
  strip value = value ->
  let icp1 := (_ensure_param icp key value).2 in
  _ensure_param icp1 key value = (false, icp1).
Proof.
  intros Hv icp1. subst icp1. unfold _ensure_param at 2 3. unfold get_param, set_param.
  destruct (String.eqb_spec (strip (default EmptyString (icp !! key))) value) as [E|E];
    cbn [fst snd].
  - unfold _ensure_param, get_param. rewrite E, String.eqb_refl. reflexivity.
  - unfold _ensure_param, get_param, set_param.
    rewrite lookup_insert_eq.
    change (default EmptyString (Some value)) with value.
    rewrite Hv, String.eqb_refl. reflexivity.
Qed.

Lemma repeat_ensure_settled n icp key value :
  _ensure_param icp key value = (false, icp) ->
  repeat_ensure n icp key value = replicate n false.
Proof.
  intros H. induction n as [|n IH]; [reflexivity|].
  cbn [repeat_ensure replicate]. rewrite H. now rewrite IH.
Qed.

(** For a value without surrounding blanks, at most the first of any
    number of calls reports a change. *)
Lemma ensure_param_changed_at_most_first n icp key value :
  strip value = value ->
  exists b, repeat_ensure (S n) icp key value = b :: replicate n false.
Proof.
  intros Hv. cbn [repeat_ensure].
  pose proof (ensure_param_settles icp key value Hv) as Hs. cbv zeta in Hs.
  destruct (_ensure_param icp key value) as [b icp'] eqn:E. cbn [snd] in Hs.
  exists b. f_equal. now apply repeat_ensure_settled.
Qed.

(** C5.  On an empty store, three calls that set the base-URL key to a
    value with a leading blank all report "changed": the comparison strips
    the stored value but not the requested one, so the flag never settles,
    although the second and third call leave the store as they found it. *)
Theorem ensure_param_unstripped_value_never_settles :
  let key := "integration.n8n.base_url" in
  let value := " http://n8n:5678" in
  repeat_ensure 3 ∅ key value = [true; true; true] /\
  (let icp1 := (_ensure_param ∅ key value).2 in
   _ensure_param icp1 key value = (true, icp1)).
Proof.
  cbv zeta. split.
  - vm_compute. reflexivity.
  - unfold _ensure_param, get_param, set_param.
    rewrite lookup_empty. change (default EmptyString None) with EmptyString.
    replace (String.eqb (strip EmptyString) " http://n8n:5678") with false by (vm_compute; reflexivity).
    cbn [snd]. rewrite lookup_insert_eq.
    change (default EmptyString (Some " http://n8n:5678")) with " http://n8n:5678".
    replace (String.eqb (strip " http://n8n:5678") " http://n8n:5678") with false
      by (vm_compute; reflexivity).
    f_equal; try apply insert_insert_eq.
Qed.

End ConnectOdoo.

(** ** install_modules.py: the module list and the installer delta *)

Module InstallModules.
Import PyStr.

Definition LF : ascii := "010"%char.
Definition CR : ascii := "013"%char.

(** Text-mode reading translates CR LF and a lone CR to LF. *)
Fixpoint universal_newlines (s : string) : string :=
  match s with
  | EmptyString => EmptyString
  | String c r =>
      if Ascii.eqb c CR then
        match r with
        | String c' r' =>
            if Ascii.eqb c' LF then String LF (universal_newlines r')
            else String LF (universal_newlines r)
        | EmptyString => String LF EmptyString
        end
      else String c (universal_newlines r)
  end.

(** [for line in f]: lines keep their terminating LF. *)
Fixpoint file_lines (s : string) : list string :=
  match s with
  | EmptyString => []
  | String c r =>
      if Ascii.eqb c LF then String c EmptyString :: file_lines r
      else match file_lines r with
           | l :: ls => String c l :: ls
           | [] => [String c EmptyString]
           end
  end.

(** [all(ch.isalnum() or ch in ("_", "-") for ch in c)], for a chunk of
    ASCII characters (see [is_alnum]). *)
Definition valid_name (c : string) : bool :=
  all_chars (fun ch => is_alnum ch || Ascii.eqb ch "_"%char || Ascii.eqb ch "-"%char) c.

(** [read_modules_list(path)]; the argument is the content of the file,
    [None] when [os.path.isfile(path)] is false. *)
Definition read_modules_list (file : option string) : list string :=
  match file with
  | None => []
  | Some content =>
      let raw := map (before_first "#"%char) (file_lines (universal_newlines content)) in
      let text := replace_char ","%char " "%char
                    (replace_char ";"%char ","%char (join (String LF EmptyString) raw)) in
      let tokens :=
        filter (fun c => negb (String.eqb c EmptyString) && valid_name c = true)
               (map strip (split_ws text)) in
      dedupe tokens
  end.

(** [sorted(names)]: insertion into an ascending list, by code points. *)
Fixpoint insert_sorted (x : string) (l : list string) : list string :=
  match l with
  | [] => [x]
  | y :: r => if String.leb x y then x :: l else y :: insert_sorted x r
  end.
Definition sorted (l : list string) : list string := foldr insert_sorted [] l.

Definition queued_states : list string := ["installed"; "to install"; "to upgrade"].

(** What [main] reads from its surroundings.  Nothing in [main] catches
    an exception of [open], of the import of odoo, of
    [Registry(db_name).cursor()] or of [Mod.search]: the two flags say
    whether one is raised. *)
Record world := {
  modules_file : option string;               (* install-modules.txt *)
  unreadable : bool;                          (* opening or decoding the file raises *)
  target_db_name : option string;             (* TARGET_DB_NAME *)
  pgdatabase : option string;                 (* PGDATABASE *)
  database_error : bool;                      (* the import of odoo, the registry, the
                                                 cursor or a search raises *)
  module_state : string -> option string;     (* ir.module.module: state by name *)
  run_cli : string -> Z                       (* stream_odoo_cli(cmd) *)
}.

Record outcome := {
  exit_code : option Z;                       (* [None]: an exception leaves [main] *)
  not_found : list string;                    (* "Module not found" errors *)
  cli_modules : option (list string);         (* the -i argument, when the CLI ran *)
  cli_command : option string
}.

Definition raised : outcome :=
  {| exit_code := None; not_found := []; cli_modules := None; cli_command := None |}.

(** [a or b] on optional strings: the empty string is falsy. *)
Definition truthy_str (o : option string) : option string :=
  match o with
  | Some s => if String.eqb s EmptyString then None else Some s
  | None => None
  end.

(** The loop over the requested names: [(to_install, not found)]. *)
Fixpoint select_modules (st : string -> option string) (modules : list string)
  : list string * list string :=
  match modules with
  | [] => ([], [])
  | name :: r =>
      let '(inst, missing) := select_modules st r in
      match st name with
      | None => (inst, name :: missing)
      | Some state =>
          if bool_decide (state ∈ queued_states) then (inst, missing)
          else (name :: inst, missing)
      end
  end.

Definition cli_of (db_name mods : string) : string :=
  "odoo -c /etc/odoo/odoo.conf -d " +:+ db_name +:+ " -i " +:+ mods
    +:+ " --http-interface 127.0.0.1 --http-port 8071 --stop-after-init".

(** The part of [main] that talks to the database and runs the CLI. *)
Definition install (w : world) (db_name : string) (modules : list string) : outcome :=
  if database_error w then raised
  else
    let '(to_install, missing) := select_modules (module_state w) modules in
    match to_install with
    | [] => {| exit_code := Some 0; not_found := missing;
               cli_modules := None; cli_command := None |}
    | _ =>
        let cmd := cli_of db_name (join "," (sorted to_install)) in
        {| exit_code := Some (if run_cli w cmd =? 0 then 0 else 4);
           not_found := missing;
           cli_modules := Some (sorted to_install);
           cli_command := Some cmd |}
    end.

Definition main (w : world) : outcome :=
  if match modules_file w with Some _ => unreadable w | None => false end then raised
  else
    let modules := read_modules_list (modules_file w) in
    match modules with
    | [] => {| exit_code := Some 0; not_found := []; cli_modules := None;
               cli_command := None |}
    | _ =>
        match truthy_str (target_db_name w), truthy_str (pgdatabase w) with
        | None, None =>
            {| exit_code := Some 2; not_found := []; cli_modules := None;
               cli_command := None |}
        | Some db_name, _ | None, Some db_name => install w db_name modules
        end
    end.

Definition sample_file : string :=
  "crm, # comment" +:+ String LF "sale;stock".

Definition sample_world (st : string -> option string) : world :=
  {| modules_file := Some sample_file; unreadable := false;
     target_db_name := Some "dev_db"; pgdatabase := None; database_error := false;
     module_state := st; run_cli := fun _ => 0 |}.

Example parse_with_repeats :
  read_modules_list (Some "sale,crm;sale  web_enterprise bad.name helpdesk-custom")
  = ["sale"; "crm"; "web_enterprise"; "helpdesk-custom"].
Proof. vm_compute. reflexivity. Qed.

Example main_installs_delta :
  cli_command (main (sample_world (fun n =>
     if String.eqb n "crm" then Some "installed"
     else if String.eqb n "sale" then None else Some "uninstalled")))
  = Some (cli_of "dev_db" "stock").
Proof. vm_compute. reflexivity. Qed.

Lemma insert_sorted_elem x y l : y ∈ insert_sorted x l <-> y = x \/ y ∈ l.
Proof.
  induction l as [|z l IH]; cbn [insert_sorted].
  - rewrite list_elem_of_singleton. split; [tauto|]. intros [?|H]; [assumption|inversion H].
  - destruct (String.leb x z).
    + now rewrite elem_of_cons.
    + rewrite !elem_of_cons, IH. tauto.
Qed.

Lemma sorted_elem y l : y ∈ sorted l <-> y ∈ l.
Proof.
  unfold sorted. induction l as [|x l IH]; cbn [foldr]; [reflexivity|].
  rewrite insert_sorted_elem, IH, elem_of_cons. reflexivity.
Qed.

Lemma select_modules_elem st modules name :
  name ∈ (select_modules st modules).1 <->
  name ∈ modules /\ exists state, st name = Some state /\ state ∉ queued_states.
Proof.
  induction modules as [|m r IH]; cbn [select_modules].
  - cbn [fst]. split; [intros H; inversion H | intros [H _]; inversion H].
  - destruct (select_modules st r) as [inst missing]. cbn [fst] in IH.
    destruct (st m) as [state|] eqn:Em; [case_bool_decide as Hq|]; cbn [fst].
    + rewrite IH, elem_of_cons. split; [tauto|].
      intros [[->|?] (s' & Hs & Hn)]; [|eauto].
      rewrite Em in Hs. injection Hs as <-. tauto.
    + rewrite elem_of_cons, IH, elem_of_cons. split.
      * intros [->|[? ?]]; [|tauto]. split; [tauto|]. eauto.
      * intros [[->|?] ?]; tauto.
    + rewrite IH, elem_of_cons. split; [tauto|].
      intros [[->|?] (s' & Hs & Hn)]; [congruence | eauto].
Qed.

(** The installer receives exactly the listed modules that the database
    knows and that are neither installed nor queued. *)
Lemma main_cli_modules_elem w mods name :
  cli_modules (main w) = Some mods ->
  (name ∈ mods <->
   name ∈ read_modules_list (modules_file w) /\
   exists state, module_state w name = Some state /\ state ∉ queued_states).
Proof.
  unfold main, install. intros H.
  pose proof (select_modules_elem (module_state w) (read_modules_list (modules_file w)) name) as Hsel.
  destruct (match modules_file w with Some _ => unreadable w | None => false end);
    [discriminate H|].
  destruct (read_modules_list (modules_file w)) as [|m0 ms] eqn:Er; [discriminate H|].
  destruct (select_modules (module_state w) (m0 :: ms)) as [inst missing] eqn:Es.
  cbn [fst] in Hsel.
  destruct (truthy_str (target_db_name w)), (truthy_str (pgdatabase w));
    try discriminate H;
    (destruct (database_error w); [discriminate H|];
     destruct inst as [|i0 ir]; [discriminate H|]; cbn [cli_modules] in H;
     replace mods with (sorted (i0 :: ir)) by congruence;
     rewrite sorted_elem; exact Hsel).
Qed.



End InstallModules.


(** ** odoo/.../bootstrap.py: resolution of access-group tokens *)

Module OdooBootstrap.
Import PyStr.

(** The [by_token] table, read through [by_token.get(name, [])]. *)
Definition by_token (name : string) : list string :=
  if String.eqb name "internal" then ["base.group_user"]
  else if String.eqb name "portal" then ["base.group_portal"]
  else if String.eqb name "public" then ["base.group_public"]
  else if String.eqb name "admin" then ["base.group_system"]
  else if String.eqb name "settings" then ["base.group_system"]
  else if String.eqb name "manager" then ["base.group_system"]
  else [].

(** [[token] if "." in token else by_token.get(token.lower(), [])] *)
Definition xmlids_of (token : string) : list string :=
  if contains "." token then [token] else by_token (lower token).

(** What [env.ref(xid)] returns: the record's model and id, or [None] when
    it raises. *)
Record ref_record := { model_name : string; rec_id : Z }.

Definition warning (xid : string) : string :=
  "Warning: group xmlid '" +:+ xid +:+ "' not found".

(** The state threaded through the two loops: [group_ids] and the lines
    printed to stderr. *)
Definition resolve_xid (env_ref : string -> option ref_record) (xid : string)
  (st : list Z * list string) : list Z * list string :=
  match env_ref xid with
  | Some rec =>
      if String.eqb (model_name rec) "res.groups" then (st.1 ++ [rec_id rec], st.2) else st
  | None => (st.1, st.2 ++ [warning xid])
  end.

Definition resolve_tokens (env_ref : string -> option ref_record) (tokens : list string)
  (st : list Z * list string) : list Z * list string :=
  foldl (fun st token => foldl (fun st xid => resolve_xid env_ref xid st) st (xmlids_of token))
        st tokens.

(** [resolve_groups(env, tokens)]: the ids returned and the warnings printed. *)
Definition resolve_groups (env_ref : string -> option ref_record) (tokens : list string)
  : list Z * list string :=
  match tokens with
  | [] => ([], [])
  | _ => let st := resolve_tokens env_ref tokens ([], []) in (dedupe st.1, st.2)
  end.

(** The same result read token by token: the group ids a token contributes
    and the warnings it causes. *)
Definition token_ids (env_ref : string -> option ref_record) (token : string) : list Z :=
  omap (fun xid => match env_ref xid with
                   | Some rec => if String.eqb (model_name rec) "res.groups"
                                 then Some (rec_id rec) else None
                   | None => None
                   end) (xmlids_of token).

Definition token_warnings (env_ref : string -> option ref_record) (token : string)
  : list string :=
  omap (fun xid => match env_ref xid with
                   | Some _ => None
                   | None => Some (warning xid)
                   end) (xmlids_of token).

(** A line of the log names the token. *)
Definition logged (log : list string) (token : string) : Prop :=
  exists line, line ∈ log /\ contains token line = true.

Definition standard_groups (xid : string) : option ref_record :=
  if String.eqb xid "base.group_user" then Some {| model_name := "res.groups"; rec_id := 1 |}
  else if String.eqb xid "base.group_system" then Some {| model_name := "res.groups"; rec_id := 2 |}
  else if String.eqb xid "base.main_company" then Some {| model_name := "res.company"; rec_id := 1 |}
  else None.

Example resolve_mixed :
  resolve_groups standard_groups ["Admin"; "nosuch"; "x.missing"; "internal"; "manager"]
  = ([2; 1], [warning "x.missing"]).
Proof. vm_compute. reflexivity. Qed.

Lemma resolve_xids_fold env_ref xids st :
  foldl (fun st xid => resolve_xid env_ref xid st) st xids
  = (st.1 ++ omap (fun xid => match env_ref xid with
                              | Some rec => if String.eqb (model_name rec) "res.groups"
                                            then Some (rec_id rec) else None
                              | None => None
                              end) xids,
     st.2 ++ omap (fun xid => match env_ref xid with
                              | Some _ => None
                              | None => Some (warning xid)
                              end) xids).
Proof.
  revert st; induction xids as [|x r IH]; intros [ids log].
  - cbn. now rewrite !app_nil_r.
  - cbn [foldl]. rewrite IH. unfold resolve_xid. cbn [fst snd omap list_omap].
    destruct (env_ref x) as [rec|]; [destruct (String.eqb _ _)|]; cbn [fst snd];
      rewrite <- ?app_assoc; reflexivity.
Qed.

Lemma resolve_tokens_flat env_ref tokens st :
  resolve_tokens env_ref tokens st
  = (st.1 ++ flat_map (token_ids env_ref) tokens,
     st.2 ++ flat_map (token_warnings env_ref) tokens).
Proof.
  unfold resolve_tokens.
  revert st; induction tokens as [|t r IH]; intros [ids log]; cbn [foldl flat_map fst snd].
  - now rewrite !app_nil_r.
  - rewrite resolve_xids_fold, IH. cbn [fst snd].
    unfold token_ids, token_warnings. now rewrite <- !app_assoc.
Qed.

(** C8, as the code has it.  The six shorthands map (case-insensitively) to
    their fixed identifiers and a dotted token stands for itself; the result
    is assembled token by token, so no token stops the ones after it; the
    log holds exactly one warning per identifier that [env.ref] cannot
    resolve, and a token that is neither dotted nor a known shorthand
    contributes no identifier, no group and no log line. *)
Theorem resolve_groups_by_token :
  (by_token "internal" = ["base.group_user"] /\
   by_token "portal" = ["base.group_portal"] /\
   by_token "public" = ["base.group_public"] /\
   by_token "admin" = ["base.group_system"] /\
   by_token "settings" = ["base.group_system"] /\
   by_token "manager" = ["base.group_system"]) /\
  (forall token, contains "." token = true -> xmlids_of token = [token]) /\
  (forall token, contains "." token = false -> xmlids_of token = by_token (lower token)) /\
  (forall env_ref tokens,
     resolve_groups env_ref tokens
     = (dedupe (flat_map (token_ids env_ref) tokens),
        flat_map (token_warnings env_ref) tokens)) /\
  (forall env_ref token,
     xmlids_of token = [] ->
     token_ids env_ref token = [] /\ token_warnings env_ref token = []) /\
  (forall env_ref token,
     contains "." token = true -> env_ref token = None ->
     token_ids env_ref token = [] /\ token_warnings env_ref token = [warning token]).
Proof.
  split; [repeat split; reflexivity|].
  split; [intros token H; unfold xmlids_of; now rewrite H|].
  split; [intros token H; unfold xmlids_of; now rewrite H|].
  split.
  { intros env_ref tokens. unfold resolve_groups.
    destruct tokens as [|t r]; [reflexivity|].
    rewrite resolve_tokens_flat. reflexivity. }
  split.
  - intros env_ref token H. unfold token_ids, token_warnings. rewrite H. split; reflexivity.
  - intros env_ref token Hd Hn. unfold token_ids, token_warnings, xmlids_of.
    rewrite Hd. cbn [omap list_omap]. rewrite Hn. split; reflexivity.
Qed.

Lemma resolve_groups_by_token_witness :
  contains "." "x.missing" = true /\
  standard_groups "x.missing" = None /\
  xmlids_of "x.missing" = ["x.missing"] /\
  token_warnings standard_groups "x.missing" = [warning "x.missing"].
Proof.
  split; [reflexivity|]. split; [reflexivity|].
  pose proof resolve_groups_by_token as (_ & Hdot & _ & _ & _ & Hlog).
  split.
  - apply Hdot. reflexivity.
  - apply (Hlog standard_groups "x.missing"); reflexivity.
Defined.

(** C8 as stated fails on an unknown shorthand: the token [nosuch] is
    dropped, but nothing is printed for it. *)
Lemma unknown_shorthand_is_not_logged :
  ~ (forall env_ref tokens token,
       token ∈ tokens -> token_ids env_ref token = [] ->
       logged (resolve_groups env_ref tokens).2 token).
Proof.
  intros H.
  destruct (H standard_groups ["nosuch"] "nosuch") as (line & Hin & _).
  - apply list_elem_of_singleton. reflexivity.
  - reflexivity.
  - vm_compute in Hin. inversion Hin.
Qed.

End OdooBootstrap.


(** ** n8n/.../bootstrap.py: owner detection and owner setup *)

Module N8nBootstrap.
Import PyStr.

(** Values produced by [json.loads] (numbers kept as integers). *)
Inductive json :=
| JNull
| JBool (b : bool)
| JNum (n : Z)
| JStr (s : string)
| JArr (items : list json)
| JObj (fields : list (string * json)).

(** [d.get(key)] on a decoded object; of repeated keys the last one wins,
    as in [json.loads]. *)
Fixpoint obj_get (fields : list (string * json)) (key : string) : option json :=
  match fields with
  | [] => None
  | (k, v) :: r =>
      match obj_get r key with
      | Some v' => Some v'
      | None => if String.eqb k key then Some v else None
      end
  end.

(** Python truth value of a decoded value, [None] for an absent key. *)
Definition truthy (j : json) : bool :=
  match j with
  | JNull => false
  | JBool b => b
  | JNum n => negb (n =? 0)
  | JStr s => negb (String.eqb s EmptyString)
  | JArr items => match items with [] => false | _ => true end
  | JObj fields => match fields with [] => false | _ => true end
  end.
Definition truthy_opt (o : option json) : bool :=
  match o with Some j => truthy j | None => false end.

(** [if isinstance(settings.get("data"), dict): settings = settings.get("data")] *)
Definition unwrap_data (settings : list (string * json)) : list (string * json) :=
  match obj_get settings "data" with
  | Some (JObj d) => d
  | _ => settings
  end.

(** [um = settings.get("userManagement") or {}]; [None] when the value is
    truthy but has no [.get] (the flag lookups then raise AttributeError). *)
Definition user_management (settings : list (string * json))
  : option (list (string * json)) :=
  match obj_get settings "userManagement" with
  | None => Some []
  | Some v => if truthy v then match v with JObj um => Some um | _ => None end
              else Some []
  end.

(** The three flags read from [um]. *)
Definition owner_flags (um : list (string * json)) : bool :=
  let is_owner_setup :=
    truthy_opt (obj_get um "isInstanceOwnerSetUp")
    || truthy_opt (obj_get um "isInstanceOwnerInitialized") in
  match obj_get um "showSetupOnFirstLoad" with
  | Some v => is_owner_setup || match v with JBool false => true | _ => false end
  | None => is_owner_setup
  end.

(** ["/" + str((settings.get("endpoint") or settings.get("restEndpoint")
    or "rest").strip("/"))]; [None] when the chosen value is not a string. *)
Definition rest_prefix (settings : list (string * json)) : option string :=
  let chosen :=
    match obj_get settings "endpoint" with
    | Some v => if truthy v then v
                else match obj_get settings "restEndpoint" with
                     | Some v' => if truthy v' then v' else JStr "rest"
                     | None => JStr "rest"
                     end
    | None => match obj_get settings "restEndpoint" with
              | Some v' => if truthy v' then v' else JStr "rest"
              | None => JStr "rest"
              end
    end in
  match chosen with
  | JStr s => Some ("/" +:+ strip_slash s)
  | _ => None
  end.

(** How [_http_json_post] ends.  [urlopen] raises [HTTPError] for every
    reply outside 2xx, so a 4xx reply reaches [main] as [RaisedHTTP] with
    the reply body as detail ([None] when reading or decoding it fails). *)
Inductive post_result :=
| Returned (status : Z) (body : json)
| RaisedHTTP (code : Z) (detail : option string)
| RaisedOther.

Inductive exit :=
| Exit (code : Z)
| Uncaught.          (* an exception leaves [main] *)

Record world := {
  ready_base_url : option string;                 (* the candidate that answered the polling loop *)
  settings_payload : option (list (string * json)); (* [_wait_for_ready(base_url, 75)] *)
  post : nat -> string -> post_result;            (* the n-th POST, by URL *)
  recheck_payload : option (list (string * json)) (* [_wait_for_ready(base_url, 10)] *)
}.

Definition status_in2 (a b status : Z) : bool := (status =? a) || (status =? b).

Definition says_initialized (text : string) : bool :=
  contains "already" (lower text) || contains "initialized" (lower text).

Inductive verdict := Success | TryNext | Raised.

(** The checks after a POST that returned: created, or a 400/409 whose
    [message] says the owner exists already. *)
Definition returned_verdict (status : Z) (body : json) : verdict :=
  if status_in2 200 201 status then Success
  else if status_in2 400 409 status then
    let msg :=                       (* (body or {}).get("message"), the empty string by default *)
      if truthy body then
        match body with
        | JObj fields => Some (default (JStr EmptyString) (obj_get fields "message"))
        | _ => None
        end
      else Some (JStr EmptyString) in
    match msg with
    | Some (JStr s) => if says_initialized s then Success else TryNext
    | _ => Raised                    (* no [.get] or no [.lower] *)
    end
  else TryNext.

(** The settings re-check shared by both handlers; any exception inside is
    swallowed. *)
Definition post_init (recheck : option (list (string * json))) : bool :=
  match recheck with
  | None => false
  | Some settings2 =>
      match user_management (unwrap_data settings2) with
      | Some um2 => owner_flags um2
      | None => false
      end
  end.

Definition fallback_candidates (prefix : string) : list string :=
  [prefix +:+ "/owner/setup"; prefix +:+ "/user-management/setup"; prefix +:+ "/setup";
   prefix +:+ "/users"; prefix +:+ "/user-management/users";
   "/owner/setup"; "/user-management/setup"; "/setup"; "/users"; "/user-management/users";
   "/api/v1/owner/setup"; "/api/v1/setup"; "/api/v1/user-management/setup"].

(** The loop over the fallback paths; [n] counts the POSTs issued so far.
    The result is the exit code and the attempts made, in order. *)
Fixpoint fallback_loop (w : world) (base : string) (n : nat) (paths : list string)
  : exit * list (string * post_result) :=
  match paths with
  | [] => (if post_init (recheck_payload w) then Exit 0 else Exit 1, [])
  | path :: rest =>
      let url := base +:+ path in
      let r := post w n url in
      let continue := let '(e, t) := fallback_loop w base (S n) rest in (e, (url, r) :: t) in
      match r with
      | Returned status _ =>
          if status_in2 200 201 status then (Exit 0, [(url, r)]) else continue
      | RaisedHTTP code detail2 =>
          if status_in2 400 409 code && says_initialized (default EmptyString detail2)
          then (Exit 0, [(url, r)])
          else if status_in2 401 403 code then continue
          else if negb (code =? 404) then (Exit 1, [(url, r)])
          else continue
      | RaisedOther => (Exit 1, [(url, r)])
      end
  end.

(** [except urllib.error.HTTPError as e] around the three primary POSTs. *)
Definition on_http_error (w : world) (base prefix : string) (n : nat)
  (code : Z) (detail : option string) : exit * list (string * post_result) :=
  let detail := default EmptyString detail in
  if status_in2 400 409 code && (post_init (recheck_payload w) || says_initialized detail)
  then (Exit 0, [])
  else if (code =? 404) || status_in2 401 403 code
  then fallback_loop w base n (dedupe (fallback_candidates prefix))
  else (Exit 1, []).

(** The [try] block: the current endpoint, then the two legacy ones. *)
Fixpoint primary_attempts (w : world) (base prefix : string) (n : nat)
  (paths : list string) : exit * list (string * post_result) :=
  match paths with
  | [] => (Exit 1, [])
  | path :: rest =>
      let url := base +:+ prefix +:+ path in
      let r := post w n url in
      match r with
      | Returned status body =>
          match returned_verdict status body with
          | Success => (Exit 0, [(url, r)])
          | Raised => (Exit 1, [(url, r)])
          | TryNext =>
              let '(e, t) := primary_attempts w base prefix (S n) rest in (e, (url, r) :: t)
          end
      | RaisedHTTP code detail =>
          let '(e, t) := on_http_error w base prefix (S n) code detail in (e, (url, r) :: t)
      | RaisedOther => (Exit 1, [(url, r)])
      end
  end.

Definition primary_paths : list string := ["/owner/setup"; "/setup"; "/user-management/setup"].

(** [main()]: the exit code and the POSTs issued. *)
Definition main (w : world) : exit * list (string * post_result) :=
  match ready_base_url w with
  | None => (Exit 1, [])
  | Some base_url =>
      match settings_payload w with
      | None => (Exit 1, [])
      | Some settings0 =>
          let settings := unwrap_data settings0 in
          match user_management settings with
          | None => (Uncaught, [])
          | Some um =>
              if owner_flags um then (Exit 0, [])
              else match rest_prefix settings with
                   | None => (Uncaught, [])
                   | Some prefix => primary_attempts w base_url prefix 0 primary_paths
                   end
          end
      end
  end.

(** Sample worlds: a server at the default address with given settings
    and POST behaviour. *)
Definition world_with (settings : list (string * json)) (p : nat -> string -> post_result)
  : world :=
  {| ready_base_url := Some "http://n8n:5678"; settings_payload := Some settings;
     post := p; recheck_payload := None |}.

Definition nested_flag (flag : string) (v : json) : list (string * json) :=
  [("userManagement", JObj [(flag, v)])].

Example fresh_instance_creates_owner :
  main (world_with [("userManagement", JObj [("showSetupOnFirstLoad", JBool true)])]
          (fun _ _ => Returned 200 (JObj [])))
  = (Exit 0, [("http://n8n:5678/rest/owner/setup", Returned 200 (JObj []))]).
Proof. vm_compute. reflexivity. Qed.

Example not_found_walks_fallbacks :
  length (main (world_with [] (fun _ _ => RaisedHTTP 404 (Some EmptyString)))).2 = 14%nat /\
  (main (world_with [] (fun _ _ => RaisedHTTP 404 (Some EmptyString)))).1 = Exit 1.
Proof. vm_compute. split; reflexivity. Qed.

Lemma says_initialized_already detail :
  contains "already" detail = true -> says_initialized detail = true.
Proof.
  intros H. unfold says_initialized.
  rewrite (contains_lower "already" detail eq_refl H). reflexivity.
Qed.

Lemma fallback_conflict w base paths : forall n url detail,
  (url, RaisedHTTP 409 (Some detail)) ∈ (fallback_loop w base n paths).2 ->
  says_initialized detail = true ->
  (fallback_loop w base n paths).1 = Exit 0.
Proof.
  induction paths as [|path rest IH]; intros n url detail Hin Hsay; cbn [fallback_loop] in *.
  - cbn [snd] in Hin. inversion Hin.
  - specialize (IH (S n) url detail).
    destruct (fallback_loop w base (S n) rest) as [e t] eqn:F. cbn [fst snd] in IH.
    destruct (post w n (base +:+ path)) as [status body|code dt|] eqn:E.
    + destruct (status_in2 200 201 status); cbn [fst snd] in *.
      * apply list_elem_of_singleton in Hin. discriminate Hin.
      * apply elem_of_cons in Hin as [Heq|Hin]; [discriminate Heq | auto].
    + destruct (status_in2 400 409 code && says_initialized (default EmptyString dt)) eqn:C;
        [reflexivity|].
      assert (Hne : (url, RaisedHTTP 409 (Some detail)) <> (base +:+ path, RaisedHTTP code dt)).
      { intros Heq. injection Heq as _ <- <-.
        change (default EmptyString (Some detail)) with detail in C.
        rewrite Hsay in C. discriminate C. }
      destruct (status_in2 401 403 code); [|destruct (negb (code =? 404))]; cbn [fst snd] in *.
      * apply elem_of_cons in Hin as [Heq|Hin]; [contradiction | auto].
      * apply list_elem_of_singleton in Hin. contradiction.
      * apply elem_of_cons in Hin as [Heq|Hin]; [contradiction | auto].
    + cbn [fst snd] in *. apply list_elem_of_singleton in Hin. discriminate Hin.
Qed.

Lemma primary_conflict w base prefix paths : forall n url detail,
  (url, RaisedHTTP 409 (Some detail)) ∈ (primary_attempts w base prefix n paths).2 ->
  says_initialized detail = true ->
  (primary_attempts w base prefix n paths).1 = Exit 0.
Proof.
  induction paths as [|path rest IH]; intros n url detail Hin Hsay; cbn [primary_attempts] in *.
  - cbn [snd] in Hin. inversion Hin.
  - specialize (IH (S n) url detail).
    destruct (primary_attempts w base prefix (S n) rest) as [e t] eqn:F. cbn [fst snd] in IH.
    destruct (post w n (base +:+ prefix +:+ path)) as [status body|code dt|] eqn:E.
    + destruct (returned_verdict status body); cbn [fst snd] in *.
      * apply list_elem_of_singleton in Hin. discriminate Hin.
      * apply elem_of_cons in Hin as [Heq|Hin]; [discriminate Heq | auto].
      * apply list_elem_of_singleton in Hin. discriminate Hin.
    + pose proof (fallback_conflict w base (dedupe (fallback_candidates prefix)) (S n) url detail)
        as Hfb.
      unfold on_http_error in *.
      destruct (status_in2 400 409 code
                && (post_init (recheck_payload w) || says_initialized (default EmptyString dt)))
        eqn:C; [reflexivity|].
      assert (Hne : (url, RaisedHTTP 409 (Some detail))
                    <> (base +:+ prefix +:+ path, RaisedHTTP code dt)).
      { intros Heq. injection Heq as _ <- <-.
        change (default EmptyString (Some detail)) with detail in C.
        rewrite Hsay, orb_true_r in C. discriminate C. }
      destruct ((code =? 404) || status_in2 401 403 code).
      * destruct (fallback_loop w base (S n) (dedupe (fallback_candidates prefix))) as [e' t'].
        cbn [fst snd] in *.
        apply elem_of_cons in Hin as [Heq|Hin]; [contradiction | auto].
      * cbn [fst snd] in *. apply list_elem_of_singleton in Hin. contradiction.
    + cbn [fst snd] in *. apply list_elem_of_singleton in Hin. discriminate Hin.
Qed.

(** An owner flag found under [userManagement] ends the run before any
    POST. *)
Lemma owner_flag_skips_setup w base settings um :
  ready_base_url w = Some base ->
  settings_payload w = Some settings ->
  user_management (unwrap_data settings) = Some um ->
  owner_flags um = true ->
  main w = (Exit 0, []).
Proof.
  intros Hb Hs Hum Hf. unfold main. rewrite Hb, Hs, Hum, Hf. reflexivity.
Qed.

(** C3, as the code has it.  Each of the three flags, placed inside the
    [userManagement] object of the settings payload (directly or under the
    [data] wrapper), makes [main] return 0 without a single POST. *)
Theorem owner_already_configured_is_success :
  forall (w : world) (base : string) (payload : list (string * json)),
    ready_base_url w = Some base ->
    payload ∈ [nested_flag "isInstanceOwnerSetUp" (JBool true);
               nested_flag "isInstanceOwnerInitialized" (JBool true);
               nested_flag "showSetupOnFirstLoad" (JBool false)] ->
    settings_payload w = Some payload \/ settings_payload w = Some [("data", JObj payload)] ->
    main w = (Exit 0, []).
Proof.
  intros w base payload Hb Hp Hs.
  assert (Hflag : user_management payload = Some (default [] (user_management payload))
                  /\ owner_flags (default [] (user_management payload)) = true
                  /\ unwrap_data payload = payload
                  /\ unwrap_data [("data", JObj payload)] = payload).
  { repeat (apply elem_of_cons in Hp as [->|Hp]); [| | |inversion Hp];
      repeat split; reflexivity. }
  destruct Hflag as (Hum & Hf & Hu1 & Hu2).
  destruct Hs as [Hs|Hs];
    apply (owner_flag_skips_setup w base _ (default [] (user_management payload)) Hb Hs);
    rewrite ?Hu1, ?Hu2; assumption.
Qed.

Lemma owner_already_configured_is_success_witness :
  let w := world_with (nested_flag "isInstanceOwnerInitialized" (JBool true))
             (fun _ _ => RaisedOther) in
  ready_base_url w = Some "http://n8n:5678" /\ main w = (Exit 0, []).
Proof.
  cbv zeta. split; [reflexivity|].
  apply (owner_already_configured_is_success _ "http://n8n:5678"
           (nested_flag "isInstanceOwnerInitialized" (JBool true))).
  - reflexivity.
  - apply elem_of_cons; right. apply elem_of_cons; left. reflexivity.
  - left. reflexivity.
Defined.

(** C3 as stated fails for the second and third shape: with the flag at the
    top level of the payload, [main] goes on to POST the owner and, the
    POST failing here, returns 1. *)
Lemma top_level_owner_flags_are_ignored :
  main (world_with [("isInstanceOwnerInitialized", JBool true)] (fun _ _ => RaisedOther))
  = (Exit 1, [("http://n8n:5678/rest/owner/setup", RaisedOther)]) /\
  main (world_with [("showSetupOnFirstLoad", JBool false)] (fun _ _ => RaisedOther))
  = (Exit 1, [("http://n8n:5678/rest/owner/setup", RaisedOther)]).
Proof. split; vm_compute; reflexivity. Qed.

(** C6.  Whichever POST of a run it is (the current endpoint, a legacy one
    or a fallback path), a 409 reply whose body contains "already" makes
    [main] return 0. *)
Theorem conflict_already_is_success :
  forall (w : world) (url detail : string),
    (url, RaisedHTTP 409 (Some detail)) ∈ (main w).2 ->
    contains "already" detail = true ->
    (main w).1 = Exit 0.
Proof.
  intros w url detail Hin Hc. unfold main in *.
  destruct (ready_base_url w) as [base|]; [|inversion Hin].
  destruct (settings_payload w) as [settings0|]; [|inversion Hin].
  destruct (user_management (unwrap_data settings0)) as [um|]; [|inversion Hin].
  destruct (owner_flags um); [inversion Hin|].
  destruct (rest_prefix (unwrap_data settings0)) as [prefix|]; [|inversion Hin].
  eapply primary_conflict; [exact Hin|]. now apply says_initialized_already.
Qed.

Definition conflict_on_fallback (n : nat) (url : string) : post_result :=
  match n with
  | O => RaisedHTTP 404 (Some EmptyString)
  | 1%nat => RaisedHTTP 401 None
  | _ => RaisedHTTP 409 (Some "Instance owner already setup")
  end.

Lemma conflict_already_is_success_witness :
  let w := world_with [] conflict_on_fallback in
  (main w).2 = [("http://n8n:5678/rest/owner/setup", RaisedHTTP 404 (Some EmptyString));
                ("http://n8n:5678/rest/owner/setup", RaisedHTTP 401 None);
                ("http://n8n:5678/rest/user-management/setup",
                 RaisedHTTP 409 (Some "Instance owner already setup"))] /\
  (main w).1 = Exit 0.
Proof.
  cbv zeta.
  assert (Ht : (main (world_with [] conflict_on_fallback)).2
     = [("http://n8n:5678/rest/owner/setup", RaisedHTTP 404 (Some EmptyString));
        ("http://n8n:5678/rest/owner/setup", RaisedHTTP 401 None);
        ("http://n8n:5678/rest/user-management/setup",
         RaisedHTTP 409 (Some "Instance owner already setup"))])
    by (vm_compute; reflexivity).
  split; [exact Ht|].
  apply (conflict_already_is_success _ "http://n8n:5678/rest/user-management/setup"
           "Instance owner already setup").
  - rewrite Ht. apply elem_of_cons; right. apply elem_of_cons; right.
    apply elem_of_cons; left. reflexivity.
  - vm_compute. reflexivity.
Defined.

End N8nBootstrap.


(** ** helpdesk_ticket.py: the ticket extension *)

Module Helpdesk.
Import PyStr.

(** *** Records of the models the extension reads and writes *)

Record category := {
  cat_team_id : option Z;
  cat_parent_id : option Z;
  cat_user_id : option Z
}.

Record team := {
  assign_method : string;
  member_ids : list Z;
  use_sla : bool;
  team_company_id : Z
}.

Record sla := {
  sla_team_id : option Z;
  priority_all : bool;
  sla_priority : string;
  sla_stage_sequence : Z;           (* stage_id.sequence; the stage is required *)
  category_ids : list Z;
  sla_tag_ids : list Z
}.

Record sla_status := {
  status_ticket_id : Z;
  status_sla_id : Z;
  reached : bool                    (* reached_datetime is set *)
}.

Record ticket := {
  name : string;
  category_id : option Z;
  team_id : option Z;
  user_id : option Z;
  priority : string;
  stage_id : option Z;
  tag_ids : list Z;
  partner_id : option Z;
  company_id : option Z;
  sla_ids : list Z;                 (* in recordset order *)
  sla_recompute_bump : Z;
  sla_opt_out : bool
}.

Record db := {
  categories : gmap Z category;
  teams : list (Z * team);          (* in search order *)
  stages : gmap Z Z;                (* stage id to sequence *)
  slas : gmap Z sla;
  tickets : gmap Z ticket;
  sla_statuses : gmap Z sla_status
}.

(** Field names of [helpdesk.ticket]. *)
Inductive field :=
| F_name | F_category_id | F_team_id | F_user_id | F_priority | F_stage_id
| F_tag_ids | F_partner_id | F_company_id | F_sla_ids
| F_sla_recompute_bump | F_sla_opt_out.

#[global] Instance field_eq_dec : EqDecision field.
Proof. solve_decision. Defined.

(** *** Search domains

    A domain is the list the code builds: prefix notation, ['|'] taking the
    next two terms, the terms left at top level joined by an implicit and. *)

Inductive dom_field :=
| D_id | D_team_id | D_priority_all | D_priority | D_stage_sequence
| D_category_ids | D_tag_ids.
Inductive dom_op := Op_eq | Op_ge | Op_in.
Inductive dom_value :=
| DFalse | DTrue | DInt (n : Z) | DStr (s : string) | DIds (ids : list Z).
Inductive dom_term :=
| T_or
| T_leaf (f : dom_field) (op : dom_op) (v : dom_value).

Definition overlaps (a b : list Z) : bool :=
  existsb (fun x => bool_decide (x ∈ b)) a.

Definition is_nil {A} (l : list A) : bool := match l with [] => true | _ => false end.

(** One leaf on one [helpdesk.sla] record; the leaves the extension never
    builds are false. *)
Definition eval_leaf (id : Z) (s : sla) (f : dom_field) (op : dom_op) (v : dom_value)
  : bool :=
  match f, op, v with
  | D_id, Op_in, DIds ids => bool_decide (id ∈ ids)
  | D_id, Op_eq, DInt n => id =? n
  | D_team_id, Op_eq, DFalse => match sla_team_id s with None => true | Some _ => false end
  | D_team_id, Op_eq, DInt n =>
      match sla_team_id s with Some t => t =? n | None => false end
  | D_priority_all, Op_eq, DTrue => priority_all s
  | D_priority, Op_eq, DStr p => String.eqb (sla_priority s) p
  | D_stage_sequence, Op_ge, DInt n => n <=? sla_stage_sequence s
  | D_category_ids, Op_eq, DFalse => is_nil (category_ids s)
  | D_category_ids, Op_in, DIds ids => overlaps (category_ids s) ids
  | D_tag_ids, Op_eq, DFalse => is_nil (sla_tag_ids s)
  | D_tag_ids, Op_in, DIds ids => overlaps (sla_tag_ids s) ids
  | _, _, _ => false
  end.

Definition eval_step (id : Z) (s : sla) (t : dom_term) (stack : list bool) : list bool :=
  match t with
  | T_leaf f op v => eval_leaf id s f op v :: stack
  | T_or => match stack with
            | a :: b :: r => (a || b) :: r
            | _ => stack
            end
  end.

Definition eval_domain (dom : list dom_term) (id : Z) (s : sla) : bool :=
  forallb (fun b => b) (foldr (eval_step id s) [] dom).

(** [many2one.id]: the id or False. *)
Definition id_value (o : option Z) : dom_value :=
  match o with Some n => DInt n | None => DFalse end.

(** *** Category ancestry *)

(** [search([('id', 'parent_of', cat_id)]).ids]: the category and the
    categories above it.  The walk is bounded by the number of categories,
    which is enough for a forest. *)
Fixpoint parent_of_walk (fuel : nat) (cats : gmap Z category) (cat_id : Z) : list Z :=
  match fuel with
  | O => []
  | S fuel' =>
      match cats !! cat_id with
      | None => []
      | Some c =>
          cat_id :: match cat_parent_id c with
                    | Some p => parent_of_walk fuel' cats p
                    | None => []
                    end
      end
  end.

Definition parent_of (d : db) (cat_id : Z) : list Z :=
  parent_of_walk (size (categories d)) (categories d) cat_id.

(** [ticket.stage_id.sequence], 0 on an empty stage. *)
Definition stage_sequence (d : db) (t : ticket) : Z :=
  match stage_id t with
  | Some st => default 0 (stages d !! st)
  | None => 0
  end.

(** [Team.browse(id)]: the first row with that id. *)
Fixpoint browse {A} (rows : list (Z * A)) (id : Z) : option A :=
  match rows with
  | [] => None
  | (k, r) :: rest => if k =? id then Some r else browse rest id
  end.

Definition team_record (d : db) (tm : Z) : option team := browse (teams d) tm.

(** [ticket.team_id.use_sla], False on an empty team. *)
Definition ticket_uses_sla (d : db) (t : ticket) : bool :=
  match team_id t with
  | Some tm => match team_record d tm with Some r => use_sla r | None => false end
  | None => false
  end.

(** *** [_onchange_sla_ids_domain] (on a single ticket) *)

Definition category_clause (d : db) (t : ticket) : list dom_term :=
  match category_id t with
  | Some c => [T_or; T_leaf D_category_ids Op_eq DFalse;
               T_leaf D_category_ids Op_in (DIds (parent_of d c))]
  | None => [T_leaf D_category_ids Op_eq DFalse]
  end.

Definition _onchange_sla_ids_domain (d : db) (t : ticket) : list dom_term :=
  if sla_opt_out t then [T_leaf D_id Op_eq (DInt 0)]
  else
    (match team_id t with
     | Some tm => [T_or; T_leaf D_team_id Op_eq DFalse; T_leaf D_team_id Op_eq (DInt tm)]
     | None => [T_leaf D_team_id Op_eq DFalse]
     end)
    ++ [T_or; T_leaf D_priority_all Op_eq DTrue; T_leaf D_priority Op_eq (DStr (priority t))]
    ++ (match stage_id t with
        | Some _ => [T_leaf D_stage_sequence Op_ge (DInt (stage_sequence d t))]
        | None => []
        end)
    ++ category_clause d t
    ++ (match tag_ids t with
        | [] => [T_leaf D_tag_ids Op_eq DFalse]
        | tags => [T_or; T_leaf D_tag_ids Op_eq DFalse; T_leaf D_tag_ids Op_in (DIds tags)]
        end).

(** *** Values passed to [create] and [write] *)

(** An element of a many2many command tuple. *)
Inductive cmd_item := I_int (n : Z) | I_ids (ids : list Z) | I_false.

(** An entry of a command list: a tuple or list, or something else. *)
Inductive command := Tuple (items : list cmd_item) | NotATuple.

Inductive value :=
| V_false
| V_int (n : Z)
| V_str (s : string)
| V_bool (b : bool)
| V_commands (cmds : list command).

(** A [vals] dict; a key is looked up at its first entry, and assignment
    replaces the entry. *)
Fixpoint vals_get (vals : list (field * value)) (f : field) : option value :=
  match vals with
  | [] => None
  | (k, v) :: r => if bool_decide (k = f) then Some v else vals_get r f
  end.

Definition vals_has (vals : list (field * value)) (f : field) : bool :=
  match vals_get vals f with Some _ => true | None => false end.

Definition vals_set (vals : list (field * value)) (f : field) (v : value)
  : list (field * value) :=
  if vals_has vals f
  then map (fun kv => if bool_decide (kv.1 = f) then (f, v) else kv) vals
  else vals ++ [(f, v)].

(** Truth value of [vals.get(f)]. *)
Definition value_truthy (v : value) : bool :=
  match v with
  | V_false => false
  | V_int n => negb (n =? 0)
  | V_str s => negb (String.eqb s EmptyString)
  | V_bool b => b
  | V_commands cmds => negb (is_nil cmds)
  end.

Definition vals_truthy (vals : list (field * value)) (f : field) : bool :=
  match vals_get vals f with Some v => value_truthy v | None => false end.

(** *** SLA matching and the clean-up of status records *)

Section SlaMatching.

(** What the base model contributes: its list of reset triggers, and
    [_sla_find_extra_domain() OR _sla_find_false_domain()] as a test on a
    policy for a ticket. *)
Variable base_triggers : list field.
Variable extra_domain : ticket -> Z -> sla -> bool.

(** [_sla_reset_trigger()] *)
Definition _sla_reset_trigger : list field :=
  dedupe (base_triggers ++ [F_category_id; F_sla_recompute_bump; F_sla_opt_out]).

(** One component of the grouping key. *)
Inductive key_part :=
| K_false | K_int (n : Z) | K_str (s : string) | K_bool (b : bool) | K_ids (ids : list Z).

Definition id_key (o : option Z) : key_part :=
  match o with Some n => K_int n | None => K_false end.

(** [ticket[field_name].id] for a many2one, [ticket[field_name]] otherwise. *)
Definition field_key (t : ticket) (f : field) : key_part :=
  match f with
  | F_name => K_str (name t)
  | F_category_id => id_key (category_id t)
  | F_team_id => id_key (team_id t)
  | F_user_id => id_key (user_id t)
  | F_priority => K_str (priority t)
  | F_stage_id => id_key (stage_id t)
  | F_tag_ids => K_ids (tag_ids t)
  | F_partner_id => id_key (partner_id t)
  | F_company_id => id_key (company_id t)
  | F_sla_ids => K_ids (sla_ids t)
  | F_sla_recompute_bump => K_int (sla_recompute_bump t)
  | F_sla_opt_out => K_bool (sla_opt_out t)
  end.

Definition _generate_key (t : ticket) : list key_part := map (field_key t) _sla_reset_trigger.

Definition subset_b (a b : list Z) : bool := forallb (fun x => bool_decide (x ∈ b)) a.

(** Equality of key components as Python compares them: recordsets by
    their sets of ids, and False equal to 0. *)
Definition key_part_eqb (a b : key_part) : bool :=
  match a, b with
  | K_false, K_false => true
  | K_false, K_int n | K_int n, K_false => n =? 0
  | K_false, K_bool c | K_bool c, K_false => negb c
  | K_int n, K_int m => n =? m
  | K_int n, K_bool c | K_bool c, K_int n => n =? (if c then 1 else 0)
  | K_str s, K_str u => String.eqb s u
  | K_bool c, K_bool e => Bool.eqb c e
  | K_ids x, K_ids y => subset_b x y && subset_b y x
  | _, _ => false
  end.

Fixpoint key_eqb (a b : list key_part) : bool :=
  match a, b with
  | [], [] => true
  | x :: a', y :: b' => key_part_eqb x y && key_eqb a' b'
  | _, _ => false
  end.

(** The domain [_sla_find] builds for the first ticket of a key. *)
Definition base_domain (d : db) (t : ticket) : list dom_term :=
  match sla_ids t with
  | _ :: _ => [T_leaf D_id Op_in (DIds (sla_ids t))]
  | [] =>
      [T_or; T_leaf D_team_id Op_eq DFalse; T_leaf D_team_id Op_eq (id_value (team_id t));
       T_or; T_leaf D_priority_all Op_eq DTrue; T_leaf D_priority Op_eq (DStr (priority t));
       T_leaf D_stage_sequence Op_ge (DInt (stage_sequence d t))]
      ++ category_clause d t
  end.

(** A group of [_sla_find]: the key, the tickets of [tickets_map[key]], and
    the ticket whose domain is [sla_domain_map[key]]. *)
Record group := {
  g_key : list key_part;
  g_tickets : list Z;
  g_first : ticket
}.

Fixpoint add_ticket (key : list key_part) (tid : Z) (t : ticket) (groups : list group)
  : list group :=
  match groups with
  | [] => [{| g_key := key; g_tickets := [tid]; g_first := t |}]
  | g :: rest =>
      if key_eqb (g_key g) key
      then {| g_key := g_key g;
              g_tickets := if bool_decide (tid ∈ g_tickets g) then g_tickets g
                           else g_tickets g ++ [tid];
              g_first := g_first g |} :: rest
      else g :: add_ticket key tid t rest
  end.

(** The first loop of [_sla_find]; ids without a record are passed over. *)
Definition group_step (d : db) (groups : list group) (tid : Z) : list group :=
  match tickets d !! tid with
  | None => groups
  | Some t =>
      if sla_opt_out t then groups
      else if negb (ticket_uses_sla d t) then groups
      else add_ticket (_generate_key t) tid t groups
  end.

Definition sla_groups (d : db) (self : list Z) : list group :=
  foldl (group_step d) [] self.

(** [tickets.tag_ids]: the tags of the tickets of a group. *)
Definition group_tags (d : db) (tids : list Z) : list Z :=
  flat_map (fun tid => match tickets d !! tid with Some t => tag_ids t | None => [] end) tids.

(** [search(domain)] followed by the tag filter, for one group. *)
Definition group_matches (d : db) (g : group) (id : Z) (s : sla) : bool :=
  eval_domain (base_domain d (g_first g)) id s
  && extra_domain (g_first g) id s
  && (is_nil (sla_tag_ids s) || overlaps (group_tags d (g_tickets g)) (sla_tag_ids s)).

Definition search_slas (d : db) (p : Z -> sla -> bool) : list Z :=
  (map_to_list (filter (fun kv => p kv.1 kv.2 = true) (slas d))).*1.

(** [_sla_find()]: for each group its tickets and the ids of its policies. *)
Definition _sla_find (d : db) (self : list Z) : list (list Z * list Z) :=
  (fun g => (g_tickets g, search_slas d (group_matches d g))) <$> sla_groups d self.

(** [allowed_by_ticket]; a later assignment to a key replaces an earlier. *)
Fixpoint allowed_get (sla_map : list (list Z * list Z)) (tid : Z) : option (list Z) :=
  match sla_map with
  | [] => None
  | (tids, ids) :: rest =>
      match allowed_get rest tid with
      | Some later => Some later
      | None => if bool_decide (tid ∈ tids) then Some ids else None
      end
  end.

(** [allowed_by_ticket.get(ticket.id, set())] *)
Definition allowed (d : db) (self : list Z) (tid : Z) : list Z :=
  default [] (allowed_get (_sla_find d self) tid).

(** Whether a status record ends up in [to_unlink]. *)
Definition to_unlink (d : db) (self : list Z) (st : sla_status) : bool :=
  bool_decide (status_ticket_id st ∈ self)
  && bool_decide (is_Some (tickets d !! status_ticket_id st))
  && (let permitted := allowed d self (status_ticket_id st) in
      if is_nil permitted then true
      else negb (bool_decide (status_sla_id st ∈ permitted))).

Definition touches_trigger (vals : list (field * value)) : bool :=
  existsb (fun k => bool_decide (k ∈ _sla_reset_trigger)) vals.*1.

Definition with_statuses (d : db) (m : gmap Z sla_status) : db :=
  {| categories := categories d; teams := teams d; stages := stages d; slas := slas d;
     tickets := tickets d; sla_statuses := m |}.

(** [_cleanup_obsolete_sla_statuses_after_change(vals)] *)
Definition _cleanup_obsolete_sla_statuses_after_change
  (d : db) (self : list Z) (vals : list (field * value)) : db :=
  if touches_trigger vals
  then with_statuses d (filter (fun kv => to_unlink d self kv.2 = false) (sla_statuses d))
  else d.

End SlaMatching.

(** *** The constraint on the assignee *)

Definition team_members (d : db) (tm : Z) : list Z :=
  match team_record d tm with Some r => member_ids r | None => [] end.

(** The test of [_check_assignee_is_team_member] on one ticket: true when
    the constraint does not raise. *)
Definition assignee_ok (d : db) (t : ticket) : bool :=
  match team_id t, user_id t with
  | Some tm, Some u => bool_decide (u ∈ team_members d tm)
  | _, _ => true
  end.

(** [_check_assignee_is_team_member] over a recordset. *)
Definition _check_assignee_is_team_member (d : db) (self : list Z) : bool :=
  forallb (fun tid => match tickets d !! tid with
                      | Some t => assignee_ok d t
                      | None => true
                      end) self.

(** *** The ORM underneath [create] and [write] *)

Inductive exn := ValidationError | MissingError | BadValue.

Inductive result (A : Type) :=
| Ok (a : A)
| Raise (e : exn)
| Diverges.
Arguments Ok {A} a.
Arguments Raise {A} e.
Arguments Diverges {A}.

Definition bind {A B} (r : result A) (k : A -> result B) : result B :=
  match r with
  | Ok a => k a
  | Raise e => Raise e
  | Diverges => Diverges
  end.

#[global] Instance result_bind : MBind result := fun A B k r => bind r k.

Definition with_tickets (d : db) (m : gmap Z ticket) : db :=
  {| categories := categories d; teams := teams d; stages := stages d; slas := slas d;
     tickets := m; sla_statuses := sla_statuses d |}.

(** The value a many2one field takes. *)
Definition many2one_of (v : value) : option (option Z) :=
  match v with
  | V_false => Some None
  | V_int n => Some (Some n)
  | _ => None
  end.

(** The ORM's reading of many2many commands: 6 replaces, 4 links, 3
    unlinks, 5 clears; the commands that create or edit the linked records
    are outside this model. *)
Fixpoint many2many_of (current : list Z) (cmds : list command) : option (list Z) :=
  match cmds with
  | [] => Some current
  | Tuple (I_int 6 :: _ :: I_ids ids :: _) :: rest => many2many_of (dedupe ids) rest
  | Tuple (I_int 4 :: I_int id :: _) :: rest =>
      many2many_of (if bool_decide (id ∈ current) then current else current ++ [id]) rest
  | Tuple (I_int 3 :: I_int id :: _) :: rest =>
      many2many_of (filter (fun x => x ≠ id) current) rest
  | Tuple (I_int 5 :: _) :: rest => many2many_of [] rest
  | _ => None
  end.

(** Assignment of one field of a ticket. *)
Definition set_field (t : ticket) (f : field) (v : value) : option ticket :=
  let upd nm cat tm us pr st tg pa co sl bu oo :=
    {| name := nm; category_id := cat; team_id := tm; user_id := us; priority := pr;
       stage_id := st; tag_ids := tg; partner_id := pa; company_id := co; sla_ids := sl;
       sla_recompute_bump := bu; sla_opt_out := oo |} in
  let '{| name := nm; category_id := cat; team_id := tm; user_id := us; priority := pr;
          stage_id := st; tag_ids := tg; partner_id := pa; company_id := co; sla_ids := sl;
          sla_recompute_bump := bu; sla_opt_out := oo |} := t in
  match f with
  | F_name =>
      match v with
      | V_str x => Some (upd x cat tm us pr st tg pa co sl bu oo)
      | V_false => Some (upd EmptyString cat tm us pr st tg pa co sl bu oo)
      | _ => None
      end
  | F_category_id => x ← many2one_of v; Some (upd nm x tm us pr st tg pa co sl bu oo)
  | F_team_id => x ← many2one_of v; Some (upd nm cat x us pr st tg pa co sl bu oo)
  | F_user_id => x ← many2one_of v; Some (upd nm cat tm x pr st tg pa co sl bu oo)
  | F_priority =>
      match v with
      | V_str x => Some (upd nm cat tm us x st tg pa co sl bu oo)
      | _ => None
      end
  | F_stage_id => x ← many2one_of v; Some (upd nm cat tm us pr x tg pa co sl bu oo)
  | F_tag_ids =>
      match v with
      | V_commands cmds => x ← many2many_of tg cmds; Some (upd nm cat tm us pr st x pa co sl bu oo)
      | _ => None
      end
  | F_partner_id => x ← many2one_of v; Some (upd nm cat tm us pr st tg x co sl bu oo)
  | F_company_id => x ← many2one_of v; Some (upd nm cat tm us pr st tg pa x sl bu oo)
  | F_sla_ids =>
      match v with
      | V_commands cmds => x ← many2many_of sl cmds; Some (upd nm cat tm us pr st tg pa co x bu oo)
      | _ => None
      end
  | F_sla_recompute_bump =>
      match v with
      | V_int x => Some (upd nm cat tm us pr st tg pa co sl x oo)
      | V_false => Some (upd nm cat tm us pr st tg pa co sl 0 oo)
      | _ => None
      end
  | F_sla_opt_out =>
      match v with
      | V_bool x => Some (upd nm cat tm us pr st tg pa co sl bu x)
      | V_false => Some (upd nm cat tm us pr st tg pa co sl bu false)
      | _ => None
      end
  end.

(** All entries of [vals], in order, on one ticket. *)
Fixpoint set_fields (t : ticket) (vals : list (field * value)) : option ticket :=
  match vals with
  | [] => Some t
  | (f, v) :: rest => t' ← set_field t f v; set_fields t' rest
  end.

(** The records of [self] after the assignment. *)
Fixpoint assign (m : gmap Z ticket) (self : list Z) (vals : list (field * value))
  : result (gmap Z ticket) :=
  match self with
  | [] => Ok m
  | tid :: rest =>
      match m !! tid with
      | None => Raise MissingError
      | Some t =>
          match set_fields t vals with
          | None => Raise BadValue
          | Some t' => assign (<[tid := t']> m) rest vals
          end
      end
  end.

(** [@api.constrains('team_id', 'user_id')]: the check runs when one of the
    two names is among the keys written. *)
Definition constrained (vals : list (field * value)) : bool :=
  vals_has vals F_team_id || vals_has vals F_user_id.

(** A ticket with every field empty, before defaults and values. *)
Definition blank_ticket : ticket :=
  {| name := EmptyString; category_id := None; team_id := None; user_id := None;
     priority := EmptyString; stage_id := None; tag_ids := []; partner_id := None;
     company_id := None; sla_ids := []; sla_recompute_bump := 0; sla_opt_out := false |}.

(** An id no ticket has yet. *)
Definition fresh_id (m : gmap Z ticket) : Z :=
  1 + foldr Z.max 0 (map_to_list m).*1.

(** *** [create] and [write] of the extension *)

(** [while parent and not parent.team_id: parent = parent.parent_id], and
    the team found, if any.  The loop runs for ever on a cycle of parents. *)
Fixpoint nearest_team_above (fuel : nat) (cats : gmap Z category) (parent : option Z)
  : result (option Z) :=
  match fuel with
  | O => Diverges
  | S fuel' =>
      match parent with
      | None => Ok None
      | Some p =>
          match cats !! p with
          | None => Raise MissingError
          | Some c =>
              match cat_team_id c with
              | Some tm => Ok (Some tm)
              | None => nearest_team_above fuel' cats (cat_parent_id c)
              end
          end
      end
  end.

(** The integer under a key that has passed a truth test. *)
Definition id_of (v : value) : result Z :=
  match v with V_int n => Ok n | _ => Raise BadValue end.

(** [category.user_id.id if (category.user_id and category.user_id in
    team.member_ids) else False] *)
Definition category_assignee (c : category) (r : team) : value :=
  match cat_user_id c with
  | Some u => if bool_decide (u ∈ member_ids r) then V_int u else V_false
  | None => V_false
  end.

(** The set built from many2many commands in [create]: the ids in the
    order they entered; [None] when an exception is raised on the way. *)
Definition op_of (item : cmd_item) : option Z :=
  match item with I_int n => Some n | I_false => Some 0 | I_ids _ => None end.

Definition element_of (item : cmd_item) : option Z :=
  match item with I_int n => Some n | I_false => Some 0 | I_ids _ => None end.

Fixpoint normalize_commands (ids : list Z) (cmds : list command) : option (list Z) :=
  match cmds with
  | [] => Some ids
  | NotATuple :: rest => normalize_commands ids rest
  | Tuple [] :: rest => normalize_commands ids rest
  | Tuple (op :: args) :: rest =>
      match op_of op with
      | Some 6 =>
          match args with
          | _ :: I_ids l :: _ => normalize_commands (dedupe l) rest
          | _ :: I_false :: _ | _ :: I_int 0 :: _ => normalize_commands [] rest
          | _ => None
          end
      | Some 4 =>
          match args with
          | x :: _ =>
              n ← element_of x;
              normalize_commands (if bool_decide (n ∈ ids) then ids else ids ++ [n]) rest
          | [] => None
          end
      | Some 3 =>
          match args with
          | x :: _ => n ← element_of x; normalize_commands (filter (fun y => y ≠ n) ids) rest
          | [] => None
          end
      | Some 5 => normalize_commands [] rest
      | _ => normalize_commands ids rest
      end
  end.

Section Mutations.

Variable base_triggers : list field.
Variable extra_domain : ticket -> Z -> sla -> bool.

(** The base model's [_sla_apply]: the status table it leaves. *)
Variable sla_apply : db -> list Z -> gmap Z sla_status.

(** [self.env.company.id] and the defaults [create] fills in. *)
Variable env_company : Z.
Variable defaults : list (field * value).

(** [next(iter(ids))] on a set whose elements entered in the given order. *)
Variable set_first : list Z -> Z.

(** [super().write(vals)]: assignment, the constraint, the base model's
    recomputation of status records. *)
Definition super_write (d : db) (self : list Z) (vals : list (field * value)) : result db :=
  m ← assign (tickets d) self vals;
  let d1 := with_tickets d m in
  if constrained vals && negb (_check_assignee_is_team_member d1 self)
  then Raise ValidationError
  else Ok (if touches_trigger base_triggers vals
           then with_statuses d1 (sla_apply d1 self) else d1).

(** The part of [write] before [super().write(vals)]: [vals] as the
    override leaves it. *)
Definition write_prepare (d : db) (self : list Z) (vals : list (field * value))
  : result (list (field * value)) :=
  match vals_get vals F_category_id with
  | None => Ok vals
  | Some v =>
      if negb (value_truthy v) then Ok vals
      else
        cid ← id_of v;
        match categories d !! cid with
        | None => Raise MissingError
        | Some c =>
            vals1 ← match cat_team_id c with
                    | Some tm => Ok (vals_set vals F_team_id (V_int tm))
                    | None =>
                        if vals_has vals F_team_id then Ok vals
                        else
                          found ← nearest_team_above (S (size (categories d)))
                                    (categories d) (cat_parent_id c);
                          Ok (match found with
                              | Some tm => vals_set vals F_team_id (V_int tm)
                              | None => vals
                              end)
                    end;
            target ← (if vals_truthy vals1 F_team_id
                      then tm ← id_of (default V_false (vals_get vals1 F_team_id)); Ok (Some tm)
                      else Ok (cat_team_id c));
            match target with
            | None => Ok vals1
            | Some tm =>
                match team_record d tm with
                | None => Raise MissingError
                | Some r =>
                    if negb (String.eqb (assign_method r) "category") then Ok vals1
                    else if vals_has vals1 F_user_id then Ok vals1
                    else match self with
                         | [tid] =>
                             match tickets d !! tid with
                             | None => Raise MissingError
                             | Some t =>
                                 match user_id t with
                                 | Some _ => Ok vals1
                                 | None => Ok (vals_set vals1 F_user_id (category_assignee c r))
                                 end
                             end
                         | _ => Ok vals1
                         end
                end
            end
        end
  end.

(** The loop that keeps the first policy of a ticket holding several; an
    exception ends it silently. *)
Fixpoint compress_slas (d : db) (self : list Z) : db :=
  match self with
  | [] => d
  | tid :: rest =>
      match tickets d !! tid with
      | None => d
      | Some t =>
          match sla_ids t with
          | target :: _ :: _ =>
              match super_write d [tid]
                      [(F_sla_ids, V_commands [Tuple [I_int 6; I_int 0; I_ids [target]]])] with
              | Ok d' => compress_slas d' rest
              | _ => d
              end
          | _ => compress_slas d rest
          end
      end
  end.

(** [write(vals)] *)
Definition write (d : db) (self : list Z) (vals : list (field * value)) : result db :=
  vals' ← write_prepare d self vals;
  d1 ← super_write d self vals';
  Ok (_cleanup_obsolete_sla_statuses_after_change base_triggers extra_domain
        (compress_slas d1 self) self vals').

(** [Team.search([('company_id', '=', company_id)], limit=1)] *)
Definition default_team (d : db) (company : Z) : option Z :=
  fst <$> head (filter (fun kr => team_company_id kr.2 = company) (teams d)).

(** "Ensure at most one SLA is set": the commands under [sla_ids] replaced
    by one that sets a single id; [vals] is left alone when the set is
    empty or an exception was raised. *)
Definition create_limit_sla (vals : list (field * value)) : list (field * value) :=
  match vals_get vals F_sla_ids with
  | Some (V_commands cmds) =>
      match normalize_commands [] cmds with
      | Some ((_ :: _) as ids) =>
          vals_set vals F_sla_ids (V_commands [Tuple [I_int 6; I_int 0; I_ids [set_first ids]]])
      | _ => vals
      end
  | _ => vals
  end.

(** The body of the loop of [create] for one [vals]. *)
Definition create_prepare (d : db) (vals : list (field * value))
  : result (list (field * value)) :=
  vals2 ←
    (if negb (vals_truthy vals F_category_id) then Ok vals
     else
       cid ← id_of (default V_false (vals_get vals F_category_id));
       match categories d !! cid with
       | None => Raise MissingError
       | Some c =>
           vals1 ← match cat_team_id c with
                   | Some tm => Ok (vals_set vals F_team_id (V_int tm))
                   | None =>
                       if vals_truthy vals F_team_id then Ok vals
                       else
                         found ← nearest_team_above (S (size (categories d)))
                                   (categories d) (cat_parent_id c);
                         match found with
                         | Some tm => Ok (vals_set vals F_team_id (V_int tm))
                         | None =>
                             company ← (if vals_truthy vals F_company_id
                                        then id_of (default V_false (vals_get vals F_company_id))
                                        else Ok env_company);
                             Ok (match default_team d company with
                                 | Some tm => vals_set vals F_team_id (V_int tm)
                                 | None => vals
                                 end)
                         end
                   end;
           target ← match cat_team_id c with
                    | Some tm => Ok (Some tm)
                    | None =>
                        if vals_truthy vals1 F_team_id
                        then tm ← id_of (default V_false (vals_get vals1 F_team_id)); Ok (Some tm)
                        else Ok None
                    end;
           match target with
           | None => Ok vals1
           | Some tm =>
               match team_record d tm with
               | None => Raise MissingError
               | Some r =>
                   if negb (String.eqb (assign_method r) "category") then Ok vals1
                   else if vals_truthy vals1 F_user_id then Ok vals1
                   else Ok (vals_set vals1 F_user_id (category_assignee c r))
               end
           end
       end);
  Ok (create_limit_sla vals2).

(** [super().create] of one record: defaults for the missing keys, the
    constraint on the keys present, the base model's status records. *)
Definition super_create (d : db) (vals : list (field * value)) : result (db * Z) :=
  let vals' := vals ++ filter (fun kv => vals_has vals kv.1 = false) defaults in
  match set_fields blank_ticket vals' with
  | None => Raise BadValue
  | Some t =>
      let tid := fresh_id (tickets d) in
      let d1 := with_tickets d (<[tid := t]> (tickets d)) in
      if constrained vals' && negb (assignee_ok d1 t) then Raise ValidationError
      else Ok (with_statuses d1 (sla_apply d1 [tid]), tid)
  end.

Fixpoint prepare_all (d : db) (vals_list : list (list (field * value)))
  : result (list (list (field * value))) :=
  match vals_list with
  | [] => Ok []
  | vals :: rest =>
      v ← create_prepare d vals;
      vs ← prepare_all d rest;
      Ok (v :: vs)
  end.

Fixpoint create_all (d : db) (vals_list : list (list (field * value)))
  : result (db * list Z) :=
  match vals_list with
  | [] => Ok (d, [])
  | vals :: rest =>
      '(d1, tid) ← super_create d vals;
      '(d2, tids) ← create_all d1 rest;
      Ok (d2, tid :: tids)
  end.

(** [create(vals_list)] *)
Definition create (d : db) (vals_list : list (list (field * value)))
  : result (db * list Z) :=
  new_vals_list ← prepare_all d vals_list;
  create_all d new_vals_list.

End Mutations.

(** *** Sample data *)

(** The triggers of the base model and a base model without partner
    restrictions or status recomputation, for the examples. *)
Definition base_triggers0 : list field := [F_team_id; F_priority; F_tag_ids; F_partner_id].
Definition no_extra : ticket -> Z -> sla -> bool := fun _ _ _ => true.
Definition keep_statuses : db -> list Z -> gmap Z sla_status := fun d _ => sla_statuses d.

(** Categories 1 (A), 2 (B, under A), 3 (C, under B) and 4 (D, apart). *)
Definition sample_categories : gmap Z category :=
  list_to_map
    [(1, {| cat_team_id := None; cat_parent_id := None; cat_user_id := None |});
     (2, {| cat_team_id := None; cat_parent_id := Some 1; cat_user_id := None |});
     (3, {| cat_team_id := None; cat_parent_id := Some 2; cat_user_id := None |});
     (4, {| cat_team_id := None; cat_parent_id := None; cat_user_id := None |})].

Definition support_team : team :=
  {| assign_method := "manual"; member_ids := [7; 8]; use_sla := true; team_company_id := 1 |}.

Definition policy (cats : list Z) : sla :=
  {| sla_team_id := None; priority_all := true; sla_priority := "0";
     sla_stage_sequence := 10; category_ids := cats; sla_tag_ids := [] |}.

Definition sample_ticket (explicit : list Z) (opt_out : bool) : ticket :=
  {| name := "printer"; category_id := Some 3; team_id := Some 1; user_id := Some 7;
     priority := "1"; stage_id := None; tag_ids := []; partner_id := None;
     company_id := Some 1; sla_ids := explicit; sla_recompute_bump := 0;
     sla_opt_out := opt_out |}.

(** Policies 20 (scoped to B), 21 (no category) and 22 (scoped to D); one
    ticket, number 1; status records 100 (policy 20, reached) and 101
    (policy 22, reached). *)
Definition sample_db (explicit : list Z) (opt_out : bool) : db :=
  {| categories := sample_categories;
     teams := [(1, support_team)];
     stages := ∅;
     slas := list_to_map [(20, policy [2]); (21, policy []); (22, policy [4])];
     tickets := {[ 1 := sample_ticket explicit opt_out ]};
     sla_statuses :=
       list_to_map
         [(100, {| status_ticket_id := 1; status_sla_id := 20; reached := true |});
          (101, {| status_ticket_id := 1; status_sla_id := 22; reached := true |})] |}.

Example sample_ancestors : parent_of (sample_db [] false) 3 = [3; 2; 1].
Proof. vm_compute. reflexivity. Qed.

Example sample_matching :
  Permutation (allowed base_triggers0 no_extra (sample_db [] false) [1] 1) [20; 21].
Proof.
  assert (H : allowed base_triggers0 no_extra (sample_db [] false) [1] 1 = [21; 20]
              \/ allowed base_triggers0 no_extra (sample_db [] false) [1] 1 = [20; 21]).
  { vm_compute. auto. }
  destruct H as [-> | ->]; [apply perm_swap | reflexivity].
Qed.

(** *** Properties of the matching and of the clean-up *)

Section SlaProperties.

Variable base : list field.
Variable extra : ticket -> Z -> sla -> bool.

(** A ticket that [_sla_find] does not pass over. *)
Definition eligible (d : db) (tid : Z) : Prop :=
  exists t, tickets d !! tid = Some t /\ sla_opt_out t = false /\ ticket_uses_sla d t = true.

Definition eligible_groups (d : db) (groups : list group) : Prop :=
  Forall (fun g => Forall (eligible d) (g_tickets g)) groups.

Lemma add_ticket_eligible d key tid t groups :
  eligible d tid -> eligible_groups d groups ->
  eligible_groups d (add_ticket key tid t groups).
Proof.
  intros He. unfold eligible_groups.
  induction groups as [|g rest IH]; cbn [add_ticket]; intros Hg.
  - repeat constructor. exact He.
  - apply Forall_cons in Hg as [Hg Hrest].
    destruct (key_eqb (g_key g) key).
    + constructor; [|exact Hrest]. cbn [g_tickets].
      case_bool_decide; [exact Hg|]. apply Forall_app. split; [exact Hg|].
      repeat constructor. exact He.
    + constructor; [exact Hg | exact (IH Hrest)].
Qed.

Lemma group_step_eligible d groups tid :
  eligible_groups d groups -> eligible_groups d (group_step base d groups tid).
Proof.
  intros Hg. unfold group_step.
  destruct (tickets d !! tid) as [t|] eqn:Et; [|exact Hg].
  destruct (sla_opt_out t) eqn:Eo; [exact Hg|].
  destruct (ticket_uses_sla d t) eqn:Eu; cbn [negb]; [|exact Hg].
  apply add_ticket_eligible; [|exact Hg]. exists t. auto.
Qed.

Lemma sla_groups_eligible d self : eligible_groups d (sla_groups base d self).
Proof.
  unfold sla_groups.
  assert (H : forall groups, eligible_groups d groups ->
                             eligible_groups d (foldl (group_step base d) groups self)).
  { induction self as [|tid rest IH]; intros groups Hg; cbn [foldl]; [exact Hg|].
    apply IH, group_step_eligible, Hg. }
  apply H. constructor.
Qed.

(** An opted-out ticket belongs to no group of [_sla_find]. *)
Lemma opted_out_unmatched d self tid t :
  tickets d !! tid = Some t -> sla_opt_out t = true ->
  forall grp, grp ∈ _sla_find base extra d self -> tid ∉ grp.1.
Proof.
  intros Ht Ho grp Hin Hmem. unfold _sla_find in Hin.
  apply list_elem_of_fmap in Hin as (g & -> & Hg). cbn [fst] in Hmem.
  pose proof (sla_groups_eligible d self) as Hall.
  unfold eligible_groups in Hall. rewrite Forall_forall in Hall.
  specialize (Hall g Hg). rewrite Forall_forall in Hall.
  destruct (Hall tid Hmem) as (t' & Ht' & Ho' & _). congruence.
Qed.

Lemma allowed_get_unmatched sla_map tid :
  (forall grp, grp ∈ sla_map -> tid ∉ grp.1) -> allowed_get sla_map tid = None.
Proof.
  induction sla_map as [|[tids ids] rest IH]; intros H; cbn [allowed_get]; [reflexivity|].
  rewrite IH.
  - case_bool_decide as Hm; [|reflexivity].
    exfalso. apply (H (tids, ids)); [apply elem_of_cons; left; reflexivity | exact Hm].
  - intros grp Hin. apply H. apply elem_of_cons. right. exact Hin.
Qed.

Lemma opted_out_allowed d self tid t :
  tickets d !! tid = Some t -> sla_opt_out t = true ->
  allowed base extra d self tid = [].
Proof.
  intros Ht Ho. unfold allowed.
  rewrite allowed_get_unmatched; [reflexivity|].
  exact (opted_out_unmatched d self tid t Ht Ho).
Qed.

(** A status record is marked for deletion exactly when its ticket is
    written and its policy is not among those matched for the ticket. *)
Lemma to_unlink_spec d self st :
  to_unlink base extra d self st = true <->
  status_ticket_id st ∈ self /\ is_Some (tickets d !! status_ticket_id st) /\
  status_sla_id st ∉ allowed base extra d self (status_ticket_id st).
Proof.
  unfold to_unlink. rewrite !andb_true_iff, !bool_decide_eq_true.
  destruct (allowed base extra d self (status_ticket_id st)) as [|a l]; cbn [is_nil].
  - split; [intros [[? ?] _]; repeat split; auto using not_elem_of_nil | intros (? & ? & _); auto].
  - rewrite negb_true_iff, bool_decide_eq_false. tauto.
Qed.

Lemma cleanup_statuses d self vals sid st :
  touches_trigger base vals = true ->
  (sla_statuses (_cleanup_obsolete_sla_statuses_after_change base extra d self vals) !! sid
     = Some st <->
   sla_statuses d !! sid = Some st /\ to_unlink base extra d self st = false).
Proof.
  intros Ht. unfold _cleanup_obsolete_sla_statuses_after_change. rewrite Ht.
  cbn [with_statuses sla_statuses]. rewrite map_lookup_filter_Some. reflexivity.
Qed.

Lemma cleanup_untouched d self vals :
  touches_trigger base vals = false ->
  _cleanup_obsolete_sla_statuses_after_change base extra d self vals = d.
Proof.
  intros Ht. unfold _cleanup_obsolete_sla_statuses_after_change. now rewrite Ht.
Qed.

Lemma cleanup_tickets d self vals :
  tickets (_cleanup_obsolete_sla_statuses_after_change base extra d self vals) = tickets d.
Proof.
  unfold _cleanup_obsolete_sla_statuses_after_change.
  destruct (touches_trigger base vals); reflexivity.
Qed.

(** Assignment to a key keeps the keys there were. *)
Lemma vals_set_keys vals f v k : k ∈ vals.*1 -> k ∈ (vals_set vals f v).*1.
Proof.
  unfold vals_set. destruct (vals_has vals f).
  - intros Hk. apply list_elem_of_fmap in Hk as ([k' v'] & -> & Hin).
    apply list_elem_of_fmap. cbn [fst].
    destruct (decide (k' = f)) as [->|Hne].
    + exists (f, v). split; [reflexivity|].
      apply list_elem_of_fmap. exists (f, v'). cbn [fst].
      rewrite bool_decide_eq_true_2 by reflexivity. auto.
    + exists (k', v'). split; [reflexivity|].
      apply list_elem_of_fmap. exists (k', v'). cbn [fst].
      rewrite bool_decide_eq_false_2 by exact Hne. auto.
  - intros Hk. rewrite fmap_app. apply elem_of_app. left. exact Hk.
Qed.

Lemma write_prepare_keys d self vals vals' k :
  write_prepare d self vals = Ok vals' -> k ∈ vals.*1 -> k ∈ vals'.*1.
Proof.
  unfold write_prepare, mbind, result_bind, bind. intros H Hk.
  repeat case_match; simplify_eq; auto using vals_set_keys.
Qed.

Lemma touches_trigger_keys vals vals' :
  (forall k, k ∈ vals.*1 -> k ∈ vals'.*1) ->
  touches_trigger base vals = true -> touches_trigger base vals' = true.
Proof.
  unfold touches_trigger. rewrite !existsb_exists. intros Hk (k & Hin & Hd).
  exists k. split; [|exact Hd]. apply list_elem_of_In, Hk, list_elem_of_In, Hin.
Qed.

End SlaProperties.

(** C1, as the code has it.  A write that touches a trigger field leaves,
    of the status records present once the base write (and the reduction to
    one policy) is done, exactly those that do not belong to a written
    ticket with a policy outside the set matched for that ticket; whether
    a record is reached plays no part. *)
Theorem write_deletes_unmatched_statuses :
  forall (base : list field) (extra : ticket -> Z -> sla -> bool)
         (apply_slas : db -> list Z -> gmap Z sla_status)
         (d : db) (self : list Z) (vals : list (field * value)) (d' : db),
    write base extra apply_slas d self vals = Ok d' ->
    touches_trigger base vals = true ->
    exists vals' d1,
      write_prepare d self vals = Ok vals' /\
      super_write base apply_slas d self vals' = Ok d1 /\
      forall sid st,
        sla_statuses d' !! sid = Some st <->
        sla_statuses (compress_slas base apply_slas d1 self) !! sid = Some st /\
        ~ (status_ticket_id st ∈ self /\
           is_Some (tickets (compress_slas base apply_slas d1 self) !! status_ticket_id st) /\
           status_sla_id st ∉
             allowed base extra (compress_slas base apply_slas d1 self) self
               (status_ticket_id st)).
Proof.
  intros base extra apply_slas d self vals d' Hw Ht. unfold write in Hw.
  unfold mbind, result_bind, bind in Hw.
  destruct (write_prepare d self vals) as [vals'| |] eqn:Ep; try discriminate Hw.
  destruct (super_write base apply_slas d self vals') as [d1| |] eqn:Es; try discriminate Hw.
  injection Hw as <-. exists vals', d1.
  split; [first [exact Ep | reflexivity]|]. split; [first [exact Es | reflexivity]|].
  intros sid st.
  assert (Ht' : touches_trigger base vals' = true).
  { apply (touches_trigger_keys base vals vals'); [|exact Ht].
    intros k. apply (write_prepare_keys d self vals vals' k Ep). }
  rewrite (cleanup_statuses base extra _ self vals' sid st Ht').
  rewrite <- to_unlink_spec.
  destruct (to_unlink base extra (compress_slas base apply_slas d1 self) self st);
    intuition congruence.
Qed.

Lemma write_deletes_unmatched_statuses_witness :
  match write base_triggers0 no_extra keep_statuses (sample_db [] false) [1]
          [(F_sla_recompute_bump, V_int 1)] with
  | Ok d' => touches_trigger base_triggers0 [(F_sla_recompute_bump, V_int 1)] = true /\
             exists vals' d1,
               write_prepare (sample_db [] false) [1] [(F_sla_recompute_bump, V_int 1)]
               = Ok vals' /\
               super_write base_triggers0 keep_statuses (sample_db [] false) [1] vals' = Ok d1
  | _ => False
  end.
Proof.
  destruct (write base_triggers0 no_extra keep_statuses (sample_db [] false) [1]
              [(F_sla_recompute_bump, V_int 1)]) as [d'| |] eqn:E;
    [|vm_compute in E; discriminate E..].
  split; [reflexivity|].
  destruct (write_deletes_unmatched_statuses _ _ _ _ _ _ _ E eq_refl)
    as (vals' & d1 & Hp & Hs & _).
  exists vals', d1. split; assumption.
Defined.

(** C1 as stated fails on a reached record: after a bump of the recompute
    counter, record 101 (policy 22, scoped to the unrelated category, and
    reached) is gone, while record 100 (policy 20, still matched) stays. *)
Lemma reached_status_is_not_preserved :
  match write base_triggers0 no_extra keep_statuses (sample_db [] false) [1]
          [(F_sla_recompute_bump, V_int 1)] with
  | Ok d' =>
      sla_statuses (sample_db [] false) !! 101
      = Some {| status_ticket_id := 1; status_sla_id := 22; reached := true |} /\
      sla_statuses d' !! 101 = None /\
      sla_statuses d' !! 100
      = Some {| status_ticket_id := 1; status_sla_id := 20; reached := true |}
  | _ => False
  end.
Proof. vm_compute. repeat split. Qed.

(** [_sla_find] puts an opted-out ticket in no group, so no policy is
    allowed for it; the clean-up then removes every status record of the
    ticket, and so does a successful write that touches a trigger field and
    ends with the ticket opted out. *)
Lemma opted_out_after_write_keeps_no_status :
  forall (base : list field) (extra : ticket -> Z -> sla -> bool)
         (apply_slas : db -> list Z -> gmap Z sla_status)
         (d : db) (self : list Z) (tid : Z) (t : ticket),
    tickets d !! tid = Some t ->
    sla_opt_out t = true ->
    (forall grp, grp ∈ _sla_find base extra d self -> tid ∉ grp.1) /\
    allowed base extra d self tid = [] /\
    (forall vals sid st,
        tid ∈ self -> touches_trigger base vals = true ->
        sla_statuses (_cleanup_obsolete_sla_statuses_after_change base extra d self vals) !! sid
        = Some st ->
        status_ticket_id st <> tid) /\
    (forall d0 vals sid st,
        write base extra apply_slas d0 self vals = Ok d ->
        tid ∈ self -> touches_trigger base vals = true ->
        sla_statuses d !! sid = Some st ->
        status_ticket_id st <> tid).
Proof.
  intros base extra apply_slas d self tid t Ht Ho.
  assert (Hclean : forall d2 vals sid st,
             tickets d2 !! tid = Some t -> tid ∈ self -> touches_trigger base vals = true ->
             sla_statuses (_cleanup_obsolete_sla_statuses_after_change base extra d2 self vals)
               !! sid = Some st ->
             status_ticket_id st <> tid).
  { intros d2 vals sid st Ht2 Hself Htr Hst Heq.
    apply (cleanup_statuses base extra d2 self vals sid st Htr) in Hst as [_ Hkeep].
    assert (Hun : to_unlink base extra d2 self st = true).
    { apply to_unlink_spec. rewrite Heq. split; [exact Hself|]. split; [eauto|].
      rewrite (opted_out_allowed base extra d2 self tid t Ht2 Ho). apply not_elem_of_nil. }
    congruence. }
  split; [exact (opted_out_unmatched base extra d self tid t Ht Ho)|].
  split; [exact (opted_out_allowed base extra d self tid t Ht Ho)|].
  split; [intros vals sid st; apply Hclean; exact Ht|].
  intros d0 vals sid st Hw Hself Htr Hst.
  unfold write, mbind, result_bind, bind in Hw.
  destruct (write_prepare d0 self vals) as [vals'| |] eqn:Ep; try discriminate Hw.
  destruct (super_write base apply_slas d0 self vals') as [d1| |] eqn:Es; try discriminate Hw.
  injection Hw as Hd.
  assert (Ht' : touches_trigger base vals' = true).
  { apply (touches_trigger_keys base vals vals'); [|exact Htr].
    intros k. apply (write_prepare_keys d0 self vals vals' k Ep). }
  apply (Hclean (compress_slas base apply_slas d1 self) vals' sid st); auto.
  - rewrite <- (cleanup_tickets base extra _ self vals'), Hd. exact Ht.
  - rewrite Hd. exact Hst.
Qed.

Example opted_out_write_clears_statuses :
  match write base_triggers0 no_extra keep_statuses (sample_db [] false) [1]
          [(F_sla_opt_out, V_bool true)] with
  | Ok d' => sla_statuses d' = ∅
  | _ => False
  end.
Proof. vm_compute. reflexivity. Qed.

(** *** Category scoping of the matching domain *)

(** [C] lies under [B], [B] under [A], and [A] is a root. *)
Definition chain (d : db) (C B A : Z) : Prop :=
  (exists c, categories d !! C = Some c /\ cat_parent_id c = Some B) /\
  (exists b, categories d !! B = Some b /\ cat_parent_id b = Some A) /\
  (exists a, categories d !! A = Some a /\ cat_parent_id a = None).

(** The criteria other than the category, as the two domains state them. *)
Definition team_fits (t : ticket) (s : sla) : bool :=
  match sla_team_id s with
  | None => true
  | Some x => match team_id t with Some tm => x =? tm | None => false end
  end.

Definition priority_fits (t : ticket) (s : sla) : bool :=
  priority_all s || String.eqb (sla_priority s) (priority t).

Definition stage_fits_onchange (d : db) (t : ticket) (s : sla) : bool :=
  match stage_id t with
  | Some _ => stage_sequence d t <=? sla_stage_sequence s
  | None => true
  end.

Definition tags_fit_onchange (t : ticket) (s : sla) : bool :=
  match tag_ids t with
  | [] => is_nil (sla_tag_ids s)
  | tags => is_nil (sla_tag_ids s) || overlaps (sla_tag_ids s) tags
  end.

Definition tags_fit_find (t : ticket) (s : sla) : bool :=
  is_nil (sla_tag_ids s) || overlaps (tag_ids t ++ []) (sla_tag_ids s).





Lemma overlaps_spec a b : overlaps a b = true <-> exists x, x ∈ a /\ x ∈ b.
Proof.
  unfold overlaps. rewrite existsb_exists. split.
  - intros (x & Hin & Hd). exists x. split; [apply list_elem_of_In, Hin|].
    apply bool_decide_eq_true in Hd. exact Hd.
  - intros (x & Ha & Hb). exists x. split; [apply list_elem_of_In, Ha|].
    apply bool_decide_eq_true. exact Hb.
Qed.




Section FindOne.

Variable base : list field.
Variable extra : ticket -> Z -> sla -> bool.

Lemma search_slas_elem d p id :
  id ∈ search_slas d p <-> exists s, slas d !! id = Some s /\ p id s = true.
Proof.
  unfold search_slas. rewrite list_elem_of_fmap. split.
  - intros ([k s] & -> & Hin). apply elem_of_map_to_list in Hin.
    apply map_lookup_filter_Some in Hin as [Hl Hp]. exists s. auto.
  - intros (s & Hl & Hp). exists (id, s). split; [reflexivity|].
    apply elem_of_map_to_list, map_lookup_filter_Some. auto.
Qed.

(** [_sla_find] on a single eligible ticket: one group, holding it. *)
Lemma allowed_single d tid t :
  tickets d !! tid = Some t -> sla_opt_out t = false -> ticket_uses_sla d t = true ->
  allowed base extra d [tid] tid
  = search_slas d (group_matches extra d
      {| g_key := _generate_key base t; g_tickets := [tid]; g_first := t |}).
Proof.
  intros Ht Ho Hu. unfold allowed, _sla_find, sla_groups.
  cbn [foldl]. unfold group_step. rewrite Ht, Ho, Hu. cbn [negb add_ticket fmap list_fmap].
  cbn [allowed_get g_tickets]. rewrite bool_decide_eq_true_2; [reflexivity|].
  apply list_elem_of_singleton. reflexivity.
Qed.

End FindOne.


Lemma sample_chain (explicit : list Z) (opt_out : bool) :
  chain (sample_db explicit opt_out) 3 2 1.
Proof.
  repeat split; eexists; (split; [vm_compute; reflexivity | reflexivity]).
Qed.

(** Two gates of the code stand before the category: with policy 22
    (scoped to the unrelated category) attached by hand, [_sla_find]
    matches it, the category notwithstanding; and for an opted-out ticket
    the form's domain rejects policy 20, scoped to the parent category. *)
Example attached_policy_bypasses_category :
  category_ids (policy [4]) = [4] /\
  slas (sample_db [22] false) !! 22 = Some (policy [4]) /\
  allowed base_triggers0 no_extra (sample_db [22] false) [1] 1 = [22] /\
  eval_domain (_onchange_sla_ids_domain (sample_db [] true) (sample_ticket [] true))
    20 (policy [2]) = false.
Proof. repeat split; vm_compute; reflexivity. Qed.

(** *** One policy per ticket *)

(** The iteration order of a set of integers in CPython (Objects/setobject.c),
    for a set filled by additions alone, as [set(cmd[2])] and [ids.add] do:
    an open-addressing table of [mask + 1] slots, eight at first.  The hash
    of an integer is the integer itself, reduced modulo [2^61 - 1] with its
    sign, [-2] in place of [-1]; a key goes to slot [hash & mask], and on
    a collision the search looks at the next nine slots when they lie
    inside the table, then moves to [(i * 5 + 1 + perturb) & mask] with
    [perturb] shifted right by five bits at each round.  When five times
    the number of filled slots reaches three times the mask, the table is
    rebuilt with the least power of two of slots, at least eight, above
    four times the number of elements.  Iteration visits the slots in
    ascending order.  (A discarded element would leave a dummy entry in its
    slot; the list of the surviving elements does not show it.) *)
Definition py_hash (n : Z) : Z :=
  let h := Z.sgn n * (Z.abs n mod (2 ^ 61 - 1)) in
  if h =? -1 then -2 else h.

(** The hash as the unsigned machine word the table arithmetic uses. *)
Definition size_t (h : Z) : Z := h mod 2 ^ 64.

Definition LINEAR_PROBES : Z := 9.
Definition PERTURB_SHIFT : Z := 5.
Definition PySet_MINSIZE : Z := 8.

Record PySetObject := {
  so_table : list (option Z);
  so_mask : Z;
  so_fill : Z;
  so_used : Z
}.

Inductive set_slot := found_active | found_unused (i : Z).

(** The inner [do ... while (probes--)] of the search: the entries [i],
    [i + 1], ..., [i + probes]; [None] when none of them ends the search. *)
Fixpoint set_scan (table : list (option Z)) (same : Z -> bool) (i : Z) (probes : nat)
  : option set_slot :=
  match table !! Z.to_nat i with
  | Some None => Some (found_unused i)
  | Some (Some k) =>
      if same k then Some found_active
      else match probes with
           | O => None
           | S p => set_scan table same (i + 1) p
           end
  | None => None
  end.

(** The outer [while (1)] of the search; the sum [i * 5 + 1 + perturb] is
    taken without the wrap-around of the machine word, which [& mask]
    cannot see.  [None] when the fuel is spent. *)
Fixpoint set_probe (fuel : nat) (table : list (option Z)) (mask : Z) (same : Z -> bool)
    (i perturb : Z) : option set_slot :=
  match fuel with
  | O => None
  | S fuel' =>
      match set_scan table same i
              (if i + LINEAR_PROBES <=? mask then Z.to_nat LINEAR_PROBES else O) with
      | Some r => Some r
      | None =>
          let perturb' := Z.shiftr perturb PERTURB_SHIFT in
          set_probe fuel' table mask same (Z.land (i * 5 + 1 + perturb') mask) perturb'
      end
  end.

(** Rounds enough for [perturb] to reach zero and for the walk
    [i * 5 + 1] to visit every slot after that. *)
Definition probe_fuel (mask : Z) : nat := Z.to_nat (mask + 16).

(** [set_insert_clean]: a key known to be absent goes to the first unused
    slot of its probe sequence. *)
Definition set_insert_clean (table : list (option Z)) (mask : Z) (key : Z)
  : list (option Z) :=
  let h := size_t (py_hash key) in
  match set_probe (probe_fuel mask) table mask (fun _ => false) (Z.land h mask) h with
  | Some (found_unused i) => <[Z.to_nat i := Some key]> table
  | _ => table
  end.

(** [while (newsize <= minused) newsize <<= 1] *)
Fixpoint grow_size (fuel : nat) (newsize minused : Z) : Z :=
  match fuel with
  | O => newsize
  | S fuel' => if newsize <=? minused then grow_size fuel' (newsize * 2) minused else newsize
  end.

(** [set_table_resize]: the active entries move to a fresh table in the
    order of their old slots. *)
Definition set_table_resize (so : PySetObject) (minused : Z) : PySetObject :=
  let newsize := grow_size 64 PySet_MINSIZE minused in
  let mask := newsize - 1 in
  {| so_table := fold_left (fun t k => set_insert_clean t mask k)
                   (omap id (so_table so)) (replicate (Z.to_nat newsize) None);
     so_mask := mask;
     so_fill := so_used so;
     so_used := so_used so |}.

(** [set_add_key] *)
Definition set_add (so : PySetObject) (key : Z) : PySetObject :=
  let h := size_t (py_hash key) in
  match set_probe (probe_fuel (so_mask so)) (so_table so) (so_mask so) (Z.eqb key)
          (Z.land h (so_mask so)) h with
  | Some (found_unused i) =>
      let so' := {| so_table := <[Z.to_nat i := Some key]> (so_table so);
                    so_mask := so_mask so;
                    so_fill := so_fill so + 1;
                    so_used := so_used so + 1 |} in
      if so_fill so' * 5 <? so_mask so' * 3 then so'
      else set_table_resize so' (if 50000 <? so_used so' then so_used so' * 2
                                 else so_used so' * 4)
  | _ => so
  end.

Definition empty_set : PySetObject :=
  {| so_table := replicate (Z.to_nat PySet_MINSIZE) None;
     so_mask := PySet_MINSIZE - 1;
     so_fill := 0;
     so_used := 0 |}.

(** [set(ids)], the elements added in the order of the list. *)
Definition py_set (ids : list Z) : PySetObject := fold_left set_add ids empty_set.

(** [list(so)]: the active entries in the order of their slots. *)
Definition set_iter (so : PySetObject) : list Z := omap id (so_table so).

(** [next(iter(ids))]; 0 stands for the exception on an empty set, which
    [create] never meets, as it tests [if ids] first. *)
Definition cpython_set_first (ids : list Z) : Z := default 0 (head (set_iter (py_set ids))).

(** Two ids that collide in the table of eight slots: 15 meets 7 in slot 7
    and moves on to slot 4, so that iteration starts with 15; the fifth
    element makes the table grow to 32 slots. *)
Example set_iteration_after_collision :
  set_iter (py_set [7; 15]) = [15; 7] /\
  set_iter (py_set [15; 7]) = [7; 15] /\
  set_iter (py_set [22; 20]) = [20; 22] /\
  set_iter (py_set [8; 16; 24; 0]) = [8; 16; 24; 0] /\
  set_iter (py_set [40; 33; 9; 1; 17]) = [33; 1; 40; 9; 17] /\
  so_mask (py_set [40; 33; 9; 1; 17]) = 31 /\
  set_iter (py_set [-1; -2; 3]) = [3; -1; -2] /\
  set_iter (py_set [5; 13; 21; 29; 37; 45]) = [37; 5; 13; 45; 21; 29] /\
  set_iter (py_set [31; 63; 95; 127; 159; 191]) = [191; 31; 127; 63; 95; 159] /\
  set_iter (py_set [64; 32; 0; 96; 128; 160; 192; 224; 256])
  = [64; 0; 32; 96; 128; 160; 192; 224; 256] /\
  set_iter (py_set [2305843009213693951; 2305843009213693952; 1; 0])
  = [2305843009213693951; 2305843009213693952; 1; 0].
Proof. repeat split; vm_compute; reflexivity. Qed.

Definition set_command (ids : list Z) : value :=
  V_commands [Tuple [I_int 6; I_int 0; I_ids ids]].

(** A set command over a non-empty list leaves [create] with one id: the
    one the set's iteration yields first. *)
Lemma create_limit_sla_set set_first ids :
  ids <> [] ->
  create_limit_sla set_first [(F_sla_ids, set_command ids)]
  = [(F_sla_ids, set_command [set_first (dedupe ids)])].
Proof.
  intros Hne. unfold create_limit_sla, set_command.
  cbn [vals_get bool_decide decide_rel normalize_commands op_of].
  rewrite bool_decide_eq_true_2 by reflexivity. cbn [normalize_commands op_of].
  destruct (dedupe ids) as [|x r] eqn:E.
  - exfalso. destruct ids as [|i rest]; [congruence|].
    assert (Hin : i ∈ dedupe (i :: rest)) by (apply dedupe_elem, elem_of_cons; auto).
    rewrite E in Hin. inversion Hin.
  - unfold vals_set, vals_has. cbn [vals_get].
    rewrite bool_decide_eq_true_2 by reflexivity. cbn [map fst].
    rewrite bool_decide_eq_true_2 by reflexivity. reflexivity.
Qed.

(** An iteration order that depends on the elements alone cannot return
    the first-listed id for both listings of a pair. *)
Lemma no_set_order_keeps_first_listed (set_first : list Z -> Z) (a b : Z) :
  (forall l l', l ≡ₚ l' -> set_first l = set_first l') ->
  a <> b ->
  ~ (create_limit_sla set_first [(F_sla_ids, set_command [a; b])]
     = [(F_sla_ids, set_command [a])] /\
     create_limit_sla set_first [(F_sla_ids, set_command [b; a])]
     = [(F_sla_ids, set_command [b])]).
Proof.
  intros Hperm Hab [H1 H2].
  rewrite create_limit_sla_set in H1 by discriminate.
  rewrite create_limit_sla_set in H2 by discriminate.
  assert (Hd1 : dedupe [a; b] = [a; b]).
  { unfold dedupe. cbn [dedupe_go].
    rewrite bool_decide_eq_false_2 by apply not_elem_of_nil.
    rewrite bool_decide_eq_false_2; [reflexivity|].
    intros Hin. apply list_elem_of_singleton in Hin. congruence. }
  assert (Hd2 : dedupe [b; a] = [b; a]).
  { unfold dedupe. cbn [dedupe_go].
    rewrite bool_decide_eq_false_2 by apply not_elem_of_nil.
    rewrite bool_decide_eq_false_2; [reflexivity|].
    intros Hin. apply list_elem_of_singleton in Hin. congruence. }
  rewrite Hd1 in H1. rewrite Hd2 in H2.
  rewrite (Hperm [b; a] [a; b]) in H2 by apply perm_swap.
  unfold set_command in *. congruence.
Qed.

(** C2.  [create] with a set command listing policies 22 and 20 stores
    policy 20: the ids pass through a Python set, whose iteration starts at
    20, not at the first-listed 22.  ([write] on the same command keeps 22,
    see [write_keeps_first_listed].) *)
Theorem create_keeps_set_order_not_listing_order :
  create_limit_sla cpython_set_first [(F_sla_ids, set_command [22; 20])]
  = [(F_sla_ids, set_command [20])] /\
  match create keep_statuses 1 [] cpython_set_first (sample_db [] false)
          [[(F_name, V_str "scanner"); (F_sla_ids, set_command [22; 20])]] with
  | Ok (d', [tid]) => sla_ids <$> tickets d' !! tid = Some [20]
  | _ => False
  end.
Proof. split; vm_compute; reflexivity. Qed.

Example write_keeps_first_listed :
  match write base_triggers0 no_extra keep_statuses (sample_db [] false) [1]
          [(F_sla_ids, set_command [22; 20])] with
  | Ok d' => sla_ids <$> tickets d' !! 1 = Some [22]
  | _ => False
  end.
Proof. vm_compute. reflexivity. Qed.

(** *** The assignee belongs to the team *)

Definition membership_invariant (d : db) : Prop :=
  forall tid t, tickets d !! tid = Some t -> assignee_ok d t = true.

Lemma assignee_ok_same d d' t t' :
  teams d' = teams d -> team_id t' = team_id t -> user_id t' = user_id t ->
  assignee_ok d' t' = assignee_ok d t.
Proof.
  intros Ht Hm Hu. unfold assignee_ok, team_members, team_record. now rewrite Ht, Hm, Hu.
Qed.

Lemma set_field_keeps t f v t' :
  set_field t f v = Some t' -> f <> F_team_id -> f <> F_user_id ->
  team_id t' = team_id t /\ user_id t' = user_id t.
Proof.
  destruct t. intros H Hn1 Hn2.
  destruct f; try congruence; destruct v; cbn in H;
    repeat case_match; simplify_eq; cbn; auto;
    destruct (many2many_of _ cmds); cbn in H; simplify_eq; cbn; auto.
Qed.

Lemma constrained_cons f v vals :
  constrained ((f, v) :: vals) = false ->
  f <> F_team_id /\ f <> F_user_id /\ constrained vals = false.
Proof.
  unfold constrained, vals_has. cbn [vals_get]. intros H.
  apply orb_false_iff in H as [H1 H2].
  destruct (decide (f = F_team_id)) as [->|N1];
    [rewrite bool_decide_eq_true_2 in H1 by reflexivity; discriminate|].
  destruct (decide (f = F_user_id)) as [->|N2];
    [rewrite bool_decide_eq_true_2 in H2 by reflexivity; discriminate|].
  rewrite bool_decide_eq_false_2 in H1 by exact N1.
  rewrite bool_decide_eq_false_2 in H2 by exact N2.
  rewrite H1, H2. auto.
Qed.

Lemma set_fields_keeps vals : forall t t',
  set_fields t vals = Some t' -> constrained vals = false ->
  team_id t' = team_id t /\ user_id t' = user_id t.
Proof.
  induction vals as [|[f v] rest IH]; intros t t' H Hc; cbn [set_fields] in H.
  - injection H as <-. auto.
  - apply constrained_cons in Hc as (N1 & N2 & Hc).
    destruct (set_field t f v) as [t1|] eqn:E; cbn in H; [|discriminate H].
    destruct (set_field_keeps t f v t1 E N1 N2) as [E1 E2].
    destruct (IH t1 t' H Hc) as [E3 E4]. split; congruence.
Qed.

Lemma assign_other vals self : forall m m' tid,
  assign m self vals = Ok m' -> tid ∉ self -> m' !! tid = m !! tid.
Proof.
  induction self as [|x rest IH]; intros m m' tid H Hn; cbn [assign] in H.
  - now injection H as <-.
  - apply not_elem_of_cons in Hn as [Hx Hrest].
    destruct (m !! x) as [t|]; [|discriminate H].
    destruct (set_fields t vals) as [t1|]; [|discriminate H].
    rewrite (IH _ _ _ H Hrest). apply lookup_insert_ne. congruence.
Qed.

Lemma assign_preserves (Q : ticket -> Prop) vals self :
  (forall t t', set_fields t vals = Some t' -> Q t -> Q t') ->
  forall m m', assign m self vals = Ok m' ->
  (forall tid t, m !! tid = Some t -> Q t) ->
  forall tid t, m' !! tid = Some t -> Q t.
Proof.
  intros Hstep. induction self as [|x rest IH]; intros m m' H Hm; cbn [assign] in H.
  - now injection H as <-.
  - destruct (m !! x) as [t0|] eqn:E0; [|discriminate H].
    destruct (set_fields t0 vals) as [t1|] eqn:E1; [|discriminate H].
    apply (IH _ _ H). intros tid t Hl.
    destruct (decide (x = tid)) as [->|Hne].
    + rewrite lookup_insert_eq in Hl. injection Hl as <-. eauto.
    + rewrite lookup_insert_ne in Hl by exact Hne. eauto.
Qed.

Section Invariance.

Variable base : list field.
Variable extra : ticket -> Z -> sla -> bool.
Variable apply_slas : db -> list Z -> gmap Z sla_status.
Variable company : Z.
Variable defaults : list (field * value).
Variable set_first : list Z -> Z.

Lemma super_write_invariant d self vals d' :
  membership_invariant d ->
  super_write base apply_slas d self vals = Ok d' ->
  membership_invariant d' /\ teams d' = teams d.
Proof.
  intros Hinv H. unfold super_write, mbind, result_bind, bind in H.
  destruct (assign (tickets d) self vals) as [m| |] eqn:Ea; try discriminate H.
  assert (Hd' : tickets d' = m /\ teams d' = teams d).
  { destruct (constrained vals && negb _); [discriminate H|]. injection H as <-.
    destruct (touches_trigger base vals); auto. }
  destruct Hd' as [Htk Htm]. split; [|exact Htm].
  intros tid t Hl. rewrite Htk in Hl.
  destruct (constrained vals) eqn:Ec.
  - destruct (_check_assignee_is_team_member (with_tickets d m) self) eqn:Ek;
      [|discriminate H].
    destruct (decide (tid ∈ self)) as [Hin|Hout].
    + unfold _check_assignee_is_team_member in Ek. rewrite forallb_forall in Ek.
      specialize (Ek tid (proj1 (list_elem_of_In _ _) Hin)).
      cbn [with_tickets tickets] in Ek. rewrite Hl in Ek.
      rewrite <- Ek. apply assignee_ok_same; auto.
    + rewrite (assign_other vals self _ _ tid Ea Hout) in Hl.
      rewrite <- (Hinv tid t Hl). apply assignee_ok_same; auto.
  - rewrite (assignee_ok_same d d' t t Htm eq_refl eq_refl).
    apply (assign_preserves (fun t => assignee_ok d t = true) vals self) with (tickets d) m tid;
      auto.
    intros t0 t1 Hs Hok. destruct (set_fields_keeps vals t0 t1 Hs Ec) as [Hm Hu].
    rewrite <- Hok. apply assignee_ok_same; auto.
Qed.

Lemma compress_slas_invariant self : forall d,
  membership_invariant d ->
  membership_invariant (compress_slas base apply_slas d self)
  /\ teams (compress_slas base apply_slas d self) = teams d.
Proof.
  induction self as [|tid rest IH]; intros d Hinv; cbn [compress_slas]; [auto|].
  destruct (tickets d !! tid) as [t|]; [|auto].
  destruct (sla_ids t) as [|target [|second more]]; [apply IH, Hinv | apply IH, Hinv |].
  destruct (super_write base apply_slas d [tid] _) as [d1| |] eqn:E; [|auto..].
  destruct (super_write_invariant _ _ _ _ Hinv E) as [Hinv1 Ht1].
  destruct (IH d1 Hinv1) as [Hinv2 Ht2]. split; [exact Hinv2 | congruence].
Qed.

Lemma cleanup_invariant d self vals :
  membership_invariant d ->
  membership_invariant (_cleanup_obsolete_sla_statuses_after_change base extra d self vals).
Proof.
  intros Hinv tid t Hl. rewrite cleanup_tickets in Hl.
  rewrite <- (Hinv tid t Hl). apply assignee_ok_same; auto.
  unfold _cleanup_obsolete_sla_statuses_after_change.
  destruct (touches_trigger base vals); reflexivity.
Qed.

Lemma write_invariant d self vals d' :
  membership_invariant d ->
  write base extra apply_slas d self vals = Ok d' ->
  membership_invariant d'.
Proof.
  intros Hinv H. unfold write, mbind, result_bind, bind in H.
  destruct (write_prepare d self vals) as [vals'| |]; try discriminate H.
  destruct (super_write base apply_slas d self vals') as [d1| |] eqn:Es; try discriminate H.
  injection H as <-.
  destruct (super_write_invariant _ _ _ _ Hinv Es) as [Hinv1 _].
  apply cleanup_invariant, compress_slas_invariant, Hinv1.
Qed.

Lemma super_create_invariant d vals d' tid :
  membership_invariant d ->
  super_create apply_slas defaults d vals = Ok (d', tid) ->
  membership_invariant d' /\ teams d' = teams d.
Proof.
  intros Hinv H. unfold super_create in H.
  set (vals' := vals ++ filter (fun kv => vals_has vals kv.1 = false) defaults) in *.
  destruct (set_fields blank_ticket vals') as [t|] eqn:Ef; [|discriminate H].
  set (d1 := with_tickets d (<[fresh_id (tickets d) := t]> (tickets d))) in *.
  assert (Hok : assignee_ok d1 t = true).
  { destruct (constrained vals') eqn:Ec.
    - destruct (assignee_ok d1 t); [reflexivity | discriminate H].
    - destruct (set_fields_keeps vals' blank_ticket t Ef Ec) as [Hm Hu].
      unfold assignee_ok. rewrite Hm. reflexivity. }
  rewrite Hok, andb_false_r in H. injection H as <- <-.
  split; [|reflexivity]. intros k t0 Hl. subst d1.
  cbn [with_statuses with_tickets tickets] in Hl.
  destruct (decide (fresh_id (tickets d) = k)) as [<-|Hne].
  - rewrite lookup_insert_eq in Hl. injection Hl as <-.
    rewrite <- Hok. apply assignee_ok_same; auto.
  - rewrite lookup_insert_ne in Hl by exact Hne.
    rewrite <- (Hinv k t0 Hl). apply assignee_ok_same; auto.
Qed.

Lemma create_all_invariant vals_list : forall d d' ids,
  membership_invariant d ->
  create_all apply_slas defaults d vals_list = Ok (d', ids) ->
  membership_invariant d'.
Proof.
  induction vals_list as [|vals rest IH]; intros d d' ids Hinv H; cbn [create_all] in H.
  - now injection H as <- <-.
  - unfold mbind, result_bind, bind in H.
    destruct (super_create apply_slas defaults d vals) as [[d1 tid]| |] eqn:E1;
      try discriminate H.
    destruct (create_all apply_slas defaults d1 rest) as [[d2 tids]| |] eqn:E2;
      try discriminate H.
    injection H as <- <-.
    destruct (super_create_invariant _ _ _ _ Hinv E1) as [Hinv1 _].
    exact (IH _ _ _ Hinv1 E2).
Qed.

Lemma create_invariant d vals_list d' ids :
  membership_invariant d ->
  create apply_slas company defaults set_first d vals_list = Ok (d', ids) ->
  membership_invariant d'.
Proof.
  intros Hinv H. unfold create, mbind, result_bind, bind in H.
  destruct (prepare_all company set_first d vals_list) as [new_vals_list| |];
    try discriminate H.
  exact (create_all_invariant _ _ _ _ Hinv H).
Qed.

(** A write whose values put an outsider on a written ticket is refused. *)
Lemma write_refuses_outsider d self vals vals' m tid t' :
  membership_invariant d ->
  write_prepare d self vals = Ok vals' ->
  assign (tickets d) self vals' = Ok m ->
  tid ∈ self -> m !! tid = Some t' -> assignee_ok d t' = false ->
  write base extra apply_slas d self vals = Raise ValidationError.
Proof.
  intros Hinv Hp Ha Hin Hl Hbad.
  unfold write, mbind, result_bind, bind. rewrite Hp.
  unfold super_write, mbind, result_bind, bind. rewrite Ha.
  assert (Hc : constrained vals' = true).
  { destruct (constrained vals') eqn:Ec; [reflexivity|]. exfalso.
    assert (Hok : assignee_ok d t' = true).
    { apply (assign_preserves (fun t => assignee_ok d t = true) vals' self)
        with (tickets d) m tid; auto.
      intros t0 t1 Hs Hok. destruct (set_fields_keeps vals' t0 t1 Hs Ec) as [Hm Hu].
      rewrite <- Hok. apply assignee_ok_same; auto. }
    congruence. }
  assert (Hk : _check_assignee_is_team_member (with_tickets d m) self = false).
  { destruct (_check_assignee_is_team_member (with_tickets d m) self) eqn:Ek; [|reflexivity].
    exfalso. unfold _check_assignee_is_team_member in Ek. rewrite forallb_forall in Ek.
    specialize (Ek tid (proj1 (list_elem_of_In _ _) Hin)).
    cbn [with_tickets tickets] in Ek. rewrite Hl in Ek.
    rewrite (assignee_ok_same d (with_tickets d m) t' t' eq_refl eq_refl eq_refl) in Ek.
    congruence. }
  rewrite Hc, Hk. reflexivity.
Qed.

(** So is the creation of a ticket whose values do. *)
Lemma create_refuses_outsider d vals vals' t' :
  create_prepare company set_first d vals = Ok vals' ->
  set_fields blank_ticket
    (vals' ++ filter (fun kv => vals_has vals' kv.1 = false) defaults) = Some t' ->
  assignee_ok d t' = false ->
  create apply_slas company defaults set_first d [vals] = Raise ValidationError.
Proof.
  intros Hp Hs Hbad. unfold create. cbn [prepare_all].
  unfold mbind, result_bind, bind. rewrite Hp. cbn [create_all].
  unfold mbind, result_bind, bind, super_create. rewrite Hs.
  set (d1 := with_tickets d _).
  assert (Hbad1 : assignee_ok d1 t' = false).
  { rewrite <- Hbad. apply assignee_ok_same; auto. }
  assert (Hc : constrained (vals' ++ filter (fun kv => vals_has vals' kv.1 = false) defaults)
               = true).
  { destruct (constrained _) eqn:Ec; [reflexivity|]. exfalso.
    destruct (set_fields_keeps _ blank_ticket t' Hs Ec) as [Hm Hu].
    unfold assignee_ok in Hbad. rewrite Hm in Hbad. discriminate Hbad. }
  rewrite Hc, Hbad1. reflexivity.
Qed.

End Invariance.

(** Starting from a database in which every assignee belongs to the
    ticket's team, a successful [write] or [create] ends in such a
    database; and a [write], or the [create] of a ticket, whose values
    would put an outsider on a ticket raises ValidationError. *)
Lemma membership_is_preserved :
  forall (base : list field) (extra : ticket -> Z -> sla -> bool)
         (apply_slas : db -> list Z -> gmap Z sla_status)
         (company : Z) (defaults : list (field * value)) (set_first : list Z -> Z)
         (d : db),
    membership_invariant d ->
    (forall self vals d',
        write base extra apply_slas d self vals = Ok d' -> membership_invariant d') /\
    (forall vals_list d' ids,
        create apply_slas company defaults set_first d vals_list = Ok (d', ids) ->
        membership_invariant d') /\
    (forall self vals vals' m tid t',
        write_prepare d self vals = Ok vals' ->
        assign (tickets d) self vals' = Ok m ->
        tid ∈ self -> m !! tid = Some t' -> assignee_ok d t' = false ->
        write base extra apply_slas d self vals = Raise ValidationError) /\
    (forall vals vals' t',
        create_prepare company set_first d vals = Ok vals' ->
        set_fields blank_ticket
          (vals' ++ filter (fun kv => vals_has vals' kv.1 = false) defaults) = Some t' ->
        assignee_ok d t' = false ->
        create apply_slas company defaults set_first d [vals] = Raise ValidationError).
Proof.
  intros base extra apply_slas company defaults set_first d Hinv.
  split; [|split; [|split]].
  - intros self vals d'. apply write_invariant, Hinv.
  - intros vals_list d' ids. apply create_invariant, Hinv.
  - intros self vals vals' m tid t'. apply write_refuses_outsider, Hinv.
  - intros vals vals' t'. apply create_refuses_outsider.
Qed.

Lemma sample_invariant (explicit : list Z) (opt_out : bool) :
  membership_invariant (sample_db explicit opt_out).
Proof.
  intros tid t H. cbn [sample_db tickets] in H.
  apply lookup_singleton_Some in H as [_ <-]. reflexivity.
Qed.

Example outsider_is_refused :
  write base_triggers0 no_extra keep_statuses (sample_db [] false) [1] [(F_user_id, V_int 9)]
  = Raise ValidationError.
Proof. vm_compute. reflexivity. Qed.

(** A second team that assigns by category, and category 5 bound to it
    with user 8 as its default assignee. *)
Definition field_team : team :=
  {| assign_method := "category"; member_ids := [8]; use_sla := false; team_company_id := 1 |}.

Definition routed_db (assignee : option Z) : db :=
  {| categories :=
       <[5 := {| cat_team_id := Some 2; cat_parent_id := None; cat_user_id := Some 8 |}]>
         sample_categories;
     teams := [(1, support_team); (2, field_team)];
     stages := ∅;
     slas := ∅;
     tickets := {[ 1 := {| name := "printer"; category_id := Some 3; team_id := Some 1;
                           user_id := assignee; priority := "1"; stage_id := None;
                           tag_ids := []; partner_id := None; company_id := Some 1;
                           sla_ids := []; sla_recompute_bump := 0; sla_opt_out := false |} ]};
     sla_statuses := ∅ |}.

Example recategorising_moves_team_and_assigns :
  match write base_triggers0 no_extra keep_statuses (routed_db None) [1]
          [(F_category_id, V_int 5)] with
  | Ok d' => (fun t => (team_id t, user_id t)) <$> tickets d' !! 1 = Some (Some 2, Some 8)
  | _ => False
  end.
Proof. vm_compute. reflexivity. Qed.

Example recategorising_with_outsider_is_refused :
  write base_triggers0 no_extra keep_statuses (routed_db (Some 7)) [1]
    [(F_category_id, V_int 5)]
  = Raise ValidationError.
Proof. vm_compute. reflexivity. Qed.

Example create_routes_by_category :
  match create keep_statuses 1 [] cpython_set_first (routed_db None)
          [[(F_name, V_str "scanner"); (F_category_id, V_int 5)]] with
  | Ok (d', [tid]) =>
      (fun t => (team_id t, user_id t)) <$> tickets d' !! tid = Some (Some 2, Some 8)
  | _ => False
  end.
Proof. vm_compute. reflexivity. Qed.

End Helpdesk.


(** ** More on the string primitives *)

Module StrFacts.
Import PyStr.

Lemma app_cons c a b : String c a +:+ b = String c (a +:+ b).
Proof. reflexivity. Qed.




Lemma rstrip_by_idem p s : rstrip_by p (rstrip_by p s) = rstrip_by p s.
Proof.
  induction s as [|c s IH]; [reflexivity|]. cbn [rstrip_by].
  destruct (rstrip_by p s) as [|x r] eqn:E.
  - destruct (p c) eqn:Ec; [reflexivity|]. cbn [rstrip_by]. now rewrite Ec.
  - cbn [rstrip_by] in *. rewrite IH. reflexivity.
Qed.

Lemma lstrip_by_idem p s : lstrip_by p (lstrip_by p s) = lstrip_by p s.
Proof.
  induction s as [|c s IH]; [reflexivity|]. cbn [lstrip_by].
  destruct (p c) eqn:Ec; [exact IH|]. cbn [lstrip_by]. now rewrite Ec.
Qed.

(** Stripping the two ends can be done in either order. *)
Lemma strip_ends_commute p s : lstrip_by p (rstrip_by p s) = rstrip_by p (lstrip_by p s).
Proof.
  induction s as [|c s IH]; [reflexivity|]. cbn [rstrip_by lstrip_by].
  destruct (p c) eqn:Ec.
  - destruct (rstrip_by p s) as [|x r] eqn:E.
    + rewrite <- IH. reflexivity.
    + cbn [lstrip_by]. rewrite Ec. exact IH.
  - cbn [rstrip_by].
    destruct (rstrip_by p s) as [|x r]; cbn [lstrip_by]; now rewrite Ec.
Qed.

Lemma strip_by_idem p s : strip_by p (strip_by p s) = strip_by p s.
Proof.
  unfold strip_by. rewrite <- (strip_ends_commute p (rstrip_by p s)).
  now rewrite rstrip_by_idem, lstrip_by_idem.
Qed.







End StrFacts.


(** ** connect-odoo.py: database name, secrets files, user and API key *)

Module ConnectOdooMore.
Import PyStr StrFacts.

(** [_get_env(key, default)] over [os.environ]. *)
Definition _get_env (environ : gmap string string) (key default_value : string) : string :=
  default default_value (environ !! key).

(** [a or b] on strings. *)
Definition str_or (a b : string) : string :=
  if String.eqb a EmptyString then b else a.

(** [_resolve_db_name()] *)
Definition _resolve_db_name (environ : gmap string string) : string :=
  let db := strip (_get_env environ "TARGET_DB_NAME" EmptyString) in
  if negb (String.eqb db EmptyString) then db
  else
    let env_name := strip (_get_env environ "TARGET_ENV_NAME" EmptyString) in
    let tier := strip (_get_env environ "TARGET_TIER" EmptyString) in
    if negb (String.eqb env_name EmptyString) && negb (String.eqb tier EmptyString)
    then tier +:+ "_" +:+ env_name +:+ "_db"
    else
      let db2 := strip (str_or (_get_env environ "PGDATABASE" EmptyString)
                               (_get_env environ "POSTGRES_DB" EmptyString)) in
      if negb (String.eqb db2 EmptyString) then db2 else EmptyString.

(** [posixpath.join]: an absolute component starts afresh, otherwise one
    slash separates the components. *)
Fixpoint ends_with_slash (s : string) : bool :=
  match s with
  | EmptyString => false
  | String c EmptyString => Ascii.eqb c "/"%char
  | String _ r => ends_with_slash r
  end.

Definition join_step (path b : string) : string :=
  if String.prefix "/" b then b
  else if String.eqb path EmptyString || ends_with_slash path then path +:+ b
  else path +:+ "/" +:+ b.

Definition path_join (path : string) (parts : list string) : string :=
  foldl join_step path parts.

Definition secrets_parts (env_name tier : string) : list string :=
  [str_or (strip env_name) "default"; str_or (strip tier) "dev"; "api-key.txt"].

(** [_secrets_path(env_name, tier)] and [_container_secrets_path(env_name, tier)] *)
Definition _secrets_path (env_name tier : string) : string :=
  path_join "/opt/app-dev/odoo/.secrets" (secrets_parts env_name tier).

Definition _container_secrets_path (env_name tier : string) : string :=
  path_join "/var/lib/odoo/.secrets" (secrets_parts env_name tier).

(** Files: content by path; [writable] tells whether creating the
    directories and writing the file succeed. *)
Record files := {
  content : gmap string string;
  writable : string -> bool
}.

(** [_read_text(path)]: the stripped text, the empty string on any error.
    Text mode translates line ends as in [InstallModules]. *)
Definition _read_text (fs : files) (path : string) : string :=
  match content fs !! path with
  | Some raw => strip (InstallModules.universal_newlines raw)
  | None => EmptyString
  end.

(** [_write_text(path, content)]: the flag returned and the files after. *)
Definition _write_text (fs : files) (path text : string) : bool * files :=
  if writable fs path
  then (true, {| content := <[path := strip text +:+ String InstallModules.LF EmptyString]>
                               (content fs);
                 writable := writable fs |})
  else (false, fs).


Example resolve_composed :
  _resolve_db_name (list_to_map [("TARGET_ENV_NAME", " shukcity "); ("TARGET_TIER", "dev");
                                 ("PGDATABASE", "postgres")])
  = "dev_shukcity_db".
Proof. vm_compute. reflexivity. Qed.

Example secrets_path_default :
  _secrets_path " " "stage" = "/opt/app-dev/odoo/.secrets/default/stage/api-key.txt".
Proof. vm_compute. reflexivity. Qed.

Example secrets_path_absolute_part :
  _secrets_path "/tmp" "dev" = "/tmp/dev/api-key.txt".
Proof. vm_compute. reflexivity. Qed.

Lemma strip_fixed s : strip (strip s) = strip s.
Proof. apply strip_by_idem. Qed.

Lemma all_chars_lstrip q p s : all_chars q s = true -> all_chars q (lstrip_by p s) = true.
Proof.
  induction s as [|c s IH]; cbn [lstrip_by all_chars]; [auto|].
  intros H. destruct (p c); [|exact H]. apply andb_true_iff in H as [_ H]. auto.
Qed.

Lemma all_chars_rstrip q p s : all_chars q s = true -> all_chars q (rstrip_by p s) = true.
Proof.
  induction s as [|c s IH]; cbn [rstrip_by all_chars]; [auto|].
  intros H. apply andb_true_iff in H as [Hc H]. specialize (IH H).
  destruct (rstrip_by p s) as [|x r].
  - destruct (p c); [reflexivity|]. cbn [all_chars]. now rewrite Hc.
  - cbn [all_chars] in *. now rewrite Hc, IH.
Qed.



Lemma str_or_strip_fixed a b :
  strip b = b -> strip (str_or (strip a) b) = str_or (strip a) b.
Proof.
  intros Hb. unfold str_or. destruct (String.eqb (strip a) EmptyString); [exact Hb|].
  apply strip_fixed.
Qed.




Definition sample_files : files :=
  {| content := {[ "/opt/app-dev/odoo/.secrets/shop/dev/api-key.txt" := "old-key" ]};
     writable := fun _ => true |}.






(** *** The technical user *)

Record user := {
  u_name : string;
  u_login : string;
  u_password : option string;
  u_group_ids : list Z
}.

(** The [vals] dict of [_ensure_user_with_groups]: [password] and
    [group_ids] are present only when given. *)
Record user_vals := {
  v_name : string;
  v_login : string;
  v_password : option string;
  v_group_ids : option (list Z)
}.

Definition apply_user_vals (vals : user_vals) (u : user) : user :=
  {| u_name := v_name vals;
     u_login := v_login vals;
     u_password := match v_password vals with Some p => Some p | None => u_password u end;
     u_group_ids := match v_group_ids vals with Some g => g | None => u_group_ids u end |}.

Definition blank_user : user :=
  {| u_name := EmptyString; u_login := EmptyString; u_password := None; u_group_ids := [] |}.

(** [Users.search([["login", "=", login]], limit=1)] on the rows in search
    order. *)
Fixpoint search_login (users : list (Z * user)) (login : string) : option Z :=
  match users with
  | [] => None
  | (id, u) :: rest => if String.eqb (u_login u) login then Some id else search_login rest login
  end.

Definition write_user (users : list (Z * user)) (id : Z) (vals : user_vals)
  : list (Z * user) :=
  (fun row : Z * user => if row.1 =? id then (row.1, apply_user_vals vals row.2) else row)
    <$> users.

Definition fresh_user_id (users : list (Z * user)) : Z :=
  1 + foldr Z.max 0 users.*1.

(** The loop over [group_xmlids]: ids of the references that resolve to a
    group; anything else is passed over in silence. *)
Definition group_ids_of (env_ref : string -> option OdooBootstrap.ref_record)
  (group_xmlids : list string) : list Z :=
  omap (fun xid => match env_ref xid with
                   | Some rec => if String.eqb (OdooBootstrap.model_name rec) "res.groups"
                                 then Some (OdooBootstrap.rec_id rec) else None
                   | None => None
                   end) group_xmlids.

Definition user_vals_of (env_ref : string -> option OdooBootstrap.ref_record)
  (login : string) (password : option string) (group_xmlids : list string) : user_vals :=
  {| v_name := login;
     v_login := login;
     v_password := match password with
                   | Some p => if String.eqb p EmptyString then None else Some p
                   | None => None
                   end;
     v_group_ids := match group_ids_of env_ref group_xmlids with
                    | [] => None
                    | ids => Some ids
                    end |}.

(** [_ensure_user_with_groups(env, login, password, group_xmlids)]: the id
    returned and the users after the call. *)
Definition _ensure_user_with_groups (env_ref : string -> option OdooBootstrap.ref_record)
  (users : list (Z * user)) (login : string) (password : option string)
  (group_xmlids : list string) : Z * list (Z * user) :=
  let vals := user_vals_of env_ref login password group_xmlids in
  match search_login users login with
  | Some id => (id, write_user users id vals)
  | None =>
      let id := fresh_user_id users in
      (id, users ++ [(id, apply_user_vals vals blank_user)])
  end.

(** *** The API key *)

Record apikey := {
  k_user_id : Z;
  k_key : option string;      (* [None]: left to the model to generate *)
  k_note : string
}.

(** What the key model does: whether it exists at all, whether a
    [create] of a record is accepted given the records there are, whether
    it has [_generate_key] and what that returns ([None]: it raises), and
    the [key] a record created without one shows afterwards. *)
Record key_model := {
  has_model : bool;
  accepts : list apikey -> apikey -> bool;
  has_generate_key : bool;
  generate_key : option string;
  shown_key : option string
}.

Definition note_exists (keys : list apikey) (user_id : Z) (purpose : string) : bool :=
  existsb (fun k => (k_user_id k =? user_id) && String.eqb (k_note k) purpose) keys.

(** [ApiKey.create(vals)]: the records after, [None] when it raises. *)
Definition create_key (m : key_model) (keys : list apikey) (k : apikey) : option (list apikey) :=
  if accepts m keys k then Some (keys ++ [k]) else None.

(** The part of [_ensure_api_key] after the preferred key: look for a key
    under the purpose, otherwise generate one.  The result is [None] when
    the function falls off its end without a [return]. *)
Definition generate_path (m : key_model) (keys : list apikey) (user_id : Z) (purpose : string)
  : option (bool * string) * list apikey :=
  if note_exists keys user_id purpose then (Some (false, EmptyString), keys)
  else if negb (has_generate_key m) then (None, keys)
  else
    let fallback :=
      match create_key m keys {| k_user_id := user_id; k_key := None; k_note := purpose |} with
      | Some keys' => (Some (true, default EmptyString (shown_key m)), keys')
      | None => (Some (false, EmptyString), keys)
      end in
    match generate_key m with
    | None => fallback
    | Some key_val =>
        match create_key m keys
                {| k_user_id := user_id; k_key := Some key_val; k_note := purpose |} with
        | Some keys' => (Some (true, key_val), keys')
        | None => fallback
        end
    end.

(** [_ensure_api_key(env, user_id, purpose, preferred_key)] *)
Definition _ensure_api_key (m : key_model) (keys : list apikey) (user_id : Z)
  (purpose : string) (preferred_key : option string)
  : option (bool * string) * list apikey :=
  if negb (has_model m) then (Some (false, EmptyString), keys)
  else
    match preferred_key with
    | Some pk =>
        if String.eqb pk EmptyString then generate_path m keys user_id purpose
        else
          match create_key m keys
                  {| k_user_id := user_id; k_key := Some pk; k_note := purpose |} with
          | Some keys' => (Some (true, pk), keys')
          | None =>
              match create_key m keys
                      {| k_user_id := user_id; k_key := Some pk;
                         k_note := purpose +:+ "-file" |} with
              | Some keys' => (Some (true, pk), keys')
              | None => generate_path m keys user_id purpose
              end
          end
    | None => generate_path m keys user_id purpose
    end.

Definition sample_refs (xid : string) : option OdooBootstrap.ref_record :=
  if String.eqb xid "base.group_system"
  then Some {| OdooBootstrap.model_name := "res.groups"; OdooBootstrap.rec_id := 2 |}
  else None.

Definition admin_row : Z * user :=
  (2, {| u_name := "Administrator"; u_login := "admin"; u_password := Some "admin";
         u_group_ids := [1; 2] |}).

Example ensure_user_creates :
  _ensure_user_with_groups sample_refs [admin_row] "n8n" (Some "n8n") ["base.group_system"]
  = (3, [admin_row;
         (3, {| u_name := "n8n"; u_login := "n8n"; u_password := Some "n8n";
                u_group_ids := [2] |})]).
Proof. vm_compute. reflexivity. Qed.

(** A key model that refuses a second key under the same note. *)
Definition unique_notes : key_model :=
  {| has_model := true;
     accepts := fun keys k => negb (note_exists keys (k_user_id k) (k_note k));
     has_generate_key := true;
     generate_key := Some "fresh-key";
     shown_key := None |}.

Example preferred_key_retried_under_file_note :
  _ensure_api_key unique_notes
    [{| k_user_id := 3; k_key := Some "old"; k_note := "n8n" |}] 3 "n8n" (Some "cached")
  = (Some (true, "cached"),
     [{| k_user_id := 3; k_key := Some "old"; k_note := "n8n" |};
      {| k_user_id := 3; k_key := Some "cached"; k_note := "n8n-file" |}]).
Proof. vm_compute. reflexivity. Qed.

Lemma apply_user_vals_twice vals u :
  apply_user_vals vals (apply_user_vals vals u) = apply_user_vals vals u.
Proof.
  unfold apply_user_vals. cbn [u_password u_group_ids].
  destruct (v_password vals), (v_group_ids vals); reflexivity.
Qed.

Lemma write_user_twice users id vals :
  write_user (write_user users id vals) id vals = write_user users id vals.
Proof.
  unfold write_user. rewrite <- list_fmap_compose. apply list_fmap_ext.
  intros _ [k u] _. cbn [compose fst snd].
  destruct (k =? id) eqn:E; cbn [fst snd]; rewrite E; [|reflexivity].
  now rewrite apply_user_vals_twice.
Qed.

Lemma search_after_write users id vals login :
  v_login vals = login ->
  search_login users login = Some id ->
  search_login (write_user users id vals) login = Some id.
Proof.
  intros Hl. induction users as [|[k u] rest IH]; [discriminate|].
  cbn [search_login write_user fmap list_fmap fst snd].
  destruct (String.eqb_spec (u_login u) login) as [E|E].
  - intros H. injection H as ->. rewrite Z.eqb_refl. cbn [search_login apply_user_vals u_login].
    rewrite Hl, String.eqb_refl. reflexivity.
  - intros H. destruct (k =? id) eqn:Ek.
    + cbn [search_login apply_user_vals u_login]. rewrite Hl, String.eqb_refl.
      apply Z.eqb_eq in Ek. now subst.
    + cbn [search_login]. destruct (String.eqb_spec (u_login u) login); [contradiction|].
      exact (IH H).
Qed.

Lemma search_appended users id u login :
  search_login users login = None -> u_login u = login ->
  search_login (users ++ [(id, u)]) login = Some id.
Proof.
  intros Hn Hl. induction users as [|[k x] rest IH]; cbn [app search_login] in *.
  - now rewrite Hl, String.eqb_refl.
  - destruct (String.eqb (u_login x) login); [discriminate Hn | exact (IH Hn)].
Qed.

Lemma fresh_user_id_above users k u : (k, u) ∈ users -> k < fresh_user_id users.
Proof.
  unfold fresh_user_id. induction users as [|[j x] rest IH]; intros Hin; [inversion Hin|].
  cbn [fmap list_fmap foldr fst]. apply elem_of_cons in Hin as [Heq|Hin].
  - injection Heq as -> _. lia.
  - specialize (IH Hin). cbn [fmap] in IH. lia.
Qed.

Lemma write_fresh_user users vals u :
  apply_user_vals vals u = u ->
  write_user (users ++ [(fresh_user_id users, u)]) (fresh_user_id users) vals
  = users ++ [(fresh_user_id users, u)].
Proof.
  intros Hu. unfold write_user. rewrite fmap_app. f_equal.
  - rewrite <- (list_fmap_id users) at 2. apply list_fmap_ext.
    intros i [k x] Hin. cbn [fst snd id].
    apply list_elem_of_lookup_2 in Hin. apply fresh_user_id_above in Hin.
    destruct (k =? fresh_user_id users) eqn:E; [|reflexivity].
    apply Z.eqb_eq in E. lia.
  - cbn [fmap list_fmap fst snd]. rewrite Z.eqb_refl, Hu. reflexivity.
Qed.

(** X4.  [_ensure_user_with_groups] is an idempotent upsert: a second call
    with the same arguments returns the same id and changes nothing; the
    user is found by its login afterwards; and when the login exists
    already, it is that user that is updated, without a new row. *)
Theorem ensure_user_is_idempotent :
  forall (env_ref : string -> option OdooBootstrap.ref_record) (users : list (Z * user))
         (login : string) (password : option string) (group_xmlids : list string),
    let r := _ensure_user_with_groups env_ref users login password group_xmlids in
    _ensure_user_with_groups env_ref r.2 login password group_xmlids = r /\
    search_login r.2 login = Some r.1 /\
    (forall id, search_login users login = Some id ->
                r.1 = id /\ length r.2 = length users).
Proof.
  intros env_ref users login password group_xmlids. cbv zeta.
  unfold _ensure_user_with_groups.
  set (vals := user_vals_of env_ref login password group_xmlids).
  assert (Hl : v_login vals = login) by reflexivity.
  destruct (search_login users login) as [id|] eqn:Es; cbn [fst snd].
  - rewrite (search_after_write users id vals login Hl Es), write_user_twice.
    split; [reflexivity|]. split; [reflexivity|].
    intros id' H. injection H as <-. split; [reflexivity|].
    unfold write_user. apply length_fmap.
  - assert (Hs : search_login (users ++ [(fresh_user_id users, apply_user_vals vals blank_user)])
                   login = Some (fresh_user_id users))
      by (apply search_appended; [exact Es | reflexivity]).
    rewrite Hs, write_fresh_user by apply apply_user_vals_twice.
    split; [reflexivity|]. split; [reflexivity|]. intros id H. discriminate H.
Qed.

Lemma ensure_user_is_idempotent_witness :
  search_login [admin_row] "admin" = Some 2 /\
  (_ensure_user_with_groups sample_refs [admin_row] "admin" None ["base.group_system"]).1 = 2.
Proof.
  split; [reflexivity|].
  exact (proj1 (proj2 (proj2 (ensure_user_is_idempotent sample_refs [admin_row] "admin" None
                                ["base.group_system"])) 2 eq_refl)).
Defined.

Lemma generate_path_adds_at_most_one m keys user_id purpose :
  match generate_path m keys user_id purpose with
  | (Some (true, v), keys') =>
      exists k, keys' = keys ++ [k] /\ k_user_id k = user_id /\
                (k_note k = purpose \/ k_note k = purpose +:+ "-file") /\
                (k_key k = Some v \/ k_key k = None)
  | (_, keys') => keys' = keys
  end.
Proof.
  unfold generate_path, create_key.
  destruct (note_exists keys user_id purpose); [reflexivity|].
  destruct (has_generate_key m); cbn [negb]; [|reflexivity].
  destruct (generate_key m) as [key_val|];
    [destruct (accepts m keys {| k_user_id := user_id; k_key := Some key_val;
                                 k_note := purpose |})|];
    try (eexists; repeat split; eauto; fail);
    destruct (accepts m keys {| k_user_id := user_id; k_key := None; k_note := purpose |});
    try reflexivity; eexists; repeat split; eauto.
Qed.

(** X5.  A call of [_ensure_api_key] adds at most one key record and
    leaves the existing ones alone; it reports "created" exactly when it
    added one, and that record belongs to the user, carries the purpose (or
    the purpose with "-file") as note and, unless the model generated the
    key itself, the plaintext returned. *)
Theorem ensure_api_key_adds_at_most_one :
  forall (m : key_model) (keys : list apikey) (user_id : Z) (purpose : string)
         (preferred_key : option string),
    match _ensure_api_key m keys user_id purpose preferred_key with
    | (Some (true, v), keys') =>
        exists k, keys' = keys ++ [k] /\ k_user_id k = user_id /\
                  (k_note k = purpose \/ k_note k = purpose +:+ "-file") /\
                  (k_key k = Some v \/ k_key k = None)
    | (_, keys') => keys' = keys
    end.
Proof.
  intros m keys user_id purpose preferred_key. unfold _ensure_api_key.
  pose proof (generate_path_adds_at_most_one m keys user_id purpose) as Hg.
  destruct (has_model m); cbn [negb]; [|reflexivity].
  destruct preferred_key as [pk|]; [|exact Hg].
  destruct (String.eqb pk EmptyString); [exact Hg|].
  unfold create_key.
  destruct (accepts m keys {| k_user_id := user_id; k_key := Some pk; k_note := purpose |});
    [eexists; repeat split; eauto|].
  destruct (accepts m keys {| k_user_id := user_id; k_key := Some pk;
                              k_note := purpose +:+ "-file" |});
    [eexists; repeat split; eauto | exact Hg].
Qed.

(** *** [main] *)

Record world := {
  environ : gmap string string;
  registry_error : option string;     (* the message when opening the registry raises *)
  icp : gmap string string;
  users : list (Z * user);
  keys : list apikey;
  key_rules : key_model;
  fs : files;
  env_ref : string -> option OdooBootstrap.ref_record;
  alt_purpose : string                (* "n8n-" followed by the time in seconds *)
}.

(** How a run ends: the exit code ([None] when an exception leaves [main]),
    the database as committed, and the files. *)
Record final := {
  exit_code : option Z;
  f_icp : gmap string string;
  f_users : list (Z * user);
  f_keys : list apikey;
  f_fs : files
}.

Definition nonempty (s : string) : bool := negb (String.eqb s EmptyString).

(** Leaving the [with] block by an exception rolls the cursor back; files
    written before stay written. *)
Definition rolled_back (w : world) (code : option Z) (files_now : files) : final :=
  {| exit_code := code; f_icp := icp w; f_users := users w; f_keys := keys w;
     f_fs := files_now |}.

Definition main (w : world) : final :=
  let db_name := _resolve_db_name (environ w) in
  let env_name := _get_env (environ w) "TARGET_ENV_NAME" EmptyString in
  let tier := _get_env (environ w) "TARGET_TIER" EmptyString in
  let n8n_url := rstrip_slash (_get_env (environ w) "N8N_URL" "http://n8n:5678") in
  if negb (nonempty db_name) then rolled_back w (Some 0) (fs w)
  else
    match registry_error w with
    | Some msg =>
        rolled_back w (Some (if contains "does not exist" (lower msg) then 0 else 1)) (fs w)
    | None =>
        let '(_, icp1) := ConnectOdoo._ensure_param (icp w) "integration.n8n.base_url" n8n_url in
        let password := _get_env (environ w) "N8N_ODOO_PASSWORD" "n8n" in
        let '(uid, users1) :=
          _ensure_user_with_groups (env_ref w) (users w) "n8n"
            (if nonempty password then Some password else None) ["base.group_system"] in
        let secrets_file := _secrets_path env_name tier in
        let secrets_file_container := _container_secrets_path env_name tier in
        let cached := nonempty env_name && nonempty tier in
        let existing_secret := if cached then _read_text (fs w) secrets_file else EmptyString in
        let finish (key_val : string) (keys1 : list apikey) (files1 : files) : final :=
          {| exit_code := Some 0; f_icp := icp1; f_users := users1; f_keys := keys1;
             f_fs := if nonempty key_val
                     then (_write_text files1 secrets_file_container key_val).2
                     else files1 |} in
        if nonempty existing_secret then
          match _ensure_api_key (key_rules w) (keys w) uid "n8n" (Some existing_secret) with
          | (None, _) => rolled_back w None (fs w)
          | (Some (_, key_val), keys1) => finish key_val keys1 (fs w)
          end
        else
          match _ensure_api_key (key_rules w) (keys w) uid "n8n" None with
          | (None, _) => rolled_back w None (fs w)
          | (Some (created_key, key_val), keys1) =>
              if created_key && nonempty key_val
              then finish key_val keys1 (_write_text (fs w) secrets_file key_val).2
              else if negb created_key && cached
              then
                match _ensure_api_key (key_rules w) keys1 uid (alt_purpose w) None with
                | (None, keys2) => finish key_val keys2 (fs w)
                | (Some (created2, key_val2), keys2) =>
                    finish key_val2 keys2
                      (if created2 && nonempty key_val2
                       then (_write_text (fs w) secrets_file key_val2).2 else fs w)
                end
              else finish key_val keys1 (fs w)
          end
    end.

Definition sample_world (files0 : files) (keys0 : list apikey) : world :=
  {| environ := list_to_map [("TARGET_DB_NAME", "shop_db"); ("TARGET_ENV_NAME", "shop");
                             ("TARGET_TIER", "dev")];
     registry_error := None;
     icp := ∅; users := [admin_row]; keys := keys0; key_rules := unique_notes;
     fs := files0; env_ref := sample_refs; alt_purpose := "n8n-1700000000" |}.

Example first_run_persists_generated_key :
  let f := main (sample_world {| content := ∅; writable := fun _ => true |} []) in
  exit_code f = Some 0 /\
  _read_text (f_fs f) "/opt/app-dev/odoo/.secrets/shop/dev/api-key.txt" = "fresh-key" /\
  _read_text (f_fs f) "/var/lib/odoo/.secrets/shop/dev/api-key.txt" = "fresh-key" /\
  f_keys f = [{| k_user_id := 3; k_key := Some "fresh-key"; k_note := "n8n" |}].
Proof. vm_compute. repeat split; reflexivity. Qed.

Example rerun_installs_cached_key :
  let f := main (sample_world sample_files []) in
  exit_code f = Some 0 /\
  f_keys f = [{| k_user_id := 3; k_key := Some "old-key"; k_note := "n8n" |}] /\
  _read_text (f_fs f) "/var/lib/odoo/.secrets/shop/dev/api-key.txt" = "old-key".
Proof. vm_compute. repeat split; reflexivity. Qed.





End ConnectOdooMore.


(** ** install_modules.py: the command line, exit codes and colours *)

Module InstallModulesMore.
Import PyStr StrFacts InstallModules.

(** *** Colouring of severity tokens *)

Definition ESC : ascii := "027"%char.
Definition ANSI_RESET : string := String ESC "[0m".
Definition ANSI_GREEN : string := String ESC "[32m".
Definition ANSI_YELLOW : string := String ESC "[33m".
Definition ANSI_RED : string := String ESC "[31m".
Definition ANSI_BOLD : string := String ESC "[1m".

Definition is_lower (c : ascii) : bool := ((97 <=? code c) && (code c <=? 122))%nat.
Definition upper_char (c : ascii) : ascii :=
  if is_lower c then ascii_of_nat (code c - 32) else c.
Fixpoint upper (s : string) : string :=
  match s with
  | EmptyString => EmptyString
  | String c r => String (upper_char c) (upper r)
  end.

(** [_colorize_token(token, level)] *)
Definition _colorize_token (token level : string) : string :=
  let lvl := upper level in
  let color :=
    if String.eqb lvl "ERROR" then ANSI_RED
    else if String.eqb lvl "WARNING" || String.eqb lvl "WARN" then ANSI_YELLOW
    else ANSI_GREEN in
  color +:+ ANSI_BOLD +:+ token +:+ ANSI_RESET.

(** The pattern [\b(INFO|WARNING|WARN|ERROR|CRITICAL)\b]: word characters
    are letters, digits and the underscore. *)
Definition is_word (c : ascii) : bool := is_alnum c || Ascii.eqb c "_"%char.

Definition severity_tokens : list string := ["INFO"; "WARNING"; "WARN"; "ERROR"; "CRITICAL"].

Fixpoint drop_prefix (tok s : string) : option string :=
  match tok, s with
  | EmptyString, _ => Some s
  | String a tok', String b s' => if Ascii.eqb a b then drop_prefix tok' s' else None
  | String _ _, EmptyString => None
  end.

Definition boundary_after (post : string) : bool :=
  match post with
  | EmptyString => true
  | String c _ => negb (is_word c)
  end.

(** The first alternative that matches at the head of [s], with what
    follows it. *)
Fixpoint token_at (toks : list string) (s : string) : option (string * string) :=
  match toks with
  | [] => None
  | tok :: rest =>
      match drop_prefix tok s with
      | Some post => if boundary_after post then Some (tok, post) else token_at rest s
      | None => token_at rest s
      end
  end.

(** The leftmost match: the text before it, the token, the text after. *)
Fixpoint find_token (prev_is_word : bool) (s : string) : option (string * string * string) :=
  match s with
  | EmptyString => None
  | String c r =>
      match (if prev_is_word then None else token_at severity_tokens s) with
      | Some (tok, post) => Some (EmptyString, tok, post)
      | None =>
          match find_token (is_word c) r with
          | Some (pre, tok, post) => Some (String c pre, tok, post)
          | None => None
          end
      end
  end.

(** [colorize_severity_token_in_line(line)] *)
Definition colorize_severity_token_in_line (line : string) : string :=
  match find_token false line with
  | Some (pre, tok, post) =>
      pre +:+ _colorize_token tok (if String.eqb tok "WARN" then "WARNING" else tok) +:+ post
  | None => line
  end.

Example colour_first_token_only :
  colorize_severity_token_in_line "2024 odoo WARNING: INFO ignored"
  = "2024 odoo " +:+ ANSI_YELLOW +:+ ANSI_BOLD +:+ "WARNING" +:+ ANSI_RESET +:+ ": INFO ignored".
Proof. vm_compute. reflexivity. Qed.

Example no_colour_inside_words :
  colorize_severity_token_in_line "INFORMATION and MY_ERROR" = "INFORMATION and MY_ERROR".
Proof. vm_compute. reflexivity. Qed.

Example critical_is_green :
  colorize_severity_token_in_line "CRITICAL failure"
  = ANSI_GREEN +:+ ANSI_BOLD +:+ "CRITICAL" +:+ ANSI_RESET +:+ " failure".
Proof. vm_compute. reflexivity. Qed.

Lemma drop_prefix_app tok s post : drop_prefix tok s = Some post -> s = tok +:+ post.
Proof.
  revert s; induction tok as [|a tok IH]; intros s H; cbn [drop_prefix] in H.
  - now injection H as ->.
  - destruct s as [|b s]; [discriminate|].
    destruct (Ascii.eqb_spec a b) as [->|]; [|discriminate].
    rewrite app_cons. f_equal. exact (IH s H).
Qed.

Lemma token_at_spec toks s tok post :
  token_at toks s = Some (tok, post) ->
  tok ∈ toks /\ s = tok +:+ post /\ boundary_after post = true.
Proof.
  induction toks as [|t rest IH]; cbn [token_at]; [discriminate|].
  intros H. destruct (drop_prefix t s) as [p|] eqn:E.
  - destruct (boundary_after p) eqn:Eb.
    + injection H as <- <-. split; [apply elem_of_cons; auto|].
      split; [now apply drop_prefix_app | exact Eb].
    + destruct (IH H) as (? & ? & ?). split; [apply elem_of_cons; auto | auto].
  - destruct (IH H) as (? & ? & ?). split; [apply elem_of_cons; auto | auto].
Qed.

Lemma find_token_spec s : forall prev pre tok post,
  find_token prev s = Some (pre, tok, post) ->
  tok ∈ severity_tokens /\ s = pre +:+ tok +:+ post /\ boundary_after post = true.
Proof.
  induction s as [|c r IH]; intros prev pre tok post H; cbn [find_token] in H;
    [discriminate|].
  destruct (if prev then None else token_at severity_tokens (String c r))
    as [[t p]|] eqn:E.
  - injection H as <- <- <-. destruct prev; [discriminate|].
    exact (token_at_spec _ _ _ _ E).
  - destruct (find_token (is_word c) r) as [[[pre' t'] p']|] eqn:F; [|discriminate].
    injection H as <- <- <-. destruct (IH _ _ _ _ F) as (Ht & Hs & Hb).
    split; [exact Ht|]. split; [|exact Hb]. rewrite app_cons. now f_equal.
Qed.

(** X7.  [colorize_severity_token_in_line] returns the line as it is, or
    the line with colour codes put around one occurrence of a severity
    token that is not followed by a word character: the text itself is
    never altered. *)
Theorem colouring_keeps_the_text :
  forall line : string,
    colorize_severity_token_in_line line = line \/
    exists pre tok post colour,
      line = pre +:+ tok +:+ post /\
      tok ∈ severity_tokens /\
      boundary_after post = true /\
      colour ∈ [ANSI_RED; ANSI_YELLOW; ANSI_GREEN] /\
      colorize_severity_token_in_line line
      = pre +:+ (colour +:+ ANSI_BOLD +:+ tok +:+ ANSI_RESET) +:+ post.
Proof.
  intros line. unfold colorize_severity_token_in_line.
  destruct (find_token false line) as [[[pre tok] post]|] eqn:E; [right | left; reflexivity].
  destruct (find_token_spec _ _ _ _ _ E) as (Ht & Hs & Hb).
  unfold _colorize_token.
  set (lvl := upper (if String.eqb tok "WARN" then "WARNING" else tok)).
  exists pre, tok, post.
  destruct (String.eqb lvl "ERROR");
    [exists ANSI_RED | destruct (String.eqb lvl "WARNING" || String.eqb lvl "WARN");
                       [exists ANSI_YELLOW | exists ANSI_GREEN]];
    repeat split; auto;
    repeat (first [apply elem_of_cons; left; reflexivity | apply elem_of_cons; right]).
Qed.

(** *** What reaches the installer *)

Lemma insert_sorted_perm x l : insert_sorted x l ≡ₚ x :: l.
Proof.
  induction l as [|y r IH]; cbn [insert_sorted]; [reflexivity|].
  destruct (String.leb x y); [reflexivity|].
  rewrite IH. apply perm_swap.
Qed.

Lemma sorted_perm l : sorted l ≡ₚ l.
Proof.
  unfold sorted. induction l as [|x r IH]; cbn [foldr]; [reflexivity|].
  now rewrite insert_sorted_perm, IH.
Qed.

Lemma insert_sorted_HdRel y x l :
  String.le y x -> HdRel String.le y l -> HdRel String.le y (insert_sorted x l).
Proof.
  intros Hyx Hl. destruct l as [|z r]; cbn [insert_sorted]; [constructor; exact Hyx|].
  destruct (String.leb x z); constructor; [exact Hyx|]. now inversion Hl.
Qed.

Lemma insert_sorted_Sorted x l : Sorted String.le l -> Sorted String.le (insert_sorted x l).
Proof.
  induction l as [|y r IH]; cbn [insert_sorted]; intros Hs.
  - repeat constructor.
  - destruct (String.leb x y) eqn:E.
    + constructor; [exact Hs|]. constructor. unfold String.le. now rewrite E.
    + inversion Hs as [|? ? Hr Hh]; subst. constructor; [exact (IH Hr)|].
      apply insert_sorted_HdRel; [|exact Hh].
      unfold String.le. destruct (String.leb_total x y) as [H|H]; [congruence|].
      now rewrite H.
Qed.

Lemma sorted_Sorted l : Sorted String.le (sorted l).
Proof.
  unfold sorted. induction l as [|x r IH]; cbn [foldr]; [constructor|].
  now apply insert_sorted_Sorted.
Qed.

Lemma select_modules_NoDup st modules : NoDup modules -> NoDup (select_modules st modules).1.
Proof.
  induction modules as [|m r IH]; cbn [select_modules]; intros Hn; [constructor|].
  apply NoDup_cons in Hn as [Hm Hr]. specialize (IH Hr).
  pose proof (select_modules_elem st r m) as Hel.
  destruct (select_modules st r) as [inst missing]. cbn [fst] in *.
  destruct (st m) as [state|]; [case_bool_decide|]; cbn [fst]; auto.
  constructor; [|exact IH]. rewrite Hel. tauto.
Qed.

Lemma parsed_names_valid file name :
  name ∈ read_modules_list file -> name <> EmptyString /\ valid_name name = true.
Proof.
  destruct file as [text|]; cbn [read_modules_list]; [|intros H; inversion H].
  rewrite dedupe_elem, list_elem_of_filter. intros [Hp _].
  apply andb_true_iff in Hp as [Hne Hv]. split; [|exact Hv].
  apply negb_true_iff, String.eqb_neq in Hne. exact Hne.
Qed.

Lemma cli_modules_sorted w mods :
  cli_modules (main w) = Some mods ->
  exists to_install,
    mods = sorted to_install /\ to_install <> [] /\
    to_install = (select_modules (module_state w) (read_modules_list (modules_file w))).1.
Proof.
  unfold main, install. intros H.
  destruct (match modules_file w with Some _ => unreadable w | None => false end);
    [discriminate H|].
  destruct (read_modules_list (modules_file w)) as [|m0 ms] eqn:Er; [discriminate H|].
  destruct (select_modules (module_state w) (m0 :: ms)) as [inst missing] eqn:Es.
  destruct (truthy_str (target_db_name w)), (truthy_str (pgdatabase w));
    try discriminate H;
    (destruct (database_error w); [discriminate H|];
     destruct inst as [|i0 ir]; [discriminate H|]; cbn [cli_modules] in H;
     exists (i0 :: ir); split; [congruence|]; split; [discriminate | reflexivity]).
Qed.

(** The text holds ASCII characters only: the range on which the character
    classes of [PyStr] are those of Python. *)
Definition ascii_only (s : string) : bool := all_chars (fun c => (code c <? 128)%nat) s.

(** X8.  For a module list written in ASCII, every module name that
    reaches the installer's command line is non-empty and made of ASCII
    letters, digits, underscores and dashes only. *)
Theorem command_line_names_are_well_formed :
  forall (w : world) (content : string) (mods : list string) (name : string),
    modules_file w = Some content ->
    ascii_only content = true ->
    cli_modules (main w) = Some mods ->
    name ∈ mods ->
    name <> EmptyString /\ valid_name name = true /\ ascii_only name = true.
Proof.
  intros w content mods name Hf Ha Hc Hin.
  apply (main_cli_modules_elem w mods name Hc) in Hin as [Hp _].
  destruct (parsed_names_valid _ _ Hp) as [Hne Hv].
  split; [exact Hne|]. split; [exact Hv|].
  unfold valid_name in Hv. unfold ascii_only.
  clear -Hv. induction name as [|c r IH]; [reflexivity|].
  cbn [all_chars] in *. apply andb_true_iff in Hv as [Hc Hr].
  rewrite (IH Hr), andb_true_r.
  assert (Hlt : (code c < 128)%nat).
  { unfold is_alnum in Hc.
    destruct (Ascii.eqb_spec c "_"%char) as [->|_]; [apply Nat.ltb_lt; reflexivity|].
    destruct (Ascii.eqb_spec c "-"%char) as [->|_]; [apply Nat.ltb_lt; reflexivity|].
    rewrite !orb_false_r in Hc.
    repeat (apply orb_true_iff in Hc as [Hc|Hc]);
      apply andb_true_iff in Hc as [_ Hc]; apply Nat.leb_le in Hc; lia. }
  apply Nat.ltb_lt. exact Hlt.
Qed.

Definition states_crm_installed (n : string) : option string :=
  if String.eqb n "crm" then Some "installed" else Some "uninstalled".

Lemma command_line_names_are_well_formed_witness :
  ascii_only sample_file = true /\
  cli_modules (main (sample_world states_crm_installed)) = Some ["sale"; "stock"] /\
  "sale" ∈ ["sale"; "stock"] /\
  valid_name "sale" = true.
Proof.
  assert (H1 : cli_modules (main (sample_world states_crm_installed))
               = Some ["sale"; "stock"]) by (vm_compute; reflexivity).
  assert (H2 : "sale" ∈ ["sale"; "stock"]) by (apply elem_of_cons; left; reflexivity).
  split; [reflexivity|]. split; [exact H1|]. split; [exact H2|].
  exact (proj1 (proj2 (command_line_names_are_well_formed
                         (sample_world states_crm_installed) sample_file _ "sale"
                         eq_refl eq_refl H1 H2))).
Defined.

(** X9.  The installer is given each listed module that the database knows
    and that is neither installed nor queued, exactly once, in ascending
    order; the list is never empty. *)
Theorem installer_list_is_sorted_delta :
  forall (w : world) (mods : list string),
    cli_modules (main w) = Some mods ->
    Sorted String.le mods /\ NoDup mods /\ mods <> [] /\
    forall name,
      name ∈ mods <->
      name ∈ read_modules_list (modules_file w) /\
      exists state, module_state w name = Some state /\ state ∉ queued_states.
Proof.
  intros w mods Hc.
  destruct (cli_modules_sorted w mods Hc) as (inst & -> & Hne & Hi).
  split; [apply sorted_Sorted|]. split; [|split].
  - rewrite sorted_perm, Hi. apply select_modules_NoDup.
    destruct (modules_file w); cbn [read_modules_list]; [apply dedupe_NoDup | constructor].
  - intros Hnil. apply Hne. apply Permutation_nil. rewrite <- Hnil. apply sorted_perm.
  - intros name. exact (main_cli_modules_elem w _ name Hc).
Qed.

Lemma installer_list_is_sorted_delta_witness :
  cli_modules (main (sample_world states_crm_installed)) = Some ["sale"; "stock"] /\
  Sorted String.le ["sale"; "stock"].
Proof.
  assert (H1 : cli_modules (main (sample_world states_crm_installed))
               = Some ["sale"; "stock"]) by (vm_compute; reflexivity).
  split; [exact H1|].
  exact (proj1 (installer_list_is_sorted_delta _ _ H1)).
Defined.

(** Whether an exception leaves [main]: the file exists and cannot be
    read, or modules are listed, a database name is set and the registry
    or a search raises. *)
Definition raises (w : world) : Prop :=
  (is_Some (modules_file w) /\ unreadable w = true) \/
  (read_modules_list (modules_file w) <> [] /\
   (is_Some (truthy_str (target_db_name w)) \/ is_Some (truthy_str (pgdatabase w))) /\
   database_error w = true).

Ltac not_read H :=
  let H1 := fresh in let H2 := fresh in
  destruct H as [[? H1] H2]; first [discriminate H2 | discriminate H1].

Lemma installer_cases w :
  (raises w /\ main w = raised) \/
  (~ raises w /\ read_modules_list (modules_file w) = [] /\
   main w = {| exit_code := Some 0; not_found := []; cli_modules := None;
               cli_command := None |}) \/
  (~ raises w /\ read_modules_list (modules_file w) <> [] /\
   truthy_str (target_db_name w) = None /\ truthy_str (pgdatabase w) = None /\
   main w = {| exit_code := Some 2; not_found := []; cli_modules := None;
               cli_command := None |}) \/
  (~ raises w /\ exists db missing,
     (truthy_str (target_db_name w) = Some db \/
      truthy_str (target_db_name w) = None /\ truthy_str (pgdatabase w) = Some db) /\
     main w = {| exit_code := Some 0; not_found := missing; cli_modules := None;
                 cli_command := None |}) \/
  (~ raises w /\ exists db i0 ir missing,
     (truthy_str (target_db_name w) = Some db \/
      truthy_str (target_db_name w) = None /\ truthy_str (pgdatabase w) = Some db) /\
     main w = {| exit_code := Some (if run_cli w (cli_of db (join "," (sorted (i0 :: ir)))) =? 0
                                    then 0 else 4);
                 not_found := missing;
                 cli_modules := Some (sorted (i0 :: ir));
                 cli_command := Some (cli_of db (join "," (sorted (i0 :: ir)))) |}).
Proof.
  unfold main, install, raises.
  destruct (modules_file w) as [content|] eqn:Ef; [destruct (unreadable w) eqn:Eu|].
  { left. split; [left; eauto | reflexivity]. }
  all: destruct (read_modules_list _) as [|m0 ms] eqn:Er;
    [right; left; split; [|auto]; intros [H|[H _]]; [not_read H | now apply H]|].
  all: destruct (select_modules (module_state w) (m0 :: ms)) as [inst missing].
  all: destruct (truthy_str (target_db_name w)) as [db|] eqn:E1;
    [|destruct (truthy_str (pgdatabase w)) as [db|] eqn:E2].
  all: try (destruct (database_error w) eqn:Ed;
            [left; split; [right; split; [discriminate|]; split; [eauto | reflexivity]
                          | reflexivity]|]).
  all: try (destruct inst as [|i0 ir];
            [right; right; right; left;
             split; [intros [H|(_ & _ & H)]; [not_read H | discriminate H]|];
             exists db, missing; auto
            |right; right; right; right;
             split; [intros [H|(_ & _ & H)]; [not_read H | discriminate H]|];
             exists db, i0, ir, missing; auto]).
  all: right; right; left; split; [|split; [discriminate | auto]];
    intros [H|(_ & [[? H]|[? H]] & _)]; [not_read H | discriminate H..].
Qed.

(** X10.  [main] returns 0, 2 or 4 unless an exception leaves it, which
    happens exactly when the list file cannot be read or, modules being
    listed and a database name set, the registry or a search raises.  It
    returns 2 exactly when the file is read, modules are listed and no
    database name is set, and 4 exactly when the installer ran and
    failed; the installer runs on the command built from the database
    name and the comma-joined modules. *)
Theorem exit_codes_of_installer :
  forall w : world,
    (exit_code (main w) = None <-> raises w) /\
    (exit_code (main w) = None \/ exit_code (main w) = Some 0 \/
     exit_code (main w) = Some 2 \/ exit_code (main w) = Some 4) /\
    (exit_code (main w) = Some 2 <->
     ~ raises w /\ read_modules_list (modules_file w) <> [] /\
     truthy_str (target_db_name w) = None /\ truthy_str (pgdatabase w) = None) /\
    (exit_code (main w) = Some 4 <->
     exists cmd, cli_command (main w) = Some cmd /\ run_cli w cmd <> 0) /\
    (forall cmd, cli_command (main w) = Some cmd ->
       exists db_name mods,
         cli_modules (main w) = Some mods /\
         cmd = cli_of db_name (join "," mods) /\
         (truthy_str (target_db_name w) = Some db_name \/
          truthy_str (target_db_name w) = None /\ truthy_str (pgdatabase w) = Some db_name)).
Proof.
  intros w. destruct (installer_cases w) as [[Hr ->]|[[Hn [Hm ->]]|[[Hn (Hm & H1 & H2 & ->)]|
    [[Hn (db & missing & Hdb & ->)]|[Hn (db & i0 & ir & missing & Hdb & ->)]]]]];
    cbn [raised exit_code cli_command cli_modules].
  - split; [tauto|]. split; [auto|]. split; [split; [discriminate | tauto]|].
    split; [split; [discriminate | intros (c & Hc & _); discriminate Hc]|].
    intros c Hc. discriminate Hc.
  - split; [split; [discriminate | tauto]|]. split; [auto|].
    split; [split; [discriminate | tauto]|].
    split; [split; [discriminate | intros (c & Hc & _); discriminate Hc]|].
    intros c Hc. discriminate Hc.
  - split; [split; [discriminate | tauto]|]. split; [auto|].
    split; [tauto|].
    split; [split; [discriminate | intros (c & Hc & _); discriminate Hc]|].
    intros c Hc. discriminate Hc.
  - split; [split; [discriminate | tauto]|]. split; [auto|].
    split; [split; [discriminate|]; intros (_ & _ & E1 & E2);
            destruct Hdb as [Hdb|[_ Hdb]]; congruence|].
    split; [split; [discriminate | intros (c & Hc & _); discriminate Hc]|].
    intros c Hc. discriminate Hc.
  - set (cmd := cli_of db (join "," (sorted (i0 :: ir)))).
    split; [split; [discriminate | tauto]|].
    destruct (Z.eqb_spec (run_cli w cmd) 0) as [E|E].
    + split; [auto|]. split; [split; [discriminate|]; intros (_ & _ & E1 & E2);
                              destruct Hdb as [Hdb|[_ Hdb]]; congruence|].
      split; [split; [discriminate|]; intros (c & [= <-] & Hc); contradiction|].
      intros c [= <-]. exists db, (sorted (i0 :: ir)). auto.
    + split; [auto|]. split; [split; [discriminate|]; intros (_ & _ & E1 & E2);
                              destruct Hdb as [Hdb|[_ Hdb]]; congruence|].
      split; [split; [intros _; exists cmd; auto | reflexivity]|].
      intros c [= <-]. exists db, (sorted (i0 :: ir)). auto.
Qed.

Lemma exit_codes_of_installer_witness :
  exit_code (main {| modules_file := Some sample_file; unreadable := false;
                     target_db_name := Some "dev_db"; pgdatabase := None;
                     database_error := true; module_state := states_crm_installed;
                     run_cli := fun _ => 0 |}) = None.
Proof.
  apply (proj2 (proj1 (exit_codes_of_installer _))).
  right. split; [vm_compute; discriminate|]. split; [left; vm_compute; eauto | reflexivity].
Defined.

End InstallModulesMore.


(** ** odoo/.../bootstrap.py: tokens, groups and the rtlcss tool *)

Module OdooBootstrapMore.
Import PyStr StrFacts OdooBootstrap.

(** The argument of [normalize_tokens]: None, a string or a sequence. *)
Inductive tokens_input :=
| T_none
| T_str (s : string)
| T_seq (items : list string).

(** [normalize_tokens(val)] *)
Definition normalize_tokens (val : tokens_input) : list string :=
  match val with
  | T_none => []
  | T_str raw =>
      if String.eqb raw EmptyString then []
      else filter (fun c => c <> EmptyString)
             (strip <$> split_on ","%char (replace_char ";"%char ","%char raw))
  | T_seq items =>
      strip <$> filter (fun s => s <> EmptyString /\ strip s <> EmptyString) items
  end.

Definition not_separator (c : ascii) : bool :=
  negb (Ascii.eqb c ","%char) && negb (Ascii.eqb c ";"%char).

Example normalize_string :
  normalize_tokens (T_str " internal ; base.group_system,, admin ")
  = ["internal"; "base.group_system"; "admin"].
Proof. vm_compute. reflexivity. Qed.

Example normalize_sequence :
  normalize_tokens (T_seq ["en_US"; "  "; " he_IL "; EmptyString]) = ["en_US"; "he_IL"].
Proof. vm_compute. reflexivity. Qed.

Lemma split_on_all_chars q sep s :
  all_chars q s = true -> Forall (fun t => all_chars q t = true) (split_on sep s).
Proof.
  induction s as [|c s IH]; cbn [split_on all_chars]; intros H.
  - repeat constructor.
  - apply andb_true_iff in H as [Hc H]. specialize (IH H).
    destruct (Ascii.eqb c sep); [constructor; [reflexivity | exact IH]|].
    destruct (split_on sep s) as [|w ws]; [repeat constructor; cbn; now rewrite Hc|].
    apply Forall_cons in IH as [Hw Hws]. constructor; [|exact Hws].
    cbn [all_chars]. now rewrite Hc, Hw.
Qed.

Lemma split_on_no_sep sep s :
  Forall (fun t => all_chars (fun c => negb (Ascii.eqb c sep)) t = true) (split_on sep s).
Proof.
  induction s as [|c s IH]; cbn [split_on].
  - repeat constructor.
  - destruct (Ascii.eqb c sep) eqn:E; [constructor; [reflexivity | exact IH]|].
    destruct (split_on sep s) as [|w ws]; [repeat constructor; cbn; now rewrite E|].
    apply Forall_cons in IH as [Hw Hws]. constructor; [|exact Hws].
    cbn [all_chars]. now rewrite E, Hw.
Qed.

Lemma replace_char_removes a b s :
  a <> b -> all_chars (fun c => negb (Ascii.eqb c a)) (replace_char a b s) = true.
Proof.
  intros Hab. induction s as [|c s IH]; cbn [replace_char all_chars]; [reflexivity|].
  rewrite IH, andb_true_r. destruct (Ascii.eqb_spec c a) as [->|Hc].
  - apply negb_true_iff, Ascii.eqb_neq. congruence.
  - apply negb_true_iff, Ascii.eqb_neq. exact Hc.
Qed.

Lemma all_chars_strip q s : all_chars q s = true -> all_chars q (strip s) = true.
Proof.
  intros H. unfold strip, strip_by.
  now apply ConnectOdooMore.all_chars_lstrip, ConnectOdooMore.all_chars_rstrip.
Qed.

Lemma all_chars_and p q s :
  all_chars p s = true -> all_chars q s = true -> all_chars (fun c => p c && q c) s = true.
Proof.
  induction s as [|c s IH]; cbn [all_chars]; [reflexivity|].
  intros Hp Hq. apply andb_true_iff in Hp as [Hp1 Hp2]. apply andb_true_iff in Hq as [Hq1 Hq2].
  now rewrite Hp1, Hq1, IH.
Qed.

(** Tokens are never empty and never carry surrounding blanks. *)
Lemma normalize_tokens_clean val t :
  t ∈ normalize_tokens val -> t <> EmptyString /\ strip t = t.
Proof.
  destruct val as [|raw|items]; cbn [normalize_tokens]; [intros H; inversion H| |].
  - destruct (String.eqb raw EmptyString); [intros H; inversion H|].
    rewrite list_elem_of_filter, list_elem_of_fmap. intros [Hne (x & -> & _)].
    split; [exact Hne | apply strip_by_idem].
  - rewrite list_elem_of_fmap. intros (x & -> & Hin).
    apply list_elem_of_filter in Hin as [[_ Hne] _].
    split; [exact Hne | apply strip_by_idem].
Qed.

Lemma normalize_clean_list toks :
  (forall t, t ∈ toks -> t <> EmptyString /\ strip t = t) ->
  normalize_tokens (T_seq toks) = toks.
Proof.
  cbn [normalize_tokens]. induction toks as [|t r IH]; intros H; [reflexivity|].
  destruct (H t) as [Hne Hs]; [apply elem_of_cons; auto|].
  rewrite filter_cons_True by (rewrite Hs; auto).
  rewrite fmap_cons, Hs. f_equal. apply IH. intros x Hx. apply H, elem_of_cons. auto.
Qed.

(** X11.  [normalize_tokens] yields tokens that are non-empty and free of
    surrounding blanks; from a string they hold neither comma nor
    semicolon; and normalising its own result again changes nothing. *)
Theorem normalize_tokens_is_clean_and_stable :
  forall val : tokens_input,
    (forall t, t ∈ normalize_tokens val -> t <> EmptyString /\ strip t = t) /\
    (forall raw t, val = T_str raw -> t ∈ normalize_tokens val ->
                   all_chars not_separator t = true) /\
    normalize_tokens (T_seq (normalize_tokens val)) = normalize_tokens val.
Proof.
  intros val. split; [apply normalize_tokens_clean|]. split.
  - intros raw t -> Hin. cbn [normalize_tokens] in Hin.
    destruct (String.eqb raw EmptyString); [inversion Hin|].
    apply list_elem_of_filter in Hin as [_ Hin].
    apply list_elem_of_fmap in Hin as (x & -> & Hx).
    apply all_chars_strip. unfold not_separator. apply all_chars_and.
    + pose proof (split_on_no_sep ","%char (replace_char ";"%char ","%char raw)) as Hf.
      rewrite Forall_forall in Hf. exact (Hf x Hx).
    + pose proof (split_on_all_chars (fun c => negb (Ascii.eqb c ";"%char)) ","%char
                    (replace_char ";"%char ","%char raw)
                    (replace_char_removes ";"%char ","%char raw ltac:(discriminate))) as Hf.
      rewrite Forall_forall in Hf. exact (Hf x Hx).
  - apply normalize_clean_list, normalize_tokens_clean.
Qed.

Lemma normalize_tokens_is_clean_and_stable_witness :
  " admin " <> EmptyString /\
  "admin" ∈ normalize_tokens (T_str " internal ; admin ") /\
  all_chars not_separator "admin" = true.
Proof.
  split; [discriminate|].
  assert (H : "admin" ∈ normalize_tokens (T_str " internal ; admin ")).
  { vm_compute. apply elem_of_cons. right. apply elem_of_cons. left. reflexivity. }
  split; [exact H|].
  exact (proj1 (proj2 (normalize_tokens_is_clean_and_stable (T_str " internal ; admin ")))
           " internal ; admin " "admin" eq_refl H).
Defined.

Lemma token_ids_elem env_ref token id :
  id ∈ token_ids env_ref token <->
  exists xid rec, xid ∈ xmlids_of token /\ env_ref xid = Some rec /\
                  model_name rec = "res.groups" /\ rec_id rec = id.
Proof.
  unfold token_ids. rewrite list_elem_of_omap. split.
  - intros (xid & Hin & H). destruct (env_ref xid) as [rec|] eqn:E; [|discriminate].
    destruct (String.eqb_spec (model_name rec) "res.groups") as [Hm|]; [|discriminate].
    injection H as <-. exists xid, rec. auto.
  - intros (xid & rec & Hin & E & Hm & <-). exists xid. split; [exact Hin|].
    rewrite E, Hm. reflexivity.
Qed.

(** X12.  The ids returned by [resolve_groups] carry no repeats, and an id
    is returned exactly when some token stands for an identifier that
    [env.ref] resolves to a [res.groups] record with that id. *)
Theorem resolved_groups_are_distinct_group_ids :
  forall (env_ref : string -> option ref_record) (tokens : list string),
    NoDup (resolve_groups env_ref tokens).1 /\
    forall id,
      id ∈ (resolve_groups env_ref tokens).1 <->
      exists token xid rec,
        token ∈ tokens /\ xid ∈ xmlids_of token /\ env_ref xid = Some rec /\
        model_name rec = "res.groups" /\ rec_id rec = id.
Proof.
  intros env_ref tokens. unfold resolve_groups.
  destruct tokens as [|t r].
  - cbn [fst]. split; [constructor|]. intros id. split; [intros H; inversion H|].
    intros (token & _ & _ & H & _). inversion H.
  - rewrite resolve_tokens_flat. cbn [fst app]. split; [apply dedupe_NoDup|].
    intros id. rewrite dedupe_elem, list_elem_of_In, in_flat_map. split.
    + intros (token & Hin & Hid). apply list_elem_of_In in Hin, Hid.
      apply token_ids_elem in Hid as (xid & rec & ? & ? & ? & ?).
      exists token, xid, rec. auto.
    + intros (token & xid & rec & Hin & Hx & E & Hm & Hid).
      exists token. split; [apply list_elem_of_In, Hin|].
      apply list_elem_of_In, token_ids_elem. exists xid, rec. auto.
Qed.

End OdooBootstrapMore.


(** ** n8n bootstrap.py: candidate addresses, readiness polling, bounds of [main] *)

Module N8nBootstrapMore.
Import PyStr StrFacts N8nBootstrap.

(** [os.environ.get(key) or fallback] *)
Definition env_or (environ : gmap string string) (key fallback : string) : string :=
  let v := default EmptyString (environ !! key) in
  if String.eqb v EmptyString then fallback else v.

Definition common_fallbacks : list string :=
  ["http://n8n:5678"; "http://localhost:5678"; "http://127.0.0.1:5678"].

(** [_candidate_base_urls()] *)
Definition _candidate_base_urls (environ : gmap string string) : list string :=
  let primary := strip (env_or environ "N8N_URL" "http://n8n:5678") in
  let alts_raw := strip (env_or environ "N8N_ALT_URLS" EmptyString) in
  let candidates :=
    (if String.eqb primary EmptyString then [] else [primary])
    ++ (if String.eqb alts_raw EmptyString then []
        else filter (fun url => url <> EmptyString) (strip <$> split_on ","%char alts_raw))
    ++ common_fallbacks in
  dedupe (rstrip_slash <$> candidates).

Example candidates_default :
  _candidate_base_urls ∅ = common_fallbacks.
Proof. vm_compute. reflexivity. Qed.

Example candidates_with_alternatives :
  _candidate_base_urls
    (<["N8N_URL" := " http://n8n.lan:5678/ "]>
       (<["N8N_ALT_URLS" := "http://n8n:5678/ , ,http://n8n.lan:5678"]> ∅))
  = ["http://n8n.lan:5678"; "http://n8n:5678"; "http://localhost:5678";
     "http://127.0.0.1:5678"].
Proof. vm_compute. reflexivity. Qed.


Lemma dedupe_go_length {A} `{EqDecision A} (l seen : list A) :
  (length (dedupe_go seen l) <= length l)%nat.
Proof.
  revert seen; induction l as [|x l IH]; intros seen; cbn [dedupe_go length]; [lia|].
  case_bool_decide; [specialize (IH seen) | specialize (IH (x :: seen)); cbn [length]]; lia.
Qed.



(** [_is_dns_error(message)] *)
Definition _is_dns_error (message : string) : bool :=
  let msg := lower message in
  contains "temporary failure in name resolution" msg
  || contains "name or service not known" msg
  || contains "nodename nor servname provided" msg
  || contains "getaddrinfo failed" msg
  || contains "[errno -3]" msg
  || contains "[errno -2]" msg.

(** How one [_http_json_get] of the polling loop ends: a decoded reply, an
    [HTTPError], or any other exception with its text. *)
Inductive get_result :=
| Replied (status : Z) (data : json)
| GetHTTPError (code : Z)
| GetFailed (message : string).

(** [last_err]: empty, ["HTTP <code>"], or the text of an exception. *)
Inductive last_error :=
| E_none
| E_http (code : Z)
| E_text (message : string).

Inductive wait_result :=
| Ready (data : list (string * json))
| DnsError (message : string)          (* RuntimeError("DNS error for ...") *)
| NotReady (last_err : last_error).    (* RuntimeError("n8n not ready at ...") *)

(** [_wait_for_ready]: [attempts] are the outcomes of the GETs issued while
    the deadline has not passed, in order. *)
Fixpoint wait_loop (abort_on_dns_failure : bool) (attempts : list get_result)
  (last_err : last_error) : wait_result :=
  match attempts with
  | [] => NotReady last_err
  | a :: rest =>
      match a with
      | Replied status data =>
          if status_in2 200 204 status then
            match data with
            | JObj fields => Ready fields
            | _ => wait_loop abort_on_dns_failure rest last_err
            end
          else wait_loop abort_on_dns_failure rest last_err
      | GetHTTPError code => wait_loop abort_on_dns_failure rest (E_http code)
      | GetFailed message =>
          if abort_on_dns_failure && _is_dns_error message then DnsError message
          else wait_loop abort_on_dns_failure rest (E_text message)
      end
  end.

Definition _wait_for_ready (abort_on_dns_failure : bool) (attempts : list get_result)
  : wait_result :=
  wait_loop abort_on_dns_failure attempts E_none.

(** An attempt that ends the polling with the settings. *)
Definition good_reply (a : get_result) : bool :=
  match a with
  | Replied status (JObj _) => status_in2 200 204 status
  | _ => false
  end.

(** An attempt that ends the polling with a DNS error. *)
Definition dns_abort (abort_on_dns_failure : bool) (a : get_result) : bool :=
  match a with
  | GetFailed message => abort_on_dns_failure && _is_dns_error message
  | _ => false
  end.

Example dns_error_any_case :
  _is_dns_error "<urlopen error [Errno -2] Name or service not known>" = true.
Proof. vm_compute. reflexivity. Qed.

Example polling_skips_failures :
  _wait_for_ready false
    [GetFailed "[Errno -2] Name or service not known"; GetHTTPError 503;
     Replied 200 (JArr []); Replied 200 (JObj [("endpoint", JStr "rest")])]
  = Ready [("endpoint", JStr "rest")].
Proof. vm_compute. reflexivity. Qed.

Lemma wait_loop_ready abort attempts : forall e data,
  wait_loop abort attempts e = Ready data <->
  exists pre status post,
    attempts = pre ++ Replied status (JObj data) :: post /\
    status_in2 200 204 status = true /\
    Forall (fun a => good_reply a = false /\ dns_abort abort a = false) pre.
Proof.
  induction attempts as [|a rest IH]; intros e data; cbn [wait_loop].
  - split; [discriminate|]. intros (pre & s & post & H & _). destruct pre; discriminate H.
  - assert (Hskip : forall e', good_reply a = false -> dns_abort abort a = false ->
              (wait_loop abort rest e' = Ready data <->
               exists pre status post,
                 a :: rest = pre ++ Replied status (JObj data) :: post /\
                 status_in2 200 204 status = true /\
                 Forall (fun a => good_reply a = false /\ dns_abort abort a = false) pre)).
    { intros e' Hg Hd. rewrite IH. split.
      - intros (pre & s & post & -> & Hs & Hpre). exists (a :: pre), s, post.
        repeat split; auto.
      - intros (pre & s & post & Heq & Hs & Hpre). destruct pre as [|b pre].
        + cbn [app] in Heq. injection Heq as ->. cbn [good_reply] in Hg.
          rewrite Hs in Hg. discriminate Hg.
        + cbn [app] in Heq. injection Heq as <- ->. apply Forall_cons in Hpre as [_ Hpre].
          exists pre, s, post. auto. }
    destruct a as [status body|code|message].
    + destruct (status_in2 200 204 status) eqn:Hs.
      * destruct body as [| | | | |fields];
          try (apply Hskip; [cbn [good_reply]; reflexivity | reflexivity]).
        split.
        -- intros [= <-]. exists [], status, rest. repeat split; auto.
        -- intros (pre & s & post & Heq & Hs' & Hpre). destruct pre as [|b pre].
           ++ cbn [app] in Heq. now injection Heq as _ ->.
           ++ cbn [app] in Heq. injection Heq as <- _.
              apply Forall_cons in Hpre as [[Hg _] _]. cbn [good_reply] in Hg.
              rewrite Hs in Hg. discriminate Hg.
      * apply Hskip; [|reflexivity]. cbn [good_reply]. destruct body; auto.
    + apply Hskip; reflexivity.
    + destruct (abort && _is_dns_error message) eqn:Hd.
      * split; [discriminate|]. intros (pre & s & post & Heq & Hs' & Hpre).
        destruct pre as [|b pre]; [discriminate Heq|].
        cbn [app] in Heq. injection Heq as <- _.
        apply Forall_cons in Hpre as [[_ Hn] _]. cbn [dns_abort] in Hn.
        rewrite Hd in Hn. discriminate Hn.
      * apply Hskip; [reflexivity | exact Hd].
Qed.

Lemma wait_loop_no_abort attempts : forall e message,
  wait_loop false attempts e <> DnsError message.
Proof.
  induction attempts as [|a rest IH]; intros e message; cbn [wait_loop]; [discriminate|].
  destruct a as [status body|code|msg]; cbn [andb]; auto.
  destruct (status_in2 200 204 status); auto. destruct body; auto; discriminate.
Qed.

(** X14.  [_wait_for_ready] returns the settings of the first reply with
    status 200 or 204 and an object body, provided no earlier attempt
    aborted the polling with a DNS error; without [abort_on_dns_failure] it
    never ends with the DNS error. *)
Theorem wait_for_ready_takes_first_good_reply :
  forall (abort : bool) (attempts : list get_result),
    (forall data,
        _wait_for_ready abort attempts = Ready data <->
        exists pre status post,
          attempts = pre ++ Replied status (JObj data) :: post /\
          status_in2 200 204 status = true /\
          Forall (fun a => good_reply a = false /\ dns_abort abort a = false) pre) /\
    (abort = false -> forall message, _wait_for_ready abort attempts <> DnsError message).
Proof.
  intros abort attempts. split.
  - intros data. apply wait_loop_ready.
  - intros -> message. apply wait_loop_no_abort.
Qed.

Lemma wait_for_ready_takes_first_good_reply_witness :
  _wait_for_ready false [GetFailed "[Errno -3] Temporary failure in name resolution"]
  <> DnsError "[Errno -3] Temporary failure in name resolution".
Proof.
  exact (proj2 (wait_for_ready_takes_first_good_reply false
                  [GetFailed "[Errno -3] Temporary failure in name resolution"])
           eq_refl "[Errno -3] Temporary failure in name resolution").
Defined.





Definition plain_exit (e : exit) : Prop := e = Exit 0 \/ e = Exit 1.


Lemma fallback_bounds w base paths : forall n,
  (length (fallback_loop w base n paths).2 <= length paths)%nat /\
  (forall url r, (url, r) ∈ (fallback_loop w base n paths).2 -> String.prefix base url = true) /\
  plain_exit (fallback_loop w base n paths).1.
Proof.
  unfold plain_exit.
  induction paths as [|path rest IH]; intros n; cbn [fallback_loop].
  - cbn [fst snd length]. split; [lia|]. split; [intros ? ? H; inversion H|].
    destruct (post_init _); auto.
  - destruct (IH (S n)) as (Hl & Hp & He).
    destruct (fallback_loop w base (S n) rest) as [e t]. cbn [fst snd] in *.
    assert (Hone : forall url r, (url, r) ∈ [(base +:+ path, post w n (base +:+ path))] ->
                                 String.prefix base url = true).
    { intros url r Hin. apply list_elem_of_singleton in Hin. injection Hin as -> _.
      apply prefix_app. }
    assert (Hmore : forall url r, (url, r) ∈ (base +:+ path, post w n (base +:+ path)) :: t ->
                                  String.prefix base url = true).
    { intros url r Hin. apply elem_of_cons in Hin as [Heq|Hin]; [|eauto].
      injection Heq as -> _. apply prefix_app. }
    destruct (post w n (base +:+ path)) as [status body|code dt|];
      repeat (match goal with |- context [if ?c then _ else _] => destruct c end);
      cbn [fst snd length]; (split; [lia|]); split; auto.
Qed.

Lemma primary_bounds w base prefix paths : forall n,
  (length (primary_attempts w base prefix n paths).2 <= length paths + 13)%nat /\
  (forall url r, (url, r) ∈ (primary_attempts w base prefix n paths).2 ->
                 String.prefix base url = true) /\
  plain_exit (primary_attempts w base prefix n paths).1.
Proof.
  unfold plain_exit.
  induction paths as [|path rest IH]; intros n; cbn [primary_attempts].
  - cbn [fst snd length]. split; [lia|]. split; [intros ? ? H; inversion H | auto].
  - destruct (IH (S n)) as (Hl & Hp & He).
    destruct (primary_attempts w base prefix (S n) rest) as [e t]. cbn [fst snd] in *.
    set (url0 := base +:+ prefix +:+ path).
    assert (Hhead : String.prefix base url0 = true) by apply prefix_app.
    assert (Hmore : forall t', (forall url r, (url, r) ∈ t' -> String.prefix base url = true) ->
              forall url r, (url, r) ∈ (url0, post w n url0) :: t' ->
                            String.prefix base url = true).
    { intros t' Ht' url r Hin. apply elem_of_cons in Hin as [Heq|Hin]; [|eauto].
      now injection Heq as -> _. }
    assert (Hnil : forall url (r : post_result), (url, r) ∈ [] -> String.prefix base url = true)
      by (intros ? ? H; inversion H).
    destruct (post w n url0) as [status body|code dt|].
    + destruct (returned_verdict status body); cbn [fst snd length];
        (split; [lia|]); split; auto; first [exact (Hmore _ Hnil) | exact (Hmore _ Hp)].
    + unfold on_http_error.
      pose proof (fallback_bounds w base (dedupe (fallback_candidates prefix)) (S n))
        as (Hfl & Hfp & Hfe).
      pose proof (dedupe_go_length (fallback_candidates prefix) []) as Hd.
      change (dedupe_go [] (fallback_candidates prefix))
        with (dedupe (fallback_candidates prefix)) in Hd.
      cbn [fallback_candidates length] in Hd.
      destruct (fallback_loop w base (S n) (dedupe (fallback_candidates prefix))) as [e' t'].
      cbn [fst snd] in *.
      repeat (match goal with |- context [if ?c then _ else _] => destruct c end);
        cbn [fst snd length]; (split; [lia|]); split; auto;
        first [exact (Hmore _ Hnil) | exact (Hmore _ Hfp)].
    + cbn [fst snd length]. split; [lia|]. split; auto. exact (Hmore _ Hnil).
Qed.

(** X15.  A run of [main] issues at most sixteen POSTs, all of them to
    addresses below the base URL that answered the polling, and ends with
    exit code 0 or 1 unless an exception leaves it, which happens only
    before the first POST. *)
Theorem main_posts_are_bounded_and_local :
  forall w : world,
    (length (main w).2 <= 16)%nat /\
    (forall base url r, ready_base_url w = Some base -> (url, r) ∈ (main w).2 ->
                        String.prefix base url = true) /\
    ((main w).1 = Exit 0 \/ (main w).1 = Exit 1 \/
     ((main w).1 = Uncaught /\ (main w).2 = [])).
Proof.
  intros w. unfold main.
  destruct (ready_base_url w) as [base_url|];
    [|cbn; split; [lia|]; split; [intros ? ? ? H; discriminate H | auto]].
  destruct (settings_payload w) as [settings0|];
    [|cbn; split; [lia|]; split; [intros ? ? ? _ H; inversion H | auto]].
  destruct (user_management (unwrap_data settings0)) as [um|];
    [|cbn; split; [lia|]; split; [intros ? ? ? _ H; inversion H | auto]].
  destruct (owner_flags um);
    [cbn; split; [lia|]; split; [intros ? ? ? _ H; inversion H | auto]|].
  destruct (rest_prefix (unwrap_data settings0)) as [prefix|];
    [|cbn; split; [lia|]; split; [intros ? ? ? _ H; inversion H | auto]].
  destruct (primary_bounds w base_url prefix primary_paths 0) as (Hl & Hp & He).
  cbn [primary_paths length] in Hl. split; [lia|]. split.
  - intros base url r [= <-]. apply Hp.
  - destruct He; auto.
Qed.

Lemma main_posts_are_bounded_and_local_witness :
  String.prefix "http://n8n:5678"
    "http://n8n:5678/rest/user-management/setup" = true.
Proof.
  apply (proj1 (proj2 (main_posts_are_bounded_and_local (world_with [] conflict_on_fallback)))
           "http://n8n:5678" "http://n8n:5678/rest/user-management/setup"
           (RaisedHTTP 409 (Some "Instance owner already setup")) eq_refl).
  vm_compute. apply elem_of_cons; right. apply elem_of_cons; right.
  apply elem_of_cons; left. reflexivity.
Defined.






End N8nBootstrapMore.


(** ** odoo/.../bootstrap.py: making the rtlcss tool available *)

Module OdooBootstrapRtlcss.

Definition CHECK_RTLCSS : string := "rtlcss --version >/dev/null 2>&1".
Definition CHECK_NPM : string := "npm -v >/dev/null 2>&1".
Definition HAS_APT : string := "command -v apt-get >/dev/null 2>&1".
Definition HAS_APK : string := "command -v apk >/dev/null 2>&1".
Definition HAS_DNF : string := "command -v dnf >/dev/null 2>&1".
Definition HAS_YUM : string := "command -v yum >/dev/null 2>&1".
Definition INSTALL_APT : string :=
  "apt-get update -y && apt-get install -y --no-install-recommends nodejs npm".
Definition INSTALL_APK : string := "apk add --no-cache nodejs npm".
Definition INSTALL_DNF : string := "dnf install -y nodejs npm".
Definition INSTALL_YUM : string := "yum install -y nodejs npm".
Definition INSTALL_RTLCSS : string := "npm --silent -g install --unsafe-perm rtlcss".

(** [os.system]: the exit status of a command, which may depend on the
    commands run before it. *)
Definition shell := list string -> string -> Z.

(** Computations that run shell commands, the log of commands threaded
    through. *)
Definition sys (A : Type) : Type := shell -> list string -> A * list string.

#[global] Instance sys_ret : MRet sys := fun A x _ log => (x, log).
#[global] Instance sys_bind : MBind sys :=
  fun A B k m sh log => let '(x, log') := m sh log in k x sh log'.

Definition system (cmd : string) : sys Z := fun sh log => (sh log cmd, log ++ [cmd]).

Definition _ok (cmd : string) : sys bool := st ← system cmd; mret (st =? 0).

Inductive report := Silent | Available | Unavailable.

(** [ensure_rtlcss_installed()] *)
Definition ensure_rtlcss_installed : sys report :=
  present ← _ok CHECK_RTLCSS;
  if present : bool then mret Silent
  else
    npm ← _ok CHECK_NPM;
    _ ← (if npm : bool then mret 0
         else
           apt ← _ok HAS_APT;
           if apt : bool then system INSTALL_APT
           else
             apk ← _ok HAS_APK;
             if apk : bool then system INSTALL_APK
             else
               dnf ← _ok HAS_DNF;
               if dnf : bool then system INSTALL_DNF
               else
                 yum ← _ok HAS_YUM;
                 if yum : bool then system INSTALL_YUM else mret 0);
    npm' ← _ok CHECK_NPM;
    _ ← (if npm' : bool then system INSTALL_RTLCSS else mret 0);
    final ← _ok CHECK_RTLCSS;
    mret (if final : bool then Available else Unavailable).

Definition is_node_install (cmd : string) : bool :=
  bool_decide (cmd ∈ [INSTALL_APT; INSTALL_APK; INSTALL_DNF; INSTALL_YUM]).

(** A container with apk where installing node makes npm work and the npm
    installation makes rtlcss work. *)
Definition alpine : shell := fun log cmd =>
  if String.eqb cmd CHECK_RTLCSS then (if bool_decide (INSTALL_RTLCSS ∈ log) then 0 else 127)
  else if String.eqb cmd CHECK_NPM then (if bool_decide (INSTALL_APK ∈ log) then 0 else 127)
  else if String.eqb cmd HAS_APT then 1
  else 0.

Example alpine_run :
  ensure_rtlcss_installed alpine []
  = (Available, [CHECK_RTLCSS; CHECK_NPM; HAS_APT; HAS_APK; INSTALL_APK; CHECK_NPM;
                 INSTALL_RTLCSS; CHECK_RTLCSS]).
Proof. vm_compute. reflexivity. Qed.

Ltac run_shell sh :=
  repeat match goal with
         | |- context [sh ?log ?cmd =? 0] =>
             let E := fresh "E" in destruct (sh log cmd =? 0) eqn:E; cbn [app]
         end.

Ltac not_in_log H :=
  solve [repeat (apply elem_of_cons in H as [H|H]; [discriminate H|]); inversion H].

(** X17.  [ensure_rtlcss_installed] runs nothing but the version check when
    rtlcss is present; otherwise it runs at most one of the four
    package-manager installations, installs rtlcss through npm only right
    after an [npm -v] that succeeded, and finishes with the version check,
    whose status alone decides the message. *)
Theorem rtlcss_install_is_guarded :
  forall sh : shell,
    let '(rep, log) := ensure_rtlcss_installed sh [] in
    (sh [] CHECK_RTLCSS = 0 -> rep = Silent /\ log = [CHECK_RTLCSS]) /\
    (length (List.filter is_node_install log) <= 1)%nat /\
    (INSTALL_RTLCSS ∈ log ->
     exists pre, log = pre ++ [CHECK_NPM; INSTALL_RTLCSS; CHECK_RTLCSS] /\
                 sh pre CHECK_NPM = 0) /\
    (rep <> Silent ->
     exists pre, log = pre ++ [CHECK_RTLCSS] /\ pre <> [] /\
                 (rep = Available <-> sh pre CHECK_RTLCSS = 0)).
Proof.
  intros sh.
  cbv [ensure_rtlcss_installed _ok system mbind mret sys_bind sys_ret]. cbn [app].
  run_shell sh;
    repeat match goal with H : (_ =? 0) = true |- _ => apply Z.eqb_eq in H end;
    repeat match goal with H : (_ =? 0) = false |- _ => apply Z.eqb_neq in H end.
  all: split; [intros H0; first [split; reflexivity | congruence]|].
  all: split; [vm_compute; lia|].
  all: split;
    [intros Hin;
     first [ not_in_log Hin
           | eexists; split; [reflexivity|]; cbn [app]; assumption
           | match goal with
             | |- exists pre, ?l = _ /\ _ =>
                 exists (removelast (removelast (removelast l)));
                 split; [reflexivity | assumption]
             end ]|].
  all: intros Hrep; try congruence.
  all: match goal with
       | |- exists pre, ?l = _ /\ _ =>
           exists (removelast l); split; [reflexivity|]; split; [discriminate|];
           cbv [removelast]; split; intros; congruence
       end.
Qed.

Lemma rtlcss_install_is_guarded_witness :
  exists pre,
    (ensure_rtlcss_installed alpine []).2 = pre ++ [CHECK_NPM; INSTALL_RTLCSS; CHECK_RTLCSS] /\
    alpine pre CHECK_NPM = 0.
Proof.
  pose proof (rtlcss_install_is_guarded alpine) as H.
  destruct (ensure_rtlcss_installed alpine []) as [rep log] eqn:E.
  destruct H as (_ & _ & H & _). cbn [snd]. apply H.
  apply (f_equal snd) in E. cbn [snd] in E. rewrite <- E. vm_compute.
  do 6 (apply elem_of_cons; right). apply elem_of_cons; left. reflexivity.
Defined.

End OdooBootstrapRtlcss.


(** ** helpdesk_ticket.py: further properties of [write], [_sla_find] and the clean-up *)

Module HelpdeskMore.
Import PyStr StrFacts Helpdesk.

(** *** At most one policy after [write] *)

(** The ticket exists and holds at most one policy. *)
Definition single_sla (d : db) (tid : Z) : Prop :=
  exists t, tickets d !! tid = Some t /\ (length (sla_ids t) <= 1)%nat.

Definition keep_first (target : Z) : list (field * value) :=
  [(F_sla_ids, V_commands [Tuple [I_int 6; I_int 0; I_ids [target]]])].

Lemma assign_present vals self : forall m m',
  assign m self vals = Ok m' ->
  (forall tid, tid ∈ self -> is_Some (m' !! tid)) /\
  (forall tid, is_Some (m !! tid) -> is_Some (m' !! tid)).
Proof.
  induction self as [|x rest IH]; intros m m' H; cbn [assign] in H.
  - injection H as <-. split; [intros tid Hin; inversion Hin | auto].
  - destruct (m !! x) as [t|] eqn:Ex; [|discriminate H].
    destruct (set_fields t vals) as [t'|]; [|discriminate H].
    destruct (IH _ _ H) as [Hin Hkeep].
    assert (Hmono : forall tid, is_Some (m !! tid) -> is_Some (m' !! tid)).
    { intros tid Hs. apply Hkeep. destruct (decide (tid = x)) as [->|Hne].
      - rewrite lookup_insert_eq. eauto.
      - rewrite lookup_insert_ne by auto. exact Hs. }
    split; [|exact Hmono].
    intros tid Ht. apply elem_of_cons in Ht as [->|Ht]; [|auto].
    apply Hmono. rewrite Ex. eauto.
Qed.

Lemma super_write_tickets base apply_slas d self vals d1 :
  super_write base apply_slas d self vals = Ok d1 ->
  assign (tickets d) self vals = Ok (tickets d1).
Proof.
  unfold super_write, mbind, result_bind, bind. intros H.
  destruct (assign (tickets d) self vals) as [m| |]; try discriminate H.
  destruct (constrained vals && _); [discriminate H|].
  injection H as <-. destruct (touches_trigger base vals); reflexivity.
Qed.

(** Writing the first policy back always succeeds on a ticket that
    exists, and changes nothing but that ticket's policies. *)
Lemma keep_first_write base apply_slas d tid t target :
  tickets d !! tid = Some t ->
  exists d' t', super_write base apply_slas d [tid] (keep_first target) = Ok d' /\
                tickets d' = <[tid := t']> (tickets d) /\ sla_ids t' = [target].
Proof.
  intros Ht. unfold super_write, keep_first, mbind, result_bind, bind.
  cbn [assign]. rewrite Ht.
  assert (Hset : exists t', set_fields t
                   [(F_sla_ids, V_commands [Tuple [I_int 6; I_int 0; I_ids [target]]])] = Some t'
                 /\ sla_ids t' = [target]).
  { destruct t. cbn [set_fields set_field many2many_of mbind option_bind].
    unfold dedupe. cbn [dedupe_go]. rewrite bool_decide_eq_false_2 by apply not_elem_of_nil.
    cbn [dedupe_go]. eexists. split; reflexivity. }
  destruct Hset as (t' & -> & Hs).
  replace (constrained [(F_sla_ids, V_commands [Tuple [I_int 6; I_int 0; I_ids [target]]])])
    with false by reflexivity.
  cbn [andb]. eexists _, t'. split; [reflexivity|]. split; [|exact Hs].
  destruct (touches_trigger base _); reflexivity.
Qed.

Lemma compress_slas_keeps base apply_slas self : forall d,
  (forall tid, is_Some (tickets d !! tid) ->
               is_Some (tickets (compress_slas base apply_slas d self) !! tid)) /\
  (forall tid, single_sla d tid -> single_sla (compress_slas base apply_slas d self) tid).
Proof.
  induction self as [|x rest IH]; intros d; cbn [compress_slas]; [auto|].
  destruct (tickets d !! x) as [t|] eqn:Ex; [|auto].
  destruct (sla_ids t) as [|target [|y more]] eqn:Es; try apply IH.
  destruct (keep_first_write base apply_slas d x t target Ex) as (d' & t' & Hw & Ht' & Hs').
  change [(F_sla_ids, V_commands [Tuple [I_int 6; I_int 0; I_ids [target]]])]
    with (keep_first target).
  rewrite Hw. destruct (IH d') as [Hp Hg]. split.
  - intros tid Hs. apply Hp. rewrite Ht'. destruct (decide (tid = x)) as [->|Hne].
    + rewrite lookup_insert_eq. eauto.
    + rewrite lookup_insert_ne by auto. exact Hs.
  - intros tid (t0 & Ht0 & Hl). apply Hg. unfold single_sla. rewrite Ht'.
    destruct (decide (tid = x)) as [->|Hne].
    + rewrite lookup_insert_eq. exists t'. rewrite Hs'. cbn [length]. auto.
    + rewrite lookup_insert_ne by auto. eauto.
Qed.

Lemma compress_slas_single base apply_slas self : forall d,
  (forall tid, tid ∈ self -> is_Some (tickets d !! tid)) ->
  forall tid, tid ∈ self -> single_sla (compress_slas base apply_slas d self) tid.
Proof.
  induction self as [|x rest IH]; intros d Hall tid Hin; [inversion Hin|].
  cbn [compress_slas].
  destruct (Hall x) as [t Ex]; [apply elem_of_cons; auto|]. rewrite Ex.
  assert (Hrest : forall d0, (forall y, is_Some (tickets d !! y) -> is_Some (tickets d0 !! y)) ->
                             single_sla d0 x ->
                             single_sla (compress_slas base apply_slas d0 rest) tid).
  { intros d0 Hmono Hx. apply elem_of_cons in Hin as [->|Hin].
    - apply compress_slas_keeps, Hx.
    - apply IH; [|exact Hin]. intros y Hy. apply Hmono, Hall, elem_of_cons. auto. }
  destruct (sla_ids t) as [|target [|y more]] eqn:Es.
  - apply Hrest; [auto|]. exists t. rewrite Es. cbn [length]. auto.
  - apply Hrest; [auto|]. exists t. rewrite Es. cbn [length]. auto.
  - destruct (keep_first_write base apply_slas d x t target Ex) as (d' & t' & Hw & Ht' & Hs').
    change [(F_sla_ids, V_commands [Tuple [I_int 6; I_int 0; I_ids [target]]])]
      with (keep_first target).
    rewrite Hw. apply Hrest.
    + intros z Hz. rewrite Ht'. destruct (decide (z = x)) as [->|Hne].
      * rewrite lookup_insert_eq. eauto.
      * rewrite lookup_insert_ne by auto. exact Hz.
    + exists t'. rewrite Ht', lookup_insert_eq, Hs'. cbn [length]. auto.
Qed.

(** X18.  After a [write] that returns, every written ticket holds at most
    one policy, whatever the values written. *)
Theorem write_leaves_one_policy_at_most :
  forall (base : list field) (extra : ticket -> Z -> sla -> bool)
         (apply_slas : db -> list Z -> gmap Z sla_status)
         (d : db) (self : list Z) (vals : list (field * value)) (d' : db),
    write base extra apply_slas d self vals = Ok d' ->
    forall tid, tid ∈ self ->
      exists t, tickets d' !! tid = Some t /\ (length (sla_ids t) <= 1)%nat.
Proof.
  intros base extra apply_slas d self vals d' Hw tid Hin.
  unfold write, mbind, result_bind, bind in Hw.
  destruct (write_prepare d self vals) as [vals'| |]; try discriminate Hw.
  destruct (super_write base apply_slas d self vals') as [d1| |] eqn:Es; try discriminate Hw.
  injection Hw as <-. rewrite cleanup_tickets.
  apply compress_slas_single; [|exact Hin].
  apply (assign_present vals' self (tickets d) (tickets d1)).
  now apply super_write_tickets with (base := base) (apply_slas := apply_slas).
Qed.

Lemma write_leaves_one_policy_at_most_witness :
  match write base_triggers0 no_extra keep_statuses (sample_db [20; 21; 22] false) [1]
          [(F_priority, V_str "2")] with
  | Ok d' => exists t, tickets d' !! 1 = Some t /\ (length (sla_ids t) <= 1)%nat
  | _ => False
  end.
Proof.
  destruct (write base_triggers0 no_extra keep_statuses (sample_db [20; 21; 22] false) [1]
              [(F_priority, V_str "2")]) as [d'| |] eqn:E;
    [|vm_compute in E; discriminate E..].
  apply (write_leaves_one_policy_at_most _ _ _ _ _ _ _ E 1).
  apply list_elem_of_singleton. reflexivity.
Defined.

Example write_keeps_first_of_three :
  match write base_triggers0 no_extra keep_statuses (sample_db [20; 21; 22] false) [1]
          [(F_priority, V_str "2")] with
  | Ok d' => sla_ids <$> tickets d' !! 1 = Some [20]
  | _ => False
  end.
Proof. vm_compute. reflexivity. Qed.

(** *** The policies [_sla_find] matches and the domain of the form *)

Lemma overlaps_comm a b : overlaps a b = overlaps b a.
Proof.
  destruct (overlaps a b) eqn:E1, (overlaps b a) eqn:E2; try reflexivity.
  - apply overlaps_spec in E1 as (x & Ha & Hb).
    assert (H : overlaps b a = true) by (apply overlaps_spec; eauto). congruence.
  - apply overlaps_spec in E2 as (x & Ha & Hb).
    assert (H : overlaps a b = true) by (apply overlaps_spec; eauto). congruence.
Qed.

Lemma overlaps_nil_l b : overlaps [] b = false.
Proof. reflexivity. Qed.

(** The criteria of the two domains, read off for a ticket without
    policies attached by hand that has not opted out. *)
Definition category_ok (d : db) (t : ticket) (s : sla) : bool :=
  match category_id t with
  | Some c => is_nil (category_ids s) || overlaps (category_ids s) (parent_of d c)
  | None => is_nil (category_ids s)
  end.

Lemma form_domain_eval d t id s :
  sla_opt_out t = false ->
  eval_domain (_onchange_sla_ids_domain d t) id s
  = team_fits t s && priority_fits t s && stage_fits_onchange d t s
    && category_ok d t s && tags_fit_onchange t s.
Proof.
  intros Ho. unfold _onchange_sla_ids_domain, category_clause, team_fits, priority_fits,
    stage_fits_onchange, tags_fit_onchange, category_ok, eval_domain.
  rewrite Ho.
  destruct (team_id t) as [tm|], (stage_id t) as [st|], (category_id t) as [c|],
    (tag_ids t) as [|g gs];
    cbn [app foldr eval_step eval_leaf forallb id_value];
    rewrite ?andb_true_r; destruct (sla_team_id s) as [x|];
    cbn [orb andb]; rewrite ?andb_true_r, ?andb_assoc; reflexivity.
Qed.

Lemma find_domain_eval d t id s :
  sla_ids t = [] ->
  eval_domain (base_domain d t) id s
  = team_fits t s && priority_fits t s && (stage_sequence d t <=? sla_stage_sequence s)
    && category_ok d t s.
Proof.
  intros Hs. unfold base_domain, category_clause, team_fits, priority_fits,
    category_ok, eval_domain.
  rewrite Hs.
  destruct (team_id t) as [tm|], (category_id t) as [c|];
    cbn [app foldr eval_step eval_leaf forallb id_value];
    rewrite ?andb_true_r; destruct (sla_team_id s) as [x|];
    cbn [orb andb]; rewrite ?andb_true_r, ?andb_assoc; reflexivity.
Qed.

Lemma tags_fit_same t s : tags_fit_find t s = tags_fit_onchange t s.
Proof.
  unfold tags_fit_find, tags_fit_onchange. rewrite app_nil_r, overlaps_comm.
  destruct (tag_ids t) as [|g gs]; [|reflexivity].
  now rewrite overlaps_comm, overlaps_nil_l, orb_false_r.
Qed.

Lemma stage_fits_weaker d t s :
  (stage_sequence d t <=? sla_stage_sequence s) = true -> stage_fits_onchange d t s = true.
Proof. unfold stage_fits_onchange. destruct (stage_id t); auto. Qed.

(** X19.  For a single ticket of an SLA team without policies attached by
    hand, every policy [_sla_find] matches is one the form's domain offers;
    and when the ticket has a stage and the base model adds no restriction,
    the two select the same policies. *)
Theorem found_policies_are_offered :
  forall (base : list field) (extra : ticket -> Z -> sla -> bool)
         (d : db) (tid : Z) (t : ticket),
    tickets d !! tid = Some t ->
    sla_opt_out t = false -> ticket_uses_sla d t = true -> sla_ids t = [] ->
    (forall id, id ∈ allowed base extra d [tid] tid ->
                exists s, slas d !! id = Some s /\
                          eval_domain (_onchange_sla_ids_domain d t) id s = true) /\
    (is_Some (stage_id t) -> (forall id s, extra t id s = true) ->
     forall id, id ∈ allowed base extra d [tid] tid <->
                exists s, slas d !! id = Some s /\
                          eval_domain (_onchange_sla_ids_domain d t) id s = true).
Proof.
  intros base extra d tid t Ht Ho Hu Hs.
  assert (Hgm : forall id s,
             group_matches extra d
               {| g_key := _generate_key base t; g_tickets := [tid]; g_first := t |} id s
             = team_fits t s && priority_fits t s
               && (stage_sequence d t <=? sla_stage_sequence s)
               && category_ok d t s && extra t id s && tags_fit_onchange t s).
  { intros id s. unfold group_matches. cbn [g_first g_tickets].
    rewrite (find_domain_eval d t id s Hs), <- tags_fit_same. unfold tags_fit_find, group_tags.
    cbn [flat_map]. now rewrite Ht. }
  split.
  - intros id Hin. rewrite (allowed_single base extra d tid t Ht Ho Hu) in Hin.
    apply search_slas_elem in Hin as (s & Hl & Hm). exists s. split; [exact Hl|].
    rewrite Hgm in Hm. rewrite (form_domain_eval d t id s Ho).
    repeat (apply andb_true_iff in Hm as [Hm ?]).
    rewrite stage_fits_weaker by assumption.
    repeat (apply andb_true_iff; split); auto.
  - intros [st Hst] Hex id. rewrite (allowed_single base extra d tid t Ht Ho Hu).
    rewrite search_slas_elem.
    split; intros (s & Hl & Hm); exists s; (split; [exact Hl|]).
    + rewrite Hgm in Hm. rewrite (form_domain_eval d t id s Ho).
      repeat (apply andb_true_iff in Hm as [Hm ?]).
      rewrite stage_fits_weaker by assumption.
      repeat (apply andb_true_iff; split); auto.
    + rewrite Hgm, Hex, andb_true_r. rewrite (form_domain_eval d t id s Ho) in Hm.
      unfold stage_fits_onchange in Hm. rewrite Hst in Hm. exact Hm.
Qed.

Lemma found_policies_are_offered_witness :
  exists s, slas (sample_db [] false) !! 21 = Some s /\
            eval_domain (_onchange_sla_ids_domain (sample_db [] false)
                           (sample_ticket [] false)) 21 s = true.
Proof.
  apply (proj1 (found_policies_are_offered base_triggers0 no_extra (sample_db [] false) 1
                  (sample_ticket [] false) eq_refl eq_refl eq_refl eq_refl) 21).
  apply (bool_decide_unpack _). vm_compute. exact I.
Defined.

(** *** What [write] and [create] change in [vals] *)

Lemma vals_get_app_other vals f v g :
  g <> f -> vals_get (vals ++ [(f, v)]) g = vals_get vals g.
Proof.
  intros Hne. induction vals as [|[k x] r IH]; cbn [app vals_get].
  - rewrite bool_decide_eq_false_2 by congruence. reflexivity.
  - case_bool_decide; [reflexivity | exact IH].
Qed.

Lemma vals_get_app_new vals f v :
  vals_get vals f = None -> vals_get (vals ++ [(f, v)]) f = Some v.
Proof.
  induction vals as [|[k x] r IH]; cbn [app vals_get]; intros H.
  - rewrite bool_decide_eq_true_2 by reflexivity. reflexivity.
  - case_bool_decide; [discriminate H | exact (IH H)].
Qed.

Lemma vals_get_set_other vals f v g :
  g <> f -> vals_get (vals_set vals f v) g = vals_get vals g.
Proof.
  intros Hne. unfold vals_set. destruct (vals_has vals f); [|now apply vals_get_app_other].
  induction vals as [|[k x] r IH]; [reflexivity|]. cbn [map vals_get fst].
  destruct (decide (k = f)) as [->|Hk].
  - rewrite bool_decide_eq_true_2 by reflexivity. cbn [vals_get].
    rewrite !bool_decide_eq_false_2 by congruence. exact IH.
  - rewrite (bool_decide_eq_false_2 (k = f)) by exact Hk. cbn [vals_get].
    case_bool_decide; [reflexivity | exact IH].
Qed.

Lemma vals_get_set_same vals f v : vals_get (vals_set vals f v) f = Some v.
Proof.
  unfold vals_set, vals_has. destruct (vals_get vals f) as [x|] eqn:E.
  - induction vals as [|[k y] r IH]; [discriminate E|]. cbn [map vals_get fst] in *.
    destruct (decide (k = f)) as [->|Hk].
    + rewrite bool_decide_eq_true_2 by reflexivity. cbn [vals_get].
      rewrite bool_decide_eq_true_2 by reflexivity. reflexivity.
    + rewrite (bool_decide_eq_false_2 (k = f)) in * by exact Hk. cbn [vals_get].
      rewrite (bool_decide_eq_false_2 (k = f)) by exact Hk. exact (IH E).
  - now apply vals_get_app_new.
Qed.

Lemma vals_has_set_other vals f v g :
  g <> f -> vals_has (vals_set vals f v) g = vals_has vals g.
Proof. intros H. unfold vals_has. now rewrite vals_get_set_other. Qed.

Lemma write_prepare_other d self vals vals' g :
  write_prepare d self vals = Ok vals' ->
  g <> F_team_id -> g <> F_user_id -> vals_get vals' g = vals_get vals g.
Proof.
  unfold write_prepare, mbind, result_bind, bind. intros H Ht Hu.
  repeat case_match; simplify_eq; rewrite ?vals_get_set_other by auto; auto.
Qed.

Lemma write_prepare_keeps_user d self vals vals' :
  write_prepare d self vals = Ok vals' ->
  vals_has vals F_user_id = true -> vals_get vals' F_user_id = vals_get vals F_user_id.
Proof.
  unfold write_prepare, mbind, result_bind, bind. intros H Hu.
  repeat case_match; simplify_eq;
    rewrite ?vals_has_set_other in * by discriminate; try congruence;
    rewrite ?vals_get_set_other by discriminate; auto.
Qed.

Lemma write_prepare_team d self vals vals' cid c tm :
  write_prepare d self vals = Ok vals' ->
  vals_get vals F_category_id = Some (V_int cid) -> cid <> 0 ->
  categories d !! cid = Some c -> cat_team_id c = Some tm ->
  vals_get vals' F_team_id = Some (V_int tm).
Proof.
  unfold write_prepare. intros H Hv Hne Hc Htm. rewrite Hv in H.
  cbn [value_truthy] in H. rewrite (proj2 (Z.eqb_neq cid 0) Hne) in H. cbn [negb] in H.
  unfold mbind at 1, result_bind, bind in H. cbn [id_of] in H. rewrite Hc, Htm in H.
  unfold mbind at 1, result_bind, bind in H.
  pose proof (vals_get_set_same vals F_team_id (V_int tm)) as Hs.
  unfold mbind, result_bind, bind in H.
  repeat case_match; simplify_eq; rewrite ?vals_get_set_other by discriminate; auto.
Qed.

(** X20.  [write] changes [vals] only under [team_id] and [user_id]; it
    never replaces an assignee given by the caller; without a
    [category_id] key it changes nothing; and a category with a team of
    its own decides [team_id], whatever the caller passed. *)
Theorem write_only_routes_team_and_user :
  forall (d : db) (self : list Z) (vals vals' : list (field * value)),
    write_prepare d self vals = Ok vals' ->
    (forall g, g <> F_team_id -> g <> F_user_id -> vals_get vals' g = vals_get vals g) /\
    (vals_has vals F_user_id = true -> vals_get vals' F_user_id = vals_get vals F_user_id) /\
    (vals_has vals F_category_id = false -> vals' = vals) /\
    (forall cid c tm,
        vals_get vals F_category_id = Some (V_int cid) -> cid <> 0 ->
        categories d !! cid = Some c -> cat_team_id c = Some tm ->
        vals_get vals' F_team_id = Some (V_int tm)).
Proof.
  intros d self vals vals' H. split; [|split; [|split]].
  - intros g. now apply write_prepare_other with (d := d) (self := self).
  - now apply write_prepare_keeps_user with (d := d) (self := self).
  - intros Hc. unfold write_prepare, vals_has in *.
    destruct (vals_get vals F_category_id); [discriminate Hc|]. now injection H as <-.
  - intros cid c tm. now apply write_prepare_team with (self := self).
Qed.

Lemma write_only_routes_team_and_user_witness :
  match write_prepare (routed_db None) [1] [(F_category_id, V_int 5); (F_team_id, V_int 1)] with
  | Ok vals' => vals_get vals' F_team_id = Some (V_int 2)
  | _ => False
  end.
Proof.
  destruct (write_prepare (routed_db None) [1]
              [(F_category_id, V_int 5); (F_team_id, V_int 1)]) as [vals'| |] eqn:E;
    [|vm_compute in E; discriminate E..].
  refine (proj2 (proj2 (proj2 (write_only_routes_team_and_user _ _ _ _ E))) 5
            {| cat_team_id := Some 2; cat_parent_id := None; cat_user_id := Some 8 |} 2
            eq_refl _ _ eq_refl); [lia | vm_compute; reflexivity].
Defined.

End HelpdeskMore.


(** ** connect-odoo.py: what a run of [main] commits *)

Module ConnectOdooMain.
Import PyStr StrFacts ConnectOdooMore.

(** The key table after [_ensure_api_key]: one record more when it reports
    a creation, the same table otherwise. *)
Definition grows_by_created (keys : list apikey) (r : option (bool * string) * list apikey)
  : Prop :=
  match r with
  | (Some (true, _), keys') => exists k, keys' = keys ++ [k]
  | (_, keys') => keys' = keys
  end.

Lemma generate_path_growth m keys user_id purpose :
  grows_by_created keys (generate_path m keys user_id purpose).
Proof.
  pose proof (generate_path_adds_at_most_one m keys user_id purpose) as Hg.
  unfold grows_by_created.
  destruct (generate_path m keys user_id purpose) as [[[[] v]|] keys']; try exact Hg.
  destruct Hg as (k & -> & _). eauto.
Qed.

Lemma ensure_api_key_growth m keys user_id purpose preferred_key :
  grows_by_created keys (_ensure_api_key m keys user_id purpose preferred_key).
Proof.
  unfold _ensure_api_key.
  pose proof (generate_path_growth m keys user_id purpose) as Hg.
  destruct (has_model m); cbn [negb]; [|reflexivity].
  destruct preferred_key as [pk|]; [|exact Hg].
  destruct (String.eqb pk EmptyString); [exact Hg|].
  unfold create_key.
  destruct (accepts m keys {| k_user_id := user_id; k_key := Some pk; k_note := purpose |});
    [cbn; eauto|].
  destruct (accepts m keys {| k_user_id := user_id; k_key := Some pk;
                              k_note := purpose +:+ "-file" |});
    [cbn; eauto | exact Hg].
Qed.

Definition at_most_one_more (keys keys' : list apikey) : Prop :=
  keys' = keys \/ exists k, keys' = keys ++ [k].

Lemma growth_at_most_one keys r : grows_by_created keys r -> at_most_one_more keys r.2.
Proof.
  unfold grows_by_created, at_most_one_more. destruct r as [[[[] v]|] keys']; cbn [snd]; auto.
Qed.

(** X21.  A run of [main] appends at most one API key record and leaves
    the existing ones as they are; unless it returns 0 it commits nothing
    (parameters, users and keys are as before); and it returns 1 exactly
    when the database name is known and opening the registry failed with
    a message that does not say "does not exist". *)
Theorem run_commits_one_key_at_most :
  forall w : world,
    at_most_one_more (keys w) (f_keys (main w)) /\
    (exit_code (main w) <> Some 0 ->
     f_icp (main w) = icp w /\ f_users (main w) = users w /\ f_keys (main w) = keys w) /\
    (exit_code (main w) = Some 1 <->
     _resolve_db_name (environ w) <> EmptyString /\
     exists msg, registry_error w = Some msg /\
                 contains "does not exist" (lower msg) = false).
Proof.
  intros w. unfold main.
  destruct (String.eqb_spec (_resolve_db_name (environ w)) EmptyString) as [Edb|Edb].
  { rewrite Edb. cbn. split; [left; reflexivity|]. split; [congruence|].
    split; [discriminate | intros [H _]; contradiction]. }
  assert (Hne : negb (nonempty (_resolve_db_name (environ w))) = false).
  { unfold nonempty. apply negb_false_iff, negb_true_iff, String.eqb_neq, Edb. }
  rewrite Hne. clear Hne.
  destruct (registry_error w) as [msg|].
  { cbn [rolled_back exit_code f_icp f_users f_keys]. split; [left; reflexivity|].
    split; [auto|]. destruct (contains "does not exist" (lower msg)) eqn:Ec.
    - split; [discriminate|]. intros (_ & m & [= <-] & H). congruence.
    - split; [eauto | reflexivity]. }
  destruct (ConnectOdoo._ensure_param _ _ _) as [changed icp1].
  destruct (_ensure_user_with_groups _ _ _ _ _) as [uid users1].
  set (cached := nonempty _ && nonempty _).
  set (secret := if cached then _ else _).
  destruct (nonempty secret).
  - pose proof (ensure_api_key_growth (key_rules w) (keys w) uid "n8n" (Some secret)) as Hg.
    apply growth_at_most_one in Hg.
    destruct (_ensure_api_key (key_rules w) (keys w) uid "n8n" (Some secret))
      as [[[c v]|] keys1]; cbn [snd] in Hg;
      cbn [rolled_back exit_code f_icp f_users f_keys].
    + split; [exact Hg|]. split; [congruence|].
      split; [discriminate | intros (_ & m & Hm & _); discriminate Hm].
    + split; [left; reflexivity|]. split; [auto|].
      split; [discriminate | intros (_ & m & Hm & _); discriminate Hm].
  - pose proof (ensure_api_key_growth (key_rules w) (keys w) uid "n8n" None) as Hg.
    destruct (_ensure_api_key (key_rules w) (keys w) uid "n8n" None)
      as [[[created_key key_val]|] keys1] eqn:E.
    2:{ cbn [rolled_back exit_code f_icp f_users f_keys]. split; [left; reflexivity|].
        split; [auto|]. split; [discriminate | intros (_ & m & Hm & _); discriminate Hm]. }
    destruct (created_key && nonempty key_val) eqn:Ecv.
    + cbn [exit_code f_keys]. split; [exact (growth_at_most_one _ _ Hg)|].
      split; [congruence|]. split; [discriminate | intros (_ & m & Hm & _); discriminate Hm].
    + destruct (negb created_key && cached) eqn:Enc.
      * assert (created_key = false) as -> by (destruct created_key; [discriminate Enc | reflexivity]).
        cbn [grows_by_created] in Hg. subst keys1.
        pose proof (ensure_api_key_growth (key_rules w) (keys w) uid (alt_purpose w) None) as Hg2.
        apply growth_at_most_one in Hg2.
        destruct (_ensure_api_key (key_rules w) (keys w) uid (alt_purpose w) None)
          as [[[c2 v2]|] keys2]; cbn [snd] in Hg2; cbn [exit_code f_keys];
          (split; [exact Hg2|]); (split; [congruence|]);
          (split; [discriminate | intros (_ & m & Hm & _); discriminate Hm]).
      * cbn [exit_code f_keys]. split; [exact (growth_at_most_one _ _ Hg)|].
        split; [congruence|].
        split; [discriminate | intros (_ & m & Hm & _); discriminate Hm].
Qed.

Lemma run_commits_one_key_at_most_witness :
  let w := {| environ := list_to_map [("TARGET_DB_NAME", "shop_db")];
              registry_error := Some "connection refused";
              icp := ∅; users := [admin_row]; keys := []; key_rules := unique_notes;
              fs := sample_files; env_ref := sample_refs;
              alt_purpose := "n8n-1700000000" |} in
  f_users (main w) = [admin_row].
Proof.
  cbv zeta.
  refine (proj1 (proj2 (proj1 (proj2 (run_commits_one_key_at_most _)) _))).
  vm_compute. discriminate.
Defined.

End ConnectOdooMain.


(** ** helpdesk_ticket.py: the branch shown as "registry-name" *)

Module HelpdeskBranch.
Import PyStr StrFacts.

(** The fields of [res.company] the two methods read and write; [None] is
    the False of an empty Char field. *)
Record company := {
  company_registry : option string;
  name : option string
}.

(** [x or ''] *)
Definition or_empty (o : option string) : string := default EmptyString o.

(** [s.split(sep, 1)[1]]: the part after the first [sep]. *)
Fixpoint after_first (sep : ascii) (s : string) : string :=
  match s with
  | EmptyString => EmptyString
  | String c r => if Ascii.eqb c sep then r else after_first sep r
  end.

(** [_compute_branch_display_name] on one ticket, given its branch. *)
Definition _compute_branch_display_name (branch_id : option company) : option string :=
  match branch_id with
  | Some b =>
      let registry := strip (or_empty (company_registry b)) in
      let nm := or_empty (name b) in
      Some (if String.eqb registry EmptyString then nm else registry +:+ "-" +:+ nm)
  | None => None
  end.

(** [_inverse_branch_display_name] on one ticket: the branch company as the
    method leaves it. *)
Definition _inverse_branch_display_name (branch_id : option company)
  (branch_display_name : option string) : option company :=
  match branch_id with
  | None => None
  | Some b =>
      let value := strip (or_empty branch_display_name) in
      if String.eqb value EmptyString then Some b
      else
        let '(registry_part, name_part) :=
          if contains "-" value
          then (strip (before_first "-"%char value), strip (after_first "-"%char value))
          else (EmptyString, value) in
        let write_registry := negb (String.eqb registry_part (or_empty (company_registry b))) in
        let write_name := negb (String.eqb name_part EmptyString)
                          && negb (String.eqb name_part (or_empty (name b))) in
        Some {| company_registry := if write_registry then Some registry_part
                                    else company_registry b;
                name := if write_name then Some name_part else name b |}
  end.

Example display_of_registered_branch :
  _compute_branch_display_name
    (Some {| company_registry := Some " 5140 "; name := Some "Haifa" |}) = Some "5140-Haifa".
Proof. reflexivity. Qed.

Example edit_renames_branch :
  _inverse_branch_display_name
    (Some {| company_registry := Some "5140"; name := Some "Haifa" |}) (Some " 5140 - Haifa Port ")
  = Some {| company_registry := Some "5140"; name := Some "Haifa Port" |}.
Proof. vm_compute. reflexivity. Qed.

(** Without the conditions of the round trip the display does not read
    back: a dash in the registry, or in the name of a branch without
    registry, moves the split. *)
Example dash_in_registry_moves_the_split :
  let b := {| company_registry := Some "51-40"; name := Some "Haifa" |} in
  _inverse_branch_display_name (Some b) (_compute_branch_display_name (Some b))
  = Some {| company_registry := Some "51"; name := Some "40-Haifa" |}.
Proof. vm_compute. reflexivity. Qed.

Example dash_in_name_becomes_registry :
  let b := {| company_registry := None; name := Some "Tel-Aviv" |} in
  _inverse_branch_display_name (Some b) (_compute_branch_display_name (Some b))
  = Some {| company_registry := Some "Tel"; name := Some "Aviv" |}.
Proof. vm_compute. reflexivity. Qed.







End HelpdeskBranch.


(** ** helpdesk_ticket.py: the onchange on the category (on the form's record) *)

Module HelpdeskOnchange.
Import PyStr Helpdesk.

Definition with_team (t : ticket) (tm : Z) : ticket :=
  {| name := name t; category_id := category_id t; team_id := Some tm; user_id := user_id t;
     priority := priority t; stage_id := stage_id t; tag_ids := tag_ids t;
     partner_id := partner_id t; company_id := company_id t; sla_ids := sla_ids t;
     sla_recompute_bump := sla_recompute_bump t; sla_opt_out := sla_opt_out t |}.

Definition with_user (t : ticket) (u : option Z) : ticket :=
  {| name := name t; category_id := category_id t; team_id := team_id t; user_id := u;
     priority := priority t; stage_id := stage_id t; tag_ids := tag_ids t;
     partner_id := partner_id t; company_id := company_id t; sla_ids := sla_ids t;
     sla_recompute_bump := sla_recompute_bump t; sla_opt_out := sla_opt_out t |}.

Definition with_slas (t : ticket) (ids : list Z) : ticket :=
  {| name := name t; category_id := category_id t; team_id := team_id t;
     user_id := user_id t; priority := priority t; stage_id := stage_id t;
     tag_ids := tag_ids t; partner_id := partner_id t; company_id := company_id t;
     sla_ids := ids; sla_recompute_bump := sla_recompute_bump t;
     sla_opt_out := sla_opt_out t |}.

(** [category_user if (category_user and category_user in
    target_team.member_ids) else False] *)
Definition category_user (c : category) (r : team) : option Z :=
  match cat_user_id c with
  | Some u => if bool_decide (u ∈ member_ids r) then Some u else None
  | None => None
  end.

(** [search([('category_ids', 'in', ancestors)])] on [helpdesk.sla] *)
Definition default_slas (d : db) (cid : Z) : list Z :=
  search_slas d (eval_domain [T_leaf D_category_ids Op_in (DIds (parent_of d cid))]).

Section Onchange.

(** [self.env.company.id] *)
Variable env_company : Z.

(** Step 1: the team. *)
Definition onchange_team (d : db) (c : category) (t : ticket) : result ticket :=
  match cat_team_id c with
  | Some tm => Ok (with_team t tm)
  | None =>
      match team_id t with
      | Some _ => Ok t
      | None =>
          found ← nearest_team_above (S (size (categories d))) (categories d) (cat_parent_id c);
          match found with
          | Some tm => Ok (with_team t tm)
          | None =>
              Ok (match default_team d (default env_company (company_id t)) with
                  | Some tm => with_team t tm
                  | None => t
                  end)
          end
      end
  end.

(** Step 2: the assignee. *)
Definition onchange_user (d : db) (c : category) (t : ticket) : result ticket :=
  match team_id t with
  | None => Ok t
  | Some tm =>
      match team_record d tm with
      | None => Raise MissingError
      | Some r =>
          if String.eqb (assign_method r) "category"
          then Ok (with_user t (category_user c r))
          else Ok t
      end
  end.

(** Step 3: one policy by default, when none is chosen. *)
Definition onchange_sla (d : db) (cid : Z) (t : ticket) : ticket :=
  if negb (sla_opt_out t) && is_nil (sla_ids t)
  then match default_slas d cid with
       | first :: _ => with_slas t [first]
       | [] => t
       end
  else t.

(** [_onchange_category_id_set_team_and_user] on one record: the record as
    the method leaves it and the ids of the domain returned for
    [user_id]. *)
Definition _onchange_category_id_set_team_and_user (d : db) (t : ticket)
  : result (ticket * list Z) :=
  t' ← match category_id t with
       | None => Ok t
       | Some cid =>
           match categories d !! cid with
           | None => Raise MissingError
           | Some c =>
               t1 ← onchange_team d c t;
               t2 ← onchange_user d c t1;
               Ok (onchange_sla d cid t2)
           end
       end;
  Ok (t', match team_id t' with Some tm => team_members d tm | None => [] end).

End Onchange.

Example onchange_routes_and_assigns :
  match _onchange_category_id_set_team_and_user 1 (routed_db (Some 7))
          {| name := "scanner"; category_id := Some 5; team_id := Some 1; user_id := Some 7;
             priority := "1"; stage_id := None; tag_ids := []; partner_id := None;
             company_id := Some 1; sla_ids := []; sla_recompute_bump := 0;
             sla_opt_out := false |} with
  | Ok (t', allowed_ids) =>
      team_id t' = Some 2 /\ user_id t' = Some 8 /\ allowed_ids = [8]
  | _ => False
  end.
Proof. vm_compute. repeat split; reflexivity. Qed.

Lemma onchange_team_spec env_company d c t t1 :
  onchange_team env_company d c t = Ok t1 ->
  (t1 = t \/ exists tm, t1 = with_team t tm) /\
  (forall tm, cat_team_id c = Some tm -> team_id t1 = Some tm) /\
  (cat_team_id c = None -> is_Some (team_id t) -> t1 = t).
Proof.
  unfold onchange_team, mbind, result_bind, bind. intros H.
  repeat case_match; simplify_eq; repeat split; eauto; try congruence;
    try (intros ? [? ?]; congruence); intros _ [? ?]; congruence.
Qed.

Lemma onchange_user_spec d c t t2 :
  onchange_user d c t = Ok t2 ->
  team_id t2 = team_id t /\ sla_ids t2 = sla_ids t /\ sla_opt_out t2 = sla_opt_out t /\
  category_id t2 = category_id t /\
  (forall tm r, team_id t = Some tm -> team_record d tm = Some r ->
                assign_method r = "category" -> user_id t2 = category_user c r) /\
  (forall tm r, team_id t = Some tm -> team_record d tm = Some r ->
                assign_method r <> "category" -> user_id t2 = user_id t) /\
  (team_id t = None -> t2 = t).
Proof.
  unfold onchange_user. intros H.
  destruct (team_id t) as [tm|] eqn:Et; [|injection H as <-; repeat split; congruence].
  destruct (team_record d tm) as [r|] eqn:Er; [|discriminate H].
  destruct (String.eqb_spec (assign_method r) "category") as [Ea|Ea]; injection H as <-;
    cbn [with_user team_id sla_ids sla_opt_out category_id user_id];
    repeat split; auto; try congruence; intros; simplify_eq; congruence.
Qed.

Lemma category_user_member d tm r c u :
  team_record d tm = Some r -> category_user c r = Some u -> u ∈ team_members d tm.
Proof.
  unfold category_user, team_members. intros -> H.
  destruct (cat_user_id c) as [x|]; [|discriminate H].
  case_bool_decide; [|discriminate H]. now injection H as <-.
Qed.

Lemma onchange_sla_spec d cid t :
  team_id (onchange_sla d cid t) = team_id t /\
  user_id (onchange_sla d cid t) = user_id t /\
  (sla_opt_out t = true \/ sla_ids t <> [] -> onchange_sla d cid t = t) /\
  (sla_ids t = [] ->
   (length (sla_ids (onchange_sla d cid t)) <= 1)%nat /\
   forall id, id ∈ sla_ids (onchange_sla d cid t) ->
              exists s, slas d !! id = Some s /\
                        overlaps (category_ids s) (parent_of d cid) = true).
Proof.
  unfold onchange_sla.
  destruct (sla_opt_out t) eqn:Eo; cbn [negb andb].
  { repeat split; auto. - rewrite H. cbn. lia. - intros id Hin. rewrite H in Hin. inversion Hin. }
  destruct (sla_ids t) as [|x l] eqn:Es; cbn [is_nil].
  2:{ repeat split; auto; discriminate. }
  destruct (default_slas d cid) as [|first rest] eqn:Ed.
  { repeat split; auto.
    - rewrite Es. cbn. lia.
    - intros id Hin. rewrite Es in Hin. inversion Hin. }
  cbn [with_slas team_id user_id sla_ids length]. repeat split; auto.
  - intros [H|H]; [discriminate H | contradiction].
  - intros id Hin. apply list_elem_of_singleton in Hin. subst id.
    assert (Hf : first ∈ default_slas d cid) by (rewrite Ed; apply elem_of_cons; auto).
    unfold default_slas in Hf. apply search_slas_elem in Hf as (s & Hl & Hm).
    exists s. split; [exact Hl|].
    unfold eval_domain in Hm. cbn [foldr eval_step eval_leaf forallb] in Hm.
    now rewrite andb_true_r in Hm.
Qed.

(** X23.  On a record with a category, the onchange puts the ticket on the
    team of a category that has one; under a team that assigns by category
    it leaves as assignee a member of that team (whom the returned domain
    offers) or nobody; and it fills in a policy only when none is chosen
    and the ticket has not opted out, then a single one scoped to the
    category or an ancestor. *)
Theorem onchange_category_routes_ticket :
  forall (env_company : Z) (d : db) (t t' : ticket) (allowed_ids : list Z)
         (cid : Z) (c : category),
    _onchange_category_id_set_team_and_user env_company d t = Ok (t', allowed_ids) ->
    category_id t = Some cid -> categories d !! cid = Some c ->
    (forall tm, cat_team_id c = Some tm -> team_id t' = Some tm) /\
    (forall tm r, team_id t' = Some tm -> team_record d tm = Some r ->
                  assign_method r = "category" ->
                  user_id t' = category_user c r /\
                  forall u, user_id t' = Some u -> u ∈ allowed_ids) /\
    (sla_opt_out t = true \/ sla_ids t <> [] -> sla_ids t' = sla_ids t) /\
    (sla_ids t = [] ->
     (length (sla_ids t') <= 1)%nat /\
     forall id, id ∈ sla_ids t' ->
                exists s, slas d !! id = Some s /\
                          overlaps (category_ids s) (parent_of d cid) = true).
Proof.
  intros env_company d t t' allowed_ids cid c H Hc Hcat.
  unfold _onchange_category_id_set_team_and_user in H. rewrite Hc, Hcat in H.
  unfold mbind, result_bind, bind in H.
  destruct (onchange_team env_company d c t) as [t1| |] eqn:E1; try discriminate H.
  destruct (onchange_user d c t1) as [t2| |] eqn:E2; try discriminate H.
  injection H as <- <-.
  destruct (onchange_team_spec env_company d c t t1 E1) as (Hshape & Hown & _).
  destruct (onchange_user_spec d c t1 t2 E2) as (Ht2 & Hs2 & Ho2 & _ & Hcu & _ & _).
  destruct (onchange_sla_spec d cid t2) as (Ht3 & Hu3 & Hkeep & Hfill).
  assert (Hs1 : sla_ids t1 = sla_ids t /\ sla_opt_out t1 = sla_opt_out t).
  { destruct Hshape as [->|[tm ->]]; split; reflexivity. }
  destruct Hs1 as [Hs1 Ho1].
  split; [|split; [|split]].
  - intros tm Htm. rewrite Ht3, Ht2. exact (Hown tm Htm).
  - intros tm r Htm Hr Ha. rewrite Ht3, Ht2 in Htm. rewrite Hu3.
    rewrite (Hcu tm r Htm Hr Ha). split; [reflexivity|].
    intros u Hu. rewrite Ht3, Ht2, Htm. exact (category_user_member d tm r c u Hr Hu).
  - intros Hk. rewrite Hkeep; [congruence|]. rewrite Ho2, Ho1, Hs2, Hs1. exact Hk.
  - intros Hn. apply Hfill. congruence.
Qed.

Lemma onchange_category_routes_ticket_witness :
  match _onchange_category_id_set_team_and_user 1 (routed_db (Some 7))
          {| name := "scanner"; category_id := Some 5; team_id := Some 1; user_id := Some 7;
             priority := "1"; stage_id := None; tag_ids := []; partner_id := None;
             company_id := Some 1; sla_ids := []; sla_recompute_bump := 0;
             sla_opt_out := false |} with
  | Ok (t', _) => team_id t' = Some 2
  | _ => False
  end.
Proof.
  destruct (_onchange_category_id_set_team_and_user 1 (routed_db (Some 7)) _)
    as [[t' allowed_ids]| |] eqn:E; [|vm_compute in E; discriminate E..].
  refine (proj1 (onchange_category_routes_ticket _ _ _ _ _ 5
                   {| cat_team_id := Some 2; cat_parent_id := None; cat_user_id := Some 8 |}
                   E eq_refl _) 2 eq_refl).
  vm_compute. reflexivity.
Defined.

End HelpdeskOnchange.



(** ** helpdesk_ticket.py: company and branch *)

Module HelpdeskCompany.

(** [res.company] as a forest: each company with its parent, if any. *)
Definition companies := gmap Z (option Z).

(** A company and the companies above it. *)
Fixpoint ancestors (fuel : nat) (m : companies) (id : Z) : list Z :=
  match fuel with
  | O => []
  | S fuel' =>
      match m !! id with
      | None => []
      | Some parent =>
          id :: match parent with
                | Some p => ancestors fuel' m p
                | None => []
                end
      end
  end.

(** [('id', 'child_of', company)] on one company: the company itself or one
    below it. *)
Definition child_of (m : companies) (company id : Z) : bool :=
  bool_decide (company ∈ ancestors (size m) m id).

Definition search (m : companies) (p : Z -> bool) : list Z :=
  (map_to_list (filter (fun kv => p kv.1 = true) m)).*1.

(** [_onchange_company_set_branch_domain] on one record: the branch as the
    method leaves it and the ids of the domain returned for [branch_id]. *)
Definition _onchange_company_set_branch_domain (m : companies)
  (allowed_company_ids : list Z) (company_id branch_id : option Z) : option Z * list Z :=
  match company_id with
  | None => (branch_id, allowed_company_ids)
  | Some company =>
      let allowed :=
        search m (fun id => bool_decide (id ∈ allowed_company_ids)
                            && (child_of m company id || (id =? company))) in
      (match branch_id with
       | Some b => if bool_decide (b ∈ allowed) then branch_id else None
       | None => None
       end, allowed)
  end.

(** The test of [_check_branch_is_child_of_company] on one ticket: true
    when the constraint does not raise. *)
Definition _check_branch_is_child_of_company (m : companies)
  (company_id branch_id : option Z) : bool :=
  match company_id, branch_id with
  | Some company, Some b =>
      match search m (fun id => child_of m company id && (id =? b)) with
      | [] => false
      | _ => true
      end
  | _, _ => true
  end.

(** Head office 1 with branches 2 and 3, branch 4 under 2, and another
    company 9. *)
Definition sample_companies : companies :=
  list_to_map [(1, None); (2, Some 1); (3, Some 1); (4, Some 2); (9, None)].

Example branch_of_other_company_is_cleared :
  _onchange_company_set_branch_domain sample_companies [1; 2; 3; 4; 9] (Some 9) (Some 4)
  = (None, [9]).
Proof. vm_compute. reflexivity. Qed.

Example branch_below_is_kept :
  (_onchange_company_set_branch_domain sample_companies [1; 2; 3; 4; 9] (Some 1) (Some 4)).1
  = Some 4 /\
  _check_branch_is_child_of_company sample_companies (Some 9) (Some 4) = false.
Proof. vm_compute. split; reflexivity. Qed.

Lemma search_elem m p id : id ∈ search m p <-> is_Some (m !! id) /\ p id = true.
Proof.
  unfold search. rewrite list_elem_of_fmap. split.
  - intros ([k v] & -> & Hin). apply elem_of_map_to_list in Hin.
    apply map_lookup_filter_Some in Hin as [Hl Hp]. split; [eauto | exact Hp].
  - intros ([v Hl] & Hp). exists (id, v). split; [reflexivity|].
    apply elem_of_map_to_list, map_lookup_filter_Some. auto.
Qed.

Lemma child_of_self m id : is_Some (m !! id) -> child_of m id id = true.
Proof.
  intros [parent Hl]. unfold child_of. apply bool_decide_eq_true.
  pose proof (map_size_ne_0_lookup_2 m id (ltac:(eauto) : is_Some (m !! id))) as Hs.
  destruct (size m) as [|n] eqn:En; [exact (False_ind _ (Hs En))|].
  cbn [ancestors]. rewrite Hl. apply elem_of_cons. auto.
Qed.

(** X24.  Whatever the record held, after the company onchange the
    constraint between company and branch is satisfied: the branch is
    either kept, and then it is in the returned domain and is the company
    or lies below it, or it is cleared; every id of the returned domain is
    one of the user's allowed companies. *)
Theorem company_onchange_satisfies_branch_constraint :
  forall (m : companies) (allowed_company_ids : list Z) (company_id branch_id : option Z),
    let r := _onchange_company_set_branch_domain m allowed_company_ids company_id branch_id in
    _check_branch_is_child_of_company m company_id r.1 = true /\
    (r.1 = branch_id \/ r.1 = None) /\
    (forall b, is_Some company_id -> r.1 = Some b -> b ∈ r.2) /\
    (forall id, id ∈ r.2 -> id ∈ allowed_company_ids).
Proof.
  intros m allowed_company_ids company_id branch_id. cbv zeta.
  unfold _onchange_company_set_branch_domain, _check_branch_is_child_of_company.
  destruct company_id as [company|]; cbn [fst snd].
  2:{ repeat split; auto. intros b [? H]. discriminate H. }
  set (allowed := search m _).
  assert (Hall : forall id, id ∈ allowed -> id ∈ allowed_company_ids).
  { intros id Hin. apply search_elem in Hin as [_ Hp].
    apply andb_true_iff in Hp as [Hp _]. now apply bool_decide_eq_true in Hp. }
  destruct branch_id as [b|]; [|repeat split; auto; intros ? _ H; discriminate H].
  case_bool_decide as Hb; [|repeat split; auto; intros ? _ H; discriminate H].
  repeat split; auto; [|intros ? _ [= <-]; exact Hb].
  apply search_elem in Hb as [Hex Hp]. apply andb_true_iff in Hp as [_ Hp].
  assert (Hc : child_of m company b = true).
  { apply orb_true_iff in Hp as [Hp|Hp]; [exact Hp|].
    apply Z.eqb_eq in Hp. subst b. now apply child_of_self. }
  assert (Hin : b ∈ search m (fun id => child_of m company id && (id =? b))).
  { apply search_elem. split; [exact Hex|]. now rewrite Hc, Z.eqb_refl. }
  destruct (search m (fun id => child_of m company id && (id =? b)));
    [inversion Hin | reflexivity].
Qed.

Lemma company_onchange_satisfies_branch_constraint_witness :
  4 ∈ (_onchange_company_set_branch_domain sample_companies [1; 2; 3; 4; 9]
         (Some 1) (Some 4)).2.
Proof.
  apply (proj1 (proj2 (proj2 (company_onchange_satisfies_branch_constraint sample_companies
                                [1; 2; 3; 4; 9] (Some 1) (Some 4)))) 4).
  - eauto.
  - vm_compute. reflexivity.
Defined.

End HelpdeskCompany.


(** ** helpdesk_ticket.py: what [create] changes in [vals], and the groups of [_sla_find] *)

Module HelpdeskCreate.
Import PyStr Helpdesk HelpdeskMore.

Lemma create_limit_sla_other set_first vals g :
  g <> F_sla_ids -> vals_get (create_limit_sla set_first vals) g = vals_get vals g.
Proof.
  intros Hg. unfold create_limit_sla.
  repeat case_match; auto using vals_get_set_other.
Qed.

Lemma vals_truthy_set_other vals f v g :
  g <> f -> vals_truthy (vals_set vals f v) g = vals_truthy vals g.
Proof. intros H. unfold vals_truthy. now rewrite vals_get_set_other. Qed.

Lemma create_prepare_other env_company set_first d vals vals' g :
  create_prepare env_company set_first d vals = Ok vals' ->
  g <> F_team_id -> g <> F_user_id -> g <> F_sla_ids -> vals_get vals' g = vals_get vals g.
Proof.
  unfold create_prepare, mbind, result_bind, bind. intros H Ht Hu Hs.
  repeat case_match; simplify_eq;
    rewrite create_limit_sla_other by auto; rewrite ?vals_get_set_other by auto; auto.
Qed.

Lemma create_prepare_keeps_user env_company set_first d vals vals' :
  create_prepare env_company set_first d vals = Ok vals' ->
  vals_truthy vals F_user_id = true -> vals_get vals' F_user_id = vals_get vals F_user_id.
Proof.
  unfold create_prepare, mbind, result_bind, bind. intros H Hu.
  repeat case_match; simplify_eq;
    rewrite create_limit_sla_other by discriminate;
    rewrite ?vals_truthy_set_other in * by discriminate; try congruence;
    rewrite ?vals_get_set_other by discriminate; auto.
Qed.

Lemma create_prepare_team env_company set_first d vals vals' cid c tm :
  create_prepare env_company set_first d vals = Ok vals' ->
  vals_get vals F_category_id = Some (V_int cid) -> cid <> 0 ->
  categories d !! cid = Some c -> cat_team_id c = Some tm ->
  vals_get vals' F_team_id = Some (V_int tm).
Proof.
  unfold create_prepare. intros H Hv Hne Hc Htm.
  unfold vals_truthy at 1 in H. rewrite Hv in H.
  change (default V_false (Some (V_int cid))) with (V_int cid) in H.
  cbn [value_truthy] in H. rewrite (proj2 (Z.eqb_neq cid 0) Hne) in H.
  cbn [negb id_of] in H. unfold mbind, result_bind, bind in H.
  rewrite Hc, Htm in H.
  pose proof (vals_get_set_same vals F_team_id (V_int tm)) as Hs.
  unfold mbind, result_bind, bind in H.
  repeat case_match; simplify_eq;
    rewrite create_limit_sla_other by discriminate;
    rewrite ?vals_get_set_other by discriminate; auto.
Qed.

(** X25.  [create] changes an entry of [vals_list] only under [team_id],
    [user_id] and [sla_ids]; it keeps an assignee given by the caller; and
    a category with a team of its own decides [team_id], whatever the
    caller passed. *)
Theorem create_only_routes_team_user_and_policy :
  forall (env_company : Z) (set_first : list Z -> Z) (d : db)
         (vals vals' : list (field * value)),
    create_prepare env_company set_first d vals = Ok vals' ->
    (forall g, g <> F_team_id -> g <> F_user_id -> g <> F_sla_ids ->
               vals_get vals' g = vals_get vals g) /\
    (vals_truthy vals F_user_id = true ->
     vals_get vals' F_user_id = vals_get vals F_user_id) /\
    (forall cid c tm,
        vals_get vals F_category_id = Some (V_int cid) -> cid <> 0 ->
        categories d !! cid = Some c -> cat_team_id c = Some tm ->
        vals_get vals' F_team_id = Some (V_int tm)).
Proof.
  intros env_company set_first d vals vals' H. split; [|split].
  - intros g. now apply create_prepare_other with (1 := H).
  - now apply create_prepare_keeps_user with (1 := H).
  - intros cid c tm. now apply create_prepare_team with (1 := H).
Qed.

Lemma create_only_routes_team_user_and_policy_witness :
  match create_prepare 1 cpython_set_first (routed_db None)
          [(F_category_id, V_int 5); (F_team_id, V_int 1); (F_user_id, V_int 7)] with
  | Ok vals' => vals_get vals' F_user_id = Some (V_int 7)
  | _ => False
  end.
Proof.
  destruct (create_prepare 1 cpython_set_first (routed_db None)
              [(F_category_id, V_int 5); (F_team_id, V_int 1); (F_user_id, V_int 7)])
    as [vals'| |] eqn:E; [|vm_compute in E; discriminate E..].
  exact (proj1 (proj2 (create_only_routes_team_user_and_policy _ _ _ _ _ E)) eq_refl).
Defined.

End HelpdeskCreate.


(** ** helpdesk_ticket.py: the groups of [_sla_find] *)

Module HelpdeskGroups.
Import PyStr Helpdesk.

Section Groups.

Variable base : list field.
Variable d : db.

(** The position of the entry of [tickets_map] a key falls on. *)
Fixpoint first_match (groups : list group) (key : list key_part) : option nat :=
  match groups with
  | [] => None
  | g :: rest => if key_eqb (g_key g) key then Some O else S <$> first_match rest key
  end.

(** [tickets_map[key] |= ticket] on an entry. *)
Definition grown (g : group) (tid : Z) : group :=
  {| g_key := g_key g;
     g_tickets := if bool_decide (tid ∈ g_tickets g) then g_tickets g else g_tickets g ++ [tid];
     g_first := g_first g |}.

Lemma key_part_eqb_refl a : key_part_eqb a a = true.
Proof.
  destruct a as [|n|s|b|ids]; cbn [key_part_eqb].
  - reflexivity.
  - apply Z.eqb_refl.
  - apply String.eqb_refl.
  - destruct b; reflexivity.
  - assert (H : subset_b ids ids = true).
    { unfold subset_b. apply forallb_forall. intros x Hx.
      apply bool_decide_eq_true, list_elem_of_In, Hx. }
    now rewrite H.
Qed.

Lemma key_eqb_refl k : key_eqb k k = true.
Proof. induction k as [|a k IH]; cbn [key_eqb]; [reflexivity|]. now rewrite key_part_eqb_refl. Qed.

Lemma add_ticket_found key tid t groups : forall j,
  first_match groups key = Some j ->
  exists g, groups !! j = Some g /\ add_ticket key tid t groups = <[j := grown g tid]> groups.
Proof.
  induction groups as [|g rest IH]; intros j; cbn [first_match add_ticket]; [discriminate|].
  destruct (key_eqb (g_key g) key).
  - intros [= <-]. exists g. split; reflexivity.
  - destruct (first_match rest key) as [j'|]; [|discriminate].
    intros [= <-]. destruct (IH j' eq_refl) as (g0 & Hl & ->). exists g0. split; [exact Hl|].
    reflexivity.
Qed.

Lemma add_ticket_new key tid t groups :
  first_match groups key = None ->
  add_ticket key tid t groups = groups ++ [{| g_key := key; g_tickets := [tid]; g_first := t |}].
Proof.
  induction groups as [|g rest IH]; cbn [first_match add_ticket app]; [reflexivity|].
  destruct (key_eqb (g_key g) key); [discriminate|].
  destruct (first_match rest key); [discriminate|]. intros _. now rewrite IH.
Qed.

Lemma first_match_insert groups k g' : forall j g,
  groups !! j = Some g -> g_key g' = g_key g ->
  first_match (<[j := g']> groups) k = first_match groups k.
Proof.
  induction groups as [|a rest IH]; intros j g Hl Hk; [reflexivity|].
  destruct j as [|j]; cbn in Hl.
  - injection Hl as ->. cbn [first_match]. change (<[O := g']> (g :: rest)) with (g' :: rest).
    cbn [first_match]. now rewrite Hk.
  - change (<[S j := g']> (a :: rest)) with (a :: <[j := g']> rest).
    cbn [first_match]. now rewrite (IH j g Hl Hk).
Qed.

Lemma first_match_app groups g' k :
  first_match (groups ++ [g']) k
  = match first_match groups k with
    | Some j => Some j
    | None => if key_eqb (g_key g') k then Some (length groups) else None
    end.
Proof.
  induction groups as [|a rest IH]; cbn [app first_match length].
  - destruct (key_eqb (g_key g') k); reflexivity.
  - destruct (key_eqb (g_key a) k); [reflexivity|]. rewrite IH.
    destruct (first_match rest k); [reflexivity|].
    destruct (key_eqb (g_key g') k); reflexivity.
Qed.

(** Every ticket of an entry has a record whose key falls on that entry,
    and no entry lists a ticket twice. *)
Definition settled (groups : list group) : Prop :=
  (forall j g tid, groups !! j = Some g -> tid ∈ g_tickets g ->
                   exists t, tickets d !! tid = Some t /\
                             first_match groups (_generate_key base t) = Some j) /\
  (forall g, g ∈ groups -> NoDup (g_tickets g)).

Lemma grown_tickets g tid x : x ∈ g_tickets (grown g tid) <-> x ∈ g_tickets g \/ x = tid.
Proof.
  cbn [grown g_tickets]. case_bool_decide as H.
  - split; [auto|]. intros [?| ->]; auto.
  - rewrite elem_of_app, list_elem_of_singleton. tauto.
Qed.

Lemma grown_NoDup g tid : NoDup (g_tickets g) -> NoDup (g_tickets (grown g tid)).
Proof.
  intros Hn. cbn [grown g_tickets]. case_bool_decide as H; [exact Hn|].
  apply NoDup_app. split; [exact Hn|]. split; [|apply NoDup_singleton].
  intros x Hx Hs. apply list_elem_of_singleton in Hs. now subst.
Qed.

Lemma add_ticket_settled groups tid t :
  tickets d !! tid = Some t -> settled groups ->
  settled (add_ticket (_generate_key base t) tid t groups).
Proof.
  intros Ht [Hhome Hnd].
  destruct (first_match groups (_generate_key base t)) as [j|] eqn:Ef.
  - destruct (add_ticket_found _ tid t groups j Ef) as (g & Hl & ->). split.
    + intros i gi x Hi Hx.
      destruct (decide (i = j)) as [->|Hij].
      * rewrite list_lookup_insert_eq in Hi by (apply lookup_lt_Some in Hl; exact Hl).
        injection Hi as <-. apply grown_tickets in Hx as [Hx| ->].
        -- destruct (Hhome j g x Hl Hx) as (tx & Htx & Hfx). exists tx. split; [exact Htx|].
           now rewrite (first_match_insert groups _ (grown g tid) j g Hl eq_refl).
        -- exists t. split; [exact Ht|].
           now rewrite (first_match_insert groups _ (grown g tid) j g Hl eq_refl).
      * rewrite list_lookup_insert_ne in Hi by auto.
        destruct (Hhome i gi x Hi Hx) as (tx & Htx & Hfx). exists tx. split; [exact Htx|].
        now rewrite (first_match_insert groups _ (grown g tid) j g Hl eq_refl).
    + intros g' Hin. apply list_elem_of_lookup in Hin as [i Hi].
      destruct (decide (i = j)) as [->|Hij].
      * rewrite list_lookup_insert_eq in Hi by (apply lookup_lt_Some in Hl; exact Hl).
        injection Hi as <-. apply grown_NoDup, Hnd. eapply list_elem_of_lookup_2, Hl.
      * rewrite list_lookup_insert_ne in Hi by auto.
        apply Hnd. eapply list_elem_of_lookup_2, Hi.
  - rewrite (add_ticket_new _ tid t groups Ef). split.
    + intros i gi x Hi Hx.
      destruct (decide (i < length groups)%nat) as [Hlt|Hge].
      * rewrite lookup_app_l in Hi by exact Hlt.
        destruct (Hhome i gi x Hi Hx) as (tx & Htx & Hfx). exists tx. split; [exact Htx|].
        now rewrite first_match_app, Hfx.
      * rewrite lookup_app_r in Hi by lia.
        destruct (i - length groups)%nat as [|n] eqn:En; [|destruct n; discriminate Hi].
        injection Hi as <-. cbn [g_tickets g_key] in *.
        apply list_elem_of_singleton in Hx. subst x. exists t. split; [exact Ht|].
        rewrite first_match_app, Ef. cbn [g_key]. rewrite key_eqb_refl. f_equal. lia.
    + intros g' Hin. apply elem_of_app in Hin as [Hin|Hin]; [exact (Hnd g' Hin)|].
      apply list_elem_of_singleton in Hin. subst g'. apply NoDup_singleton.
Qed.

Lemma group_step_settled groups tid :
  settled groups -> settled (group_step base d groups tid).
Proof.
  intros Hs. unfold group_step.
  destruct (tickets d !! tid) as [t|] eqn:Et; [|exact Hs].
  destruct (sla_opt_out t); [exact Hs|].
  destruct (negb (ticket_uses_sla d t)); [exact Hs|].
  now apply add_ticket_settled.
Qed.

Lemma sla_groups_settled self : settled (sla_groups base d self).
Proof.
  unfold sla_groups.
  assert (H : forall groups, settled groups -> settled (foldl (group_step base d) groups self)).
  { induction self as [|tid rest IH]; intros groups Hg; cbn [foldl]; [exact Hg|].
    apply IH, group_step_settled, Hg. }
  apply H. split; [intros j g tid Hl; inversion Hl | intros g Hin; inversion Hin].
Qed.

(** The tickets listed in some entry. *)
Definition listed (groups : list group) (tid : Z) : Prop :=
  exists g, g ∈ groups /\ tid ∈ g_tickets g.

Lemma add_ticket_listed key tid t groups x :
  listed (add_ticket key tid t groups) x <-> listed groups x \/ x = tid.
Proof.
  induction groups as [|g rest IH]; cbn [add_ticket].
  - split.
    + intros (g & Hg & Hx). apply list_elem_of_singleton in Hg. subst g.
      cbn [g_tickets] in Hx. apply list_elem_of_singleton in Hx. auto.
    + intros [(g & Hg & _)| ->]; [inversion Hg|].
      eexists. split; [apply list_elem_of_singleton; reflexivity|].
      cbn [g_tickets]. apply list_elem_of_singleton. reflexivity.
  - destruct (key_eqb (g_key g) key).
    + split.
      * intros (g' & Hg & Hx). apply elem_of_cons in Hg as [->|Hg].
        -- apply (grown_tickets g tid x) in Hx as [Hx|Hx]; [left|right; exact Hx].
           exists g. split; [apply elem_of_cons; auto | exact Hx].
        -- left. exists g'. split; [apply elem_of_cons; auto | exact Hx].
      * intros [(g' & Hg & Hx)|Hx].
        -- apply elem_of_cons in Hg as [->|Hg].
           ++ exists (grown g tid). split; [apply elem_of_cons; auto|].
              apply grown_tickets. auto.
           ++ exists g'. split; [apply elem_of_cons; auto | exact Hx].
        -- exists (grown g tid). split; [apply elem_of_cons; auto|].
           apply grown_tickets. auto.
    + split.
      * intros (g' & Hg & Hx). apply elem_of_cons in Hg as [->|Hg].
        -- left. exists g. split; [apply elem_of_cons; auto | exact Hx].
        -- destruct (proj1 IH) as [(g0 & Hg0 & Hx0)|Hx0]; [exists g'; auto | | auto].
           left. exists g0. split; [apply elem_of_cons; auto | exact Hx0].
      * intros [(g' & Hg & Hx)|Hx].
        -- apply elem_of_cons in Hg as [->|Hg].
           ++ exists g. split; [apply elem_of_cons; auto | exact Hx].
           ++ destruct (proj2 IH) as (g0 & Hg0 & Hx0); [left; exists g'; auto|].
              exists g0. split; [apply elem_of_cons; auto | exact Hx0].
        -- destruct (proj2 IH) as (g0 & Hg0 & Hx0); [auto|].
           exists g0. split; [apply elem_of_cons; auto | exact Hx0].
Qed.

Lemma group_step_listed groups tid x :
  listed (group_step base d groups tid) x <-> listed groups x \/ (x = tid /\ eligible d tid).
Proof.
  unfold group_step, eligible.
  destruct (tickets d !! tid) as [t|] eqn:Et.
  2:{ split; [auto|]. intros [?|[_ (t & Ht & _)]]; [auto | discriminate Ht]. }
  destruct (sla_opt_out t) eqn:Eo.
  { split; [auto|]. intros [?|[_ (t' & Ht & Ho & _)]]; [auto | congruence]. }
  destruct (ticket_uses_sla d t) eqn:Eu; cbn [negb].
  2:{ split; [auto|]. intros [?|[_ (t' & Ht & _ & Hu)]]; [auto | congruence]. }
  rewrite add_ticket_listed. split.
  - intros [?| ->]; [auto|]. right. split; [reflexivity|]. exists t. auto.
  - intros [?|[-> _]]; auto.
Qed.

Lemma sla_groups_listed self x :
  listed (sla_groups base d self) x <-> x ∈ self /\ eligible d x.
Proof.
  unfold sla_groups.
  assert (H : forall groups,
             listed (foldl (group_step base d) groups self) x <->
             listed groups x \/ (x ∈ self /\ eligible d x)).
  { induction self as [|tid rest IH]; intros groups; cbn [foldl].
    - split; [auto|]. intros [?|[Hin _]]; [auto | inversion Hin].
    - rewrite IH, group_step_listed, elem_of_cons. split.
      + intros [[?|[-> ?]]|[? ?]]; auto.
      + intros [?|[[->|?] ?]]; auto. }
  rewrite H. split; [|auto]. intros [(g & Hg & _)|?]; [inversion Hg | auto].
Qed.

End Groups.

(** X26.  The ticket sets [_sla_find] returns partition the tickets it
    does not pass over: a ticket is in some set exactly when it is in
    [self], has not opted out and its team uses SLAs; no ticket is in two
    sets; and no set lists a ticket twice. *)
Theorem sla_find_partitions_eligible_tickets :
  forall (base : list field) (extra : ticket -> Z -> sla -> bool) (d : db) (self : list Z),
    (forall tid, (exists grp, grp ∈ _sla_find base extra d self /\ tid ∈ grp.1) <->
                 tid ∈ self /\ eligible d tid) /\
    (forall i j gi gj tid,
        _sla_find base extra d self !! i = Some gi ->
        _sla_find base extra d self !! j = Some gj ->
        tid ∈ gi.1 -> tid ∈ gj.1 -> i = j) /\
    (forall grp, grp ∈ _sla_find base extra d self -> NoDup grp.1).
Proof.
  intros base extra d self. unfold _sla_find.
  destruct (sla_groups_settled base d self) as [Hhome Hnd].
  split; [|split].
  - intros tid. rewrite <- (sla_groups_listed base d self tid). unfold listed. split.
    + intros (grp & Hin & Ht). apply list_elem_of_fmap in Hin as (g & -> & Hg). eauto.
    + intros (g & Hg & Ht). eexists. split; [apply list_elem_of_fmap; eauto | exact Ht].
  - intros i j gi gj tid Hi Hj Hti Htj.
    rewrite list_lookup_fmap in Hi, Hj.
    destruct (sla_groups base d self !! i) as [g1|] eqn:E1; [|discriminate Hi].
    destruct (sla_groups base d self !! j) as [g2|] eqn:E2; [|discriminate Hj].
    injection Hi as <-. injection Hj as <-. cbn [fst] in *.
    destruct (Hhome i g1 tid E1 Hti) as (t1 & Ht1 & Hf1).
    destruct (Hhome j g2 tid E2 Htj) as (t2 & Ht2 & Hf2).
    congruence.
  - intros grp Hin. apply list_elem_of_fmap in Hin as (g & -> & Hg). exact (Hnd g Hg).
Qed.

Lemma sla_find_partitions_eligible_tickets_witness :
  exists grp, grp ∈ _sla_find base_triggers0 no_extra (sample_db [] false) [1] /\ 1 ∈ grp.1.
Proof.
  apply (proj2 (proj1 (sla_find_partitions_eligible_tickets base_triggers0 no_extra
                         (sample_db [] false) [1]) 1)).
  split; [apply list_elem_of_singleton; reflexivity|].
  exists (sample_ticket [] false). repeat split; reflexivity.
Defined.

End HelpdeskGroups.


(** ** odoo/.../bootstrap.py: languages and the default user in [main] *)

Module OdooBootstrapMain.
Import PyStr StrFacts OdooBootstrap OdooBootstrapMore ConnectOdooMore.

Definition USER_LOGIN : string := "user".
Definition USER_PASSWORD : string := "user".
Definition LANG_CODES : list string := ["en_US"; "he_IL"].
Definition USER_GROUPS : list string := ["internal"].

(** [os.environ.get(key) or fallback] *)
Definition env_or (environ : gmap string string) (key fallback : string) : string :=
  str_or (default EmptyString (environ !! key)) fallback.

(** [s.capitalize()] *)
Definition capitalize (s : string) : string :=
  match s with
  | EmptyString => EmptyString
  | String c r => String (InstallModulesMore.upper_char c) (lower r)
  end.

(** What [main] meets outside itself.  The calls that are not inside a
    [try] can raise, and the exception then leaves [main]. *)
Record world := {
  environ : gmap string string;
  env_ref : string -> option ref_record;
  activate_lang : string -> bool;                      (* false: [_activate_lang] raises *)
  users : list (Z * user);
  registry_error : bool;             (* the import of odoo or [Registry(db_name).cursor()]
                                        raises *)
  validation_error : bool;           (* [validate_enterprise(db_name)] raises *)
  search_error : bool;               (* [Users.search] raises *)
  accepts : list (Z * user) -> user_vals -> bool;      (* false: [write] or [create] raises *)
  after_failure : list (Z * user);   (* the users a [write] or [create] that raised leaves
                                        in the transaction *)
  commit_error : bool                (* the commit on leaving the [with] block raises *)
}.

(** [exit_code] is [None] when an exception leaves [main].  The cursor of
    the [with] block commits when the block is left normally, which
    [return 1] does as well, and rolls back on an exception;
    [users_after] is the table of the database once [main] is over. *)
Record outcome := {
  exit_code : option Z;
  attempted : list string;        (* the codes passed to [_activate_lang], in order *)
  activated : list string;
  committed : bool;
  users_after : list (Z * user)
}.

Definition lang_codes (w : world) : list string :=
  let env_langs := strip (default EmptyString (environ w !! "ODOO_LANGS")) in
  if String.eqb env_langs EmptyString then normalize_tokens (T_seq LANG_CODES)
  else normalize_tokens (T_str env_langs).

Definition login (w : world) : string := env_or (environ w) "USER_LOGIN" USER_LOGIN.

(** [os.environ.get("TARGET_TIER")], the empty string by default. *)
Definition tier (w : world) : string := default EmptyString (environ w !! "TARGET_TIER").

Definition group_ids (w : world) : list Z :=
  let raw := default EmptyString (environ w !! "USER_GROUPS") in
  (resolve_groups (env_ref w)
     (normalize_tokens (if String.eqb raw EmptyString then T_seq USER_GROUPS else T_str raw))).1.

(** The [values] dict. *)
Definition values (w : world) : user_vals :=
  {| v_name := capitalize (login w);
     v_login := login w;
     v_password := Some (env_or (environ w) "USER_PASSWORD" USER_PASSWORD);
     v_group_ids := match group_ids w with [] => None | ids => Some ids end |}.

(** [user.write(values)] on the user found by its login, or [create]. *)
Definition upsert (rows : list (Z * user)) (name : string) (vals : user_vals)
  : list (Z * user) :=
  match search_login rows name with
  | Some id => write_user rows id vals
  | None => rows ++ [(fresh_user_id rows, apply_user_vals vals blank_user)]
  end.

(** An exception leaves [main] after the given codes were tried: the
    transaction is rolled back. *)
Definition rolled_back (w : world) (tried : list string) : outcome :=
  {| exit_code := None;
     attempted := tried;
     activated := List.filter (activate_lang w) tried;
     committed := false;
     users_after := users w |}.

(** [main()], from the opening of the cursor on. *)
Definition main (w : world) : outcome :=
  if registry_error w then rolled_back w []
  else if String.eqb (tier w) "prod" && validation_error w then rolled_back w (lang_codes w)
  else if search_error w then rolled_back w (lang_codes w)
  else
    let ok := accepts w (users w) (values w) in
    let rows := if ok then upsert (users w) (login w) (values w) else after_failure w in
    if commit_error w then rolled_back w (lang_codes w)
    else {| exit_code := Some (if ok then 0 else 1);
            attempted := lang_codes w;
            activated := List.filter (activate_lang w) (lang_codes w);
            committed := true;
            users_after := rows |}.

(** The worlds in which an exception leaves [main]. *)
Definition raises (w : world) : Prop :=
  registry_error w = true \/
  (tier w = "prod" /\ validation_error w = true) \/
  search_error w = true \/
  commit_error w = true.

Definition quiet (env : list (string * string)) (rows : list (Z * user))
    (ok : bool) (left : list (Z * user)) : world :=
  {| environ := list_to_map env;
     env_ref := standard_groups;
     activate_lang := fun code => String.eqb code "he_IL";
     users := rows;
     registry_error := false;
     validation_error := false;
     search_error := false;
     accepts := fun _ _ => ok;
     after_failure := left;
     commit_error := false |}.

Definition hebrew_only : world :=
  quiet [("ODOO_LANGS", " he_IL ; xx_XX "); ("USER_LOGIN", "deploy")] [admin_row] true [].

Example main_creates_capitalised_user :
  main hebrew_only
  = {| exit_code := Some 0; attempted := ["he_IL"; "xx_XX"]; activated := ["he_IL"];
       committed := true;
       users_after := [admin_row;
                       (3, {| u_name := "Deploy"; u_login := "deploy";
                              u_password := Some "user"; u_group_ids := [1] |})] |}.
Proof. vm_compute. reflexivity. Qed.

(** On the production tier an exception of the validation leaves [main]
    after the languages were tried, and nothing is committed. *)
Example main_raises_on_prod_validation :
  let w := {| environ := list_to_map [("TARGET_TIER", "prod")];
              env_ref := standard_groups;
              activate_lang := fun _ => true;
              users := [admin_row];
              registry_error := false;
              validation_error := true;
              search_error := false;
              accepts := fun _ _ => true;
              after_failure := [];
              commit_error := false |} in
  exit_code (main w) = None /\ committed (main w) = false /\
  attempted (main w) = ["en_US"; "he_IL"] /\ users_after (main w) = [admin_row].
Proof. vm_compute. auto. Qed.







End OdooBootstrapMain.


(** ** helpdesk_ticket.py: the reset triggers and the recompute bump *)

Module HelpdeskTrigger.
Import PyStr Helpdesk.

(** The fields the extension adds to the triggers of the base model. *)
Definition added_triggers : list field := [F_category_id; F_sla_recompute_bump; F_sla_opt_out].

(** [_bump_sla] on one ticket: the values its assignment writes. *)
Definition _bump_sla (t : ticket) : list (field * value) :=
  [(F_sla_recompute_bump, V_int (sla_recompute_bump t + 1))].

Lemma vals_has_key vals f : vals_has vals f = true -> f ∈ vals.*1.
Proof.
  unfold vals_has. induction vals as [|[k v] r IH]; cbn [vals_get fmap list_fmap fst].
  - discriminate.
  - case_bool_decide as Hk; [intros _; apply elem_of_cons; auto|].
    intros H. apply elem_of_cons. right. exact (IH H).
Qed.

(** X28.  Whatever triggers the base model has, [_sla_reset_trigger] lists
    each of them and each of category_id, sla_recompute_bump and
    sla_opt_out once; so a write that carries one of these three keys, as
    the one [_bump_sla] makes, always sets off the clean-up of status
    records, and a write that carries no trigger leaves them alone. *)
Theorem reset_trigger_extends_base :
  forall base : list field,
    NoDup (_sla_reset_trigger base) /\
    (forall f, f ∈ _sla_reset_trigger base <-> f ∈ base \/ f ∈ added_triggers) /\
    (forall vals f, f ∈ added_triggers -> vals_has vals f = true ->
                    touches_trigger base vals = true) /\
    (forall t, touches_trigger base (_bump_sla t) = true) /\
    (forall extra d self vals,
        touches_trigger base vals = false ->
        _cleanup_obsolete_sla_statuses_after_change base extra d self vals = d).
Proof.
  intros base.
  assert (Hmem : forall f, f ∈ _sla_reset_trigger base <-> f ∈ base \/ f ∈ added_triggers).
  { intros f. unfold _sla_reset_trigger. rewrite dedupe_elem, elem_of_app. reflexivity. }
  assert (Htouch : forall vals f, f ∈ added_triggers -> vals_has vals f = true ->
                                  touches_trigger base vals = true).
  { intros vals f Hf Hv. unfold touches_trigger. apply existsb_exists. exists f. split.
    - apply list_elem_of_In, vals_has_key, Hv.
    - apply bool_decide_eq_true, Hmem. auto. }
  split; [apply dedupe_NoDup|]. split; [exact Hmem|]. split; [exact Htouch|]. split.
  - intros t. apply (Htouch _ F_sla_recompute_bump).
    + apply elem_of_cons; right. apply elem_of_cons; left. reflexivity.
    + unfold vals_has, _bump_sla. cbn [vals_get].
      rewrite bool_decide_eq_true_2 by reflexivity. reflexivity.
  - intros extra d self vals. apply cleanup_untouched.
Qed.

Lemma reset_trigger_extends_base_witness :
  touches_trigger [F_team_id] [(F_name, V_str "printer"); (F_sla_opt_out, V_bool true)] = true.
Proof.
  apply (proj1 (proj2 (proj2 (reset_trigger_extends_base [F_team_id]))) _ F_sla_opt_out).
  - apply elem_of_cons; right. apply elem_of_cons; right. apply elem_of_cons; left. reflexivity.
  - vm_compute. reflexivity.
Defined.

End HelpdeskTrigger.


(** ** helpdesk_ticket.py: what [write] and [create] do to one ticket *)

Module HelpdeskTrack.
Import PyStr Helpdesk HelpdeskMore.

(** An assignment of [vals] keeps the property [Q] of a ticket. *)
Definition keeps (Q : ticket -> Prop) (vals : list (field * value)) : Prop :=
  forall t t', set_fields t vals = Some t' -> Q t -> Q t'.

Lemma assign_follows (Q : ticket -> Prop) vals self :
  keeps Q vals ->
  forall m m' tid t, assign m self vals = Ok m' -> m !! tid = Some t -> Q t ->
  exists t', m' !! tid = Some t' /\ Q t'.
Proof.
  intros Hstep. induction self as [|x rest IH]; intros m m' tid t H Hl Hq; cbn [assign] in H.
  - injection H as <-. eauto.
  - destruct (m !! x) as [t0|] eqn:E0; [|discriminate H].
    destruct (set_fields t0 vals) as [t1|] eqn:E1; [|discriminate H].
    destruct (decide (x = tid)) as [->|Hne].
    + apply (IH _ _ tid t1 H); [apply lookup_insert_eq|].
      rewrite Hl in E0. injection E0 as <-. eauto.
    + apply (IH _ _ tid t H); [rewrite lookup_insert_ne by exact Hne; exact Hl | exact Hq].
Qed.

Lemma super_write_teams base apply_slas d self vals d1 :
  super_write base apply_slas d self vals = Ok d1 -> teams d1 = teams d.
Proof.
  unfold super_write, mbind, result_bind, bind. intros H.
  destruct (assign (tickets d) self vals) as [m| |]; try discriminate H.
  destruct (constrained vals && _); [discriminate H|].
  injection H as <-. destruct (touches_trigger base vals); reflexivity.
Qed.

Lemma super_write_follows (Q : ticket -> Prop) base apply_slas d self vals d1 tid t :
  keeps Q vals ->
  super_write base apply_slas d self vals = Ok d1 ->
  tickets d !! tid = Some t -> Q t ->
  exists t', tickets d1 !! tid = Some t' /\ Q t'.
Proof.
  intros Hk Hw. apply super_write_tickets in Hw.
  exact (assign_follows Q vals self Hk _ _ tid t Hw).
Qed.

Lemma compress_slas_follows (Q : ticket -> Prop) base apply_slas self :
  (forall target, keeps Q (keep_first target)) ->
  forall d tid t, tickets d !! tid = Some t -> Q t ->
  exists t', tickets (compress_slas base apply_slas d self) !! tid = Some t' /\ Q t'.
Proof.
  intros Hk. induction self as [|x rest IH]; intros d tid t Hl Hq; cbn [compress_slas]; [eauto|].
  destruct (tickets d !! x) as [tx|] eqn:Ex; [|eauto].
  destruct (sla_ids tx) as [|target [|y more]] eqn:Es; [eauto using IH..|].
  change [(F_sla_ids, V_commands [Tuple [I_int 6; I_int 0; I_ids [target]]])]
    with (keep_first target).
  destruct (super_write base apply_slas d [x] (keep_first target)) as [d1| |] eqn:Ew; [|eauto..].
  destruct (super_write_follows Q _ _ _ _ _ _ tid t (Hk target) Ew Hl Hq) as (t1 & Hl1 & Hq1).
  exact (IH d1 tid t1 Hl1 Hq1).
Qed.

Lemma compress_slas_teams base apply_slas self : forall d,
  teams (compress_slas base apply_slas d self) = teams d.
Proof.
  induction self as [|x rest IH]; intros d; cbn [compress_slas]; [reflexivity|].
  destruct (tickets d !! x) as [tx|]; [|reflexivity].
  destruct (sla_ids tx) as [|target [|y more]]; [apply IH..|].
  destruct (super_write base apply_slas d [x] _) as [d1| |] eqn:Ew; [|reflexivity..].
  rewrite IH. exact (super_write_teams _ _ _ _ _ _ Ew).
Qed.

Lemma cleanup_teams base extra d self vals :
  teams (_cleanup_obsolete_sla_statuses_after_change base extra d self vals) = teams d.
Proof.
  unfold _cleanup_obsolete_sla_statuses_after_change.
  destruct (touches_trigger base vals); reflexivity.
Qed.

(** The three steps of [write], for a property that the written values
    and the reduction to one policy keep. *)
Lemma write_follows (Q : ticket -> Prop) base extra apply_slas d self vals vals' d' tid t :
  write_prepare d self vals = Ok vals' ->
  keeps Q vals' -> (forall target, keeps Q (keep_first target)) ->
  write base extra apply_slas d self vals = Ok d' ->
  tickets d !! tid = Some t -> Q t ->
  exists t', tickets d' !! tid = Some t' /\ Q t'.
Proof.
  intros Hp Hk Hk1 Hw Hl Hq. unfold write, mbind, result_bind, bind in Hw. rewrite Hp in Hw.
  destruct (super_write base apply_slas d self vals') as [d1| |] eqn:Es; try discriminate Hw.
  injection Hw as <-. rewrite cleanup_tickets.
  destruct (super_write_follows Q _ _ _ _ _ _ tid t Hk Es Hl Hq) as (t1 & Hl1 & Hq1).
  exact (compress_slas_follows Q base apply_slas self Hk1 d1 tid t1 Hl1 Hq1).
Qed.

Lemma write_teams base extra apply_slas d self vals d' :
  write base extra apply_slas d self vals = Ok d' -> teams d' = teams d.
Proof.
  intros Hw. unfold write, mbind, result_bind, bind in Hw.
  destruct (write_prepare d self vals) as [vals'| |]; try discriminate Hw.
  destruct (super_write base apply_slas d self vals') as [d1| |] eqn:Es; try discriminate Hw.
  injection Hw as <-. rewrite cleanup_teams, compress_slas_teams.
  exact (super_write_teams _ _ _ _ _ _ Es).
Qed.

(** Values without [team_id] and [user_id] keep the team and the assignee. *)
Lemma keeps_assignee vals (tm us : option Z) :
  constrained vals = false -> keeps (fun t => team_id t = tm /\ user_id t = us) vals.
Proof.
  intros Hc t t' Hs [H1 H2]. destruct (set_fields_keeps vals t t' Hs Hc) as [E1 E2].
  split; congruence.
Qed.

(** Entries of [vals] under a key other than the one assigned. *)
Lemma vals_set_entries vals f x k v :
  (k, v) ∈ vals_set vals f x -> k <> f -> (k, v) ∈ vals.
Proof.
  unfold vals_set. destruct (vals_has vals f).
  - intros Hin Hne. apply list_elem_of_In, in_map_iff in Hin as ([k0 v0] & Heq & Hin).
    cbn [fst] in Heq. case_bool_decide as Hk; simplify_eq.
    apply list_elem_of_In, Hin.
  - intros Hin Hne. apply elem_of_app in Hin as [Hin|Hin]; [exact Hin|].
    apply list_elem_of_singleton in Hin. simplify_eq.
Qed.

Lemma write_prepare_entries d self vals vals' k v :
  write_prepare d self vals = Ok vals' ->
  (k, v) ∈ vals' -> k <> F_team_id -> k <> F_user_id -> (k, v) ∈ vals.
Proof.
  unfold write_prepare, mbind, result_bind, bind. intros H Hin Ht Hu.
  repeat case_match; simplify_eq; eauto using vals_set_entries.
Qed.

(** An id above every id in use. *)
Lemma fresh_id_fresh (m : gmap Z ticket) : m !! fresh_id m = None.
Proof.
  destruct (m !! fresh_id m) as [t|] eqn:E; [|reflexivity]. exfalso.
  assert (Hin : fresh_id m ∈ (map_to_list m).*1).
  { apply list_elem_of_fmap. exists (fresh_id m, t). split; [reflexivity|].
    apply elem_of_map_to_list, E. }
  assert (Hle : forall l k, k ∈ l -> k <= foldr Z.max 0 l).
  { induction l as [|a l IH]; intros k Hk; [inversion Hk|]. cbn [foldr].
    apply elem_of_cons in Hk as [->|Hk]; [lia|]. specialize (IH k Hk). lia. }
  specialize (Hle _ _ Hin). unfold fresh_id in Hle at 1. lia.
Qed.

End HelpdeskTrack.

(** ** helpdesk_ticket.py: the assignee and the members of the team *)

Module HelpdeskMembership.
Import PyStr Helpdesk HelpdeskMore HelpdeskTrack.

Section Membership.

Variable base : list field.
Variable extra : ticket -> Z -> sla -> bool.
Variable apply_slas : db -> list Z -> gmap Z sla_status.
Variable company : Z.
Variable defaults : list (field * value).
Variable set_first : list Z -> Z.

(** The keys a caller passes are still there when the constraint is
    dispatched. *)
Lemma write_prepare_constrained d self vals vals' :
  write_prepare d self vals = Ok vals' -> constrained vals = true -> constrained vals' = true.
Proof.
  intros Hp. unfold constrained. rewrite !orb_true_iff.
  assert (Hk : forall f, vals_has vals f = true -> vals_has vals' f = true).
  { intros f Hf. unfold write_prepare, mbind, result_bind, bind in Hp.
    destruct (decide (f = F_team_id)) as [->|Ht];
      [|destruct (decide (f = F_user_id)) as [->|Hu]].
    - repeat case_match; simplify_eq; auto;
        unfold vals_has in *; rewrite ?vals_get_set_same; auto;
        rewrite ?vals_get_set_other by discriminate; rewrite ?vals_get_set_same; auto.
    - repeat case_match; simplify_eq; auto;
        unfold vals_has in *; rewrite ?vals_get_set_same; auto;
        rewrite ?vals_get_set_other by discriminate; rewrite ?vals_get_set_same; auto.
    - unfold vals_has. now rewrite (write_prepare_other d self vals vals' f Hp Ht Hu). }
  intros [H|H]; [left | right]; apply Hk, H.
Qed.

(** A write that carries [team_id] or [user_id] passes the check on every
    written ticket, whatever the database was like. *)
Lemma write_checked d self vals vals' d' :
  write_prepare d self vals = Ok vals' ->
  write base extra apply_slas d self vals = Ok d' ->
  constrained vals' = true ->
  forall tid, tid ∈ self ->
    exists t', tickets d' !! tid = Some t' /\ assignee_ok d' t' = true.
Proof.
  intros Hp Hw Hc tid Hin. unfold write, mbind, result_bind, bind in Hw. rewrite Hp in Hw.
  destruct (super_write base apply_slas d self vals') as [d1| |] eqn:Es; try discriminate Hw.
  injection Hw as <-.
  pose proof (super_write_tickets _ _ _ _ _ _ Es) as Ha.
  pose proof (super_write_teams _ _ _ _ _ _ Es) as Ht1.
  destruct (proj1 (assign_present vals' self _ _ Ha) tid Hin) as [t1 Hl1].
  assert (Hok1 : assignee_ok d1 t1 = true).
  { unfold super_write, mbind, result_bind, bind in Es. rewrite Ha, Hc in Es.
    destruct (_check_assignee_is_team_member (with_tickets d (tickets d1)) self) eqn:Ek;
      [|discriminate Es].
    unfold _check_assignee_is_team_member in Ek. rewrite forallb_forall in Ek.
    specialize (Ek tid (proj1 (list_elem_of_In _ _) Hin)).
    cbn [with_tickets tickets] in Ek. rewrite Hl1 in Ek.
    rewrite <- Ek. apply assignee_ok_same; auto. }
  destruct (compress_slas_follows (fun t => team_id t = team_id t1 /\ user_id t = user_id t1)
              base apply_slas self (fun target => keeps_assignee (keep_first target) _ _ eq_refl)
              d1 tid t1 Hl1 (conj eq_refl eq_refl)) as (t' & Hl' & Hm & Hu).
  exists t'. rewrite cleanup_tickets. split; [exact Hl'|].
  rewrite <- Hok1. apply assignee_ok_same; [|exact Hm | exact Hu].
  now rewrite cleanup_teams, compress_slas_teams.
Qed.

(** A write that carries neither leaves the team and the assignee of
    every ticket, and the teams, as they were. *)
Lemma write_unchecked d self vals vals' d' :
  write_prepare d self vals = Ok vals' ->
  write base extra apply_slas d self vals = Ok d' ->
  constrained vals' = false ->
  forall tid t, tickets d !! tid = Some t ->
    exists t', tickets d' !! tid = Some t' /\ team_id t' = team_id t /\
               user_id t' = user_id t /\ assignee_ok d' t' = assignee_ok d t.
Proof.
  intros Hp Hw Hc tid t Hl.
  destruct (write_follows (fun t' => team_id t' = team_id t /\ user_id t' = user_id t)
              base extra apply_slas d self vals vals' d' tid t Hp
              (keeps_assignee _ _ _ Hc) (fun target => keeps_assignee (keep_first target) _ _ eq_refl)
              Hw Hl (conj eq_refl eq_refl)) as (t' & Hl' & Hm & Hu).
  exists t'. split; [exact Hl'|]. split; [exact Hm|]. split; [exact Hu|].
  apply assignee_ok_same; [|exact Hm | exact Hu].
  exact (write_teams _ _ _ _ _ _ _ Hw).
Qed.

(** The record [super().create] adds passes the check, and the records
    there were stay. *)
Lemma super_create_spec d vals d' tid :
  super_create apply_slas defaults d vals = Ok (d', tid) ->
  tickets d !! tid = None /\ teams d' = teams d /\
  (exists t, tickets d' !! tid = Some t /\ assignee_ok d' t = true) /\
  (forall k t, tickets d !! k = Some t -> tickets d' !! k = Some t).
Proof.
  intros H. unfold super_create in H.
  set (vals' := vals ++ filter (fun kv => vals_has vals kv.1 = false) defaults) in *.
  destruct (set_fields blank_ticket vals') as [t|] eqn:Ef; [|discriminate H].
  set (d1 := with_tickets d (<[fresh_id (tickets d) := t]> (tickets d))) in *.
  assert (Hok : assignee_ok d1 t = true).
  { destruct (constrained vals') eqn:Ec.
    - destruct (assignee_ok d1 t); [reflexivity | discriminate H].
    - destruct (set_fields_keeps vals' blank_ticket t Ef Ec) as [Hm Hu].
      unfold assignee_ok. rewrite Hm. reflexivity. }
  rewrite Hok, andb_false_r in H. injection H as <- <-.
  split; [apply fresh_id_fresh|]. split; [reflexivity|]. split.
  - exists t. subst d1. cbn [with_statuses with_tickets tickets].
    split; [apply lookup_insert_eq|]. rewrite <- Hok. apply assignee_ok_same; auto.
  - intros k t0 Hl. subst d1. cbn [with_statuses with_tickets tickets].
    rewrite lookup_insert_ne; [exact Hl|]. intros <-. rewrite fresh_id_fresh in Hl.
    discriminate Hl.
Qed.

Lemma create_all_spec vals_list : forall d d' ids,
  create_all apply_slas defaults d vals_list = Ok (d', ids) ->
  teams d' = teams d /\
  (forall k t, tickets d !! k = Some t -> tickets d' !! k = Some t) /\
  (forall tid, tid ∈ ids ->
     tickets d !! tid = None /\
     exists t, tickets d' !! tid = Some t /\ assignee_ok d' t = true).
Proof.
  induction vals_list as [|vals rest IH]; intros d d' ids H; cbn [create_all] in H.
  - injection H as <- <-. split; [reflexivity|]. split; [auto|]. intros tid Hin. inversion Hin.
  - unfold mbind, result_bind, bind in H.
    destruct (super_create apply_slas defaults d vals) as [[d1 tid]| |] eqn:E1;
      try discriminate H.
    destruct (create_all apply_slas defaults d1 rest) as [[d2 tids]| |] eqn:E2;
      try discriminate H.
    injection H as <- <-.
    destruct (super_create_spec _ _ _ _ E1) as (Hnew & Ht1 & (t & Hl & Hok) & Hkeep1).
    destruct (IH _ _ _ E2) as (Ht2 & Hkeep2 & Hids).
    split; [congruence|]. split; [auto|].
    intros k Hk. apply elem_of_cons in Hk as [->|Hk].
    + split; [exact Hnew|]. exists t. split; [auto|].
      rewrite <- Hok. apply assignee_ok_same; auto.
    + destruct (Hids k Hk) as (Hn & t' & Hl' & Hok'). split; [|eauto].
      destruct (tickets d !! k) as [t0|] eqn:E0; [|reflexivity].
      rewrite (Hkeep1 k t0 E0) in Hn. discriminate Hn.
Qed.

Lemma create_spec d vals_list d' ids :
  create apply_slas company defaults set_first d vals_list = Ok (d', ids) ->
  (forall tid, tid ∈ ids ->
     tickets d !! tid = None /\
     exists t, tickets d' !! tid = Some t /\ assignee_ok d' t = true) /\
  (forall tid t, tickets d !! tid = Some t ->
     tickets d' !! tid = Some t /\ assignee_ok d' t = assignee_ok d t).
Proof.
  intros H. unfold create, mbind, result_bind, bind in H.
  destruct (prepare_all company set_first d vals_list) as [new_vals_list| |];
    try discriminate H.
  destruct (create_all_spec _ _ _ _ H) as (Ht & Hkeep & Hids).
  split; [exact Hids|]. intros tid t Hl. split; [auto|]. apply assignee_ok_same; auto.
Qed.

(** The check refuses a write that carries [team_id] or [user_id] and
    puts an outsider on a written ticket. *)
Lemma checked_write_refuses_outsider d self vals vals' m tid t' :
  write_prepare d self vals = Ok vals' ->
  assign (tickets d) self vals' = Ok m ->
  tid ∈ self -> m !! tid = Some t' -> assignee_ok d t' = false ->
  constrained vals' = true ->
  write base extra apply_slas d self vals = Raise ValidationError.
Proof.
  intros Hp Ha Hin Hl Hbad Hc.
  unfold write, mbind, result_bind, bind. rewrite Hp.
  unfold super_write, mbind, result_bind, bind. rewrite Ha.
  assert (Hk : _check_assignee_is_team_member (with_tickets d m) self = false).
  { destruct (_check_assignee_is_team_member (with_tickets d m) self) eqn:Ek; [|reflexivity].
    exfalso. unfold _check_assignee_is_team_member in Ek. rewrite forallb_forall in Ek.
    specialize (Ek tid (proj1 (list_elem_of_In _ _) Hin)).
    cbn [with_tickets tickets] in Ek. rewrite Hl in Ek.
    rewrite (assignee_ok_same d (with_tickets d m) t' t' eq_refl eq_refl eq_refl) in Ek.
    congruence. }
  rewrite Hc, Hk. reflexivity.
Qed.

End Membership.

(** A ticket whose assignee is not among the members of its team: user 9
    on the ticket of team 1, whose members are 7 and 8. *)
Definition stale_db : db :=
  {| categories := sample_categories;
     teams := [(1, support_team)];
     stages := ∅;
     slas := ∅;
     tickets := {[ 1 := {| name := "printer"; category_id := Some 3; team_id := Some 1;
                           user_id := Some 9; priority := "1"; stage_id := None;
                           tag_ids := []; partner_id := None; company_id := Some 1;
                           sla_ids := []; sla_recompute_bump := 0; sla_opt_out := false |} ]};
     sla_statuses := ∅ |}.

(** C9.  Whatever the database is like: after a successful [write] whose
    values, as the override completes them, carry [team_id] or [user_id],
    every written ticket has an assignee who belongs to its team, and a
    caller who passes one of the two keys gets such a write; a [write]
    that carries neither leaves team, assignee and membership of every
    ticket as they were; every ticket a successful [create] returns has an
    assignee who belongs to its team, and the tickets there were are left
    alone; a [write] that carries [team_id] or [user_id], or the [create]
    of a ticket, raises ValidationError when the values would put an
    outsider on a ticket.  From a database in which every assignee
    belongs to the ticket's team, every successful [write] or [create]
    ends in such a database, and every [write] that would put an outsider
    on a written ticket raises ValidationError. *)
Theorem assignee_membership_after_mutations :
  forall (base : list field) (extra : ticket -> Z -> sla -> bool)
         (apply_slas : db -> list Z -> gmap Z sla_status)
         (company : Z) (defaults : list (field * value)) (set_first : list Z -> Z)
         (d : db),
    (forall self vals vals' d',
        write_prepare d self vals = Ok vals' ->
        write base extra apply_slas d self vals = Ok d' ->
        constrained vals' = true ->
        forall tid, tid ∈ self ->
          exists t', tickets d' !! tid = Some t' /\ assignee_ok d' t' = true) /\
    (forall self vals vals',
        write_prepare d self vals = Ok vals' ->
        constrained vals = true -> constrained vals' = true) /\
    (forall self vals vals' d',
        write_prepare d self vals = Ok vals' ->
        write base extra apply_slas d self vals = Ok d' ->
        constrained vals' = false ->
        forall tid t, tickets d !! tid = Some t ->
          exists t', tickets d' !! tid = Some t' /\ team_id t' = team_id t /\
                     user_id t' = user_id t /\ assignee_ok d' t' = assignee_ok d t) /\
    (forall vals_list d' ids,
        create apply_slas company defaults set_first d vals_list = Ok (d', ids) ->
        (forall tid, tid ∈ ids ->
           tickets d !! tid = None /\
           exists t, tickets d' !! tid = Some t /\ assignee_ok d' t = true) /\
        (forall tid t, tickets d !! tid = Some t ->
           tickets d' !! tid = Some t /\ assignee_ok d' t = assignee_ok d t)) /\
    (forall self vals vals' m tid t',
        write_prepare d self vals = Ok vals' ->
        assign (tickets d) self vals' = Ok m ->
        tid ∈ self -> m !! tid = Some t' -> assignee_ok d t' = false ->
        constrained vals' = true ->
        write base extra apply_slas d self vals = Raise ValidationError) /\
    (forall vals vals' t',
        create_prepare company set_first d vals = Ok vals' ->
        set_fields blank_ticket
          (vals' ++ filter (fun kv => vals_has vals' kv.1 = false) defaults) = Some t' ->
        assignee_ok d t' = false ->
        create apply_slas company defaults set_first d [vals] = Raise ValidationError) /\
    (membership_invariant d ->
     (forall self vals d',
         write base extra apply_slas d self vals = Ok d' -> membership_invariant d') /\
     (forall vals_list d' ids,
         create apply_slas company defaults set_first d vals_list = Ok (d', ids) ->
         membership_invariant d') /\
     (forall self vals vals' m tid t',
         write_prepare d self vals = Ok vals' ->
         assign (tickets d) self vals' = Ok m ->
         tid ∈ self -> m !! tid = Some t' -> assignee_ok d t' = false ->
         write base extra apply_slas d self vals = Raise ValidationError)).
Proof.
  intros base extra apply_slas company defaults set_first d.
  split; [intros self vals vals' d'; apply write_checked|].
  split; [intros self vals vals'; apply write_prepare_constrained|].
  split; [intros self vals vals' d'; apply write_unchecked|].
  split; [intros vals_list d' ids; apply create_spec|].
  split; [intros self vals vals' m tid t'; apply checked_write_refuses_outsider|].
  split; [intros vals vals' t'; apply create_refuses_outsider|].
  intros Hinv.
  destruct (membership_is_preserved base extra apply_slas company defaults set_first d Hinv)
    as (H1 & H2 & H3 & _).
  split; [exact H1|]. split; [exact H2 | exact H3].
Qed.

(** Moving the stale ticket to user 7 is a checked write: it succeeds and
    the ticket then has a member as its assignee. *)
Lemma assignee_membership_after_mutations_witness :
  match write base_triggers0 no_extra keep_statuses stale_db [1] [(F_user_id, V_int 7)] with
  | Ok d' => exists t', tickets d' !! 1 = Some t' /\ assignee_ok d' t' = true
  | _ => False
  end.
Proof.
  destruct (write base_triggers0 no_extra keep_statuses stale_db [1] [(F_user_id, V_int 7)])
    as [d'| |] eqn:E; [|vm_compute in E; discriminate E..].
  refine (proj1 (assignee_membership_after_mutations base_triggers0 no_extra keep_statuses
            1 [] cpython_set_first stale_db) [1] [(F_user_id, V_int 7)]
            [(F_user_id, V_int 7)] d' eq_refl E eq_refl 1 _).
  apply list_elem_of_singleton. reflexivity.
Defined.

(** C9 as stated fails on a write that carries neither [team_id] nor
    [user_id]: renaming the ticket whose assignee, user 9, is not among
    the members of its team succeeds, no ValidationError is raised, and
    the ticket still has team 1 and user 9 afterwards. *)
Lemma stale_assignee_survives_write :
  team_members stale_db 1 = [7; 8] /\
  match write base_triggers0 no_extra keep_statuses stale_db [1] [(F_name, V_str "desk")] with
  | Ok d' =>
      exists t', tickets d' !! 1 = Some t' /\ team_id t' = Some 1 /\ user_id t' = Some 9 /\
                 team_members d' 1 = [7; 8] /\ assignee_ok d' t' = false
  | _ => False
  end.
Proof.
  split; [reflexivity|]. vm_compute. eexists. repeat split.
Qed.

End HelpdeskMembership.

(** ** helpdesk_ticket.py: status records of a ticket that opted out *)

Module HelpdeskOptOut.
Import PyStr Helpdesk HelpdeskMore HelpdeskTrack.

(** The entries of [vals] under [sla_opt_out] all set the flag. *)
Definition sets_no_opt_in (vals : list (field * value)) : Prop :=
  forall v, (F_sla_opt_out, v) ∈ vals -> v = V_bool true.

Lemma set_field_opt_out t f v t' :
  set_field t f v = Some t' -> (f = F_sla_opt_out -> v = V_bool true) ->
  sla_opt_out t = true -> sla_opt_out t' = true.
Proof.
  destruct t. intros H Hv Ho. cbn [sla_opt_out] in Ho. subst.
  destruct f;
    try (rewrite (Hv eq_refl) in H; cbn in H; simplify_eq; reflexivity);
    destruct v; cbn in H; repeat case_match; simplify_eq; cbn; auto;
    destruct (many2many_of _ cmds); cbn in H; simplify_eq; cbn; auto.
Qed.

Lemma keeps_opt_out vals :
  sets_no_opt_in vals -> keeps (fun t => sla_opt_out t = true) vals.
Proof.
  unfold keeps. induction vals as [|[f v] rest IH]; intros Hv t t' H Ho; cbn [set_fields] in H.
  - now injection H as <-.
  - destruct (set_field t f v) as [t1|] eqn:E; cbn in H; [|discriminate H].
    assert (Hrest : sets_no_opt_in rest).
    { intros v0 Hin. apply Hv, elem_of_cons. auto. }
    apply (IH Hrest t1 t' H).
    apply (set_field_opt_out t f v t1 E); [|exact Ho].
    intros ->. apply Hv, elem_of_cons. auto.
Qed.

Lemma keep_first_no_opt_in target : sets_no_opt_in (keep_first target).
Proof.
  intros v Hin. unfold keep_first in Hin. apply list_elem_of_singleton in Hin. discriminate Hin.
Qed.

(** A ticket that has opted out is still opted out after a write that
    does not set the flag back. *)
Lemma write_stays_opted_out base extra apply_slas d self vals d' tid t :
  write base extra apply_slas d self vals = Ok d' ->
  sets_no_opt_in vals ->
  tickets d !! tid = Some t -> sla_opt_out t = true ->
  exists t', tickets d' !! tid = Some t' /\ sla_opt_out t' = true.
Proof.
  intros Hw Hv Hl Ho.
  destruct (write_prepare d self vals) as [vals'| |] eqn:Ep;
    [|unfold write, mbind, result_bind, bind in Hw; rewrite Ep in Hw; discriminate Hw..].
  apply (write_follows (fun t => sla_opt_out t = true) base extra apply_slas
           d self vals vals' d' tid t Ep); auto.
  - apply keeps_opt_out. intros v Hin. apply Hv.
    apply (write_prepare_entries d self vals vals' F_sla_opt_out v Ep Hin); discriminate.
  - intros target. apply keeps_opt_out, keep_first_no_opt_in.
Qed.

(** The extension's own trigger fields are triggers whatever the base
    model lists. *)
Lemma own_trigger_touched base vals f :
  f ∈ [F_category_id; F_sla_recompute_bump; F_sla_opt_out] ->
  vals_has vals f = true -> touches_trigger base vals = true.
Proof.
  intros Hf Hh. unfold touches_trigger. apply existsb_exists. exists f. split.
  - apply list_elem_of_In. unfold vals_has in Hh.
    induction vals as [|[k v] r IH]; cbn [vals_get] in Hh; [discriminate Hh|].
    cbn [fmap list_fmap fst]. case_bool_decide as Hk.
    + subst k. apply elem_of_cons. auto.
    + apply elem_of_cons. right. exact (IH Hh).
  - apply bool_decide_eq_true. unfold _sla_reset_trigger. apply dedupe_elem, elem_of_app. auto.
Qed.

(** C10.  [_sla_find] puts a ticket that has opted out in no group, so no
    policy is allowed for it, and the clean-up removes every status record
    of the ticket.  A successful write on such a ticket that touches a
    trigger field and does not set the flag back leaves the ticket opted
    out and none of its status records; so does any successful write that
    touches a trigger field and ends with the ticket opted out, and a
    write that carries [sla_opt_out] always touches one. *)
Theorem opt_out_clears_statuses_unless_reset :
  forall (base : list field) (extra : ticket -> Z -> sla -> bool)
         (apply_slas : db -> list Z -> gmap Z sla_status)
         (d : db) (self : list Z) (tid : Z) (t : ticket),
    tickets d !! tid = Some t ->
    sla_opt_out t = true ->
    (forall grp, grp ∈ _sla_find base extra d self -> tid ∉ grp.1) /\
    allowed base extra d self tid = [] /\
    (forall vals sid st,
        tid ∈ self -> touches_trigger base vals = true ->
        sla_statuses (_cleanup_obsolete_sla_statuses_after_change base extra d self vals) !! sid
        = Some st ->
        status_ticket_id st <> tid) /\
    (forall vals d',
        write base extra apply_slas d self vals = Ok d' ->
        tid ∈ self -> touches_trigger base vals = true ->
        sets_no_opt_in vals ->
        (exists t', tickets d' !! tid = Some t' /\ sla_opt_out t' = true) /\
        forall sid st, sla_statuses d' !! sid = Some st -> status_ticket_id st <> tid) /\
    (forall d0 vals sid st,
        write base extra apply_slas d0 self vals = Ok d ->
        tid ∈ self -> touches_trigger base vals = true ->
        sla_statuses d !! sid = Some st ->
        status_ticket_id st <> tid) /\
    (forall d0 vals sid st,
        write base extra apply_slas d0 self vals = Ok d ->
        tid ∈ self -> vals_has vals F_sla_opt_out = true ->
        sla_statuses d !! sid = Some st ->
        status_ticket_id st <> tid).
Proof.
  intros base extra apply_slas d self tid t Ht Ho.
  destruct (opted_out_after_write_keeps_no_status base extra apply_slas d self tid t Ht Ho)
    as (H1 & H2 & H3 & H4).
  split; [exact H1|]. split; [exact H2|]. split; [exact H3|].
  split; [|split; [exact H4|]].
  - intros vals d' Hw Hin Htr Hv.
    destruct (write_stays_opted_out base extra apply_slas d self vals d' tid t Hw Hv Ht Ho)
      as (t' & Ht' & Ho').
    split; [eauto|]. intros sid st.
    exact (proj2 (proj2 (proj2 (opted_out_after_write_keeps_no_status base extra apply_slas
                                  d' self tid t' Ht' Ho'))) d vals sid st Hw Hin Htr).
  - intros d0 vals sid st Hw Hin Hh. apply (H4 d0 vals sid st Hw Hin).
    apply (own_trigger_touched base vals F_sla_opt_out); [|exact Hh].
    do 2 (apply elem_of_cons; right). apply elem_of_cons. auto.
Qed.

(** A bump of the recompute counter on the opted-out sample ticket: the
    write succeeds and record 100, which was the ticket's, is gone. *)
Lemma opt_out_clears_statuses_unless_reset_witness :
  tickets (sample_db [] true) !! 1 = Some (sample_ticket [] true) /\
  sla_opt_out (sample_ticket [] true) = true /\
  sla_statuses (sample_db [] true) !! 100
  = Some {| status_ticket_id := 1; status_sla_id := 20; reached := true |} /\
  match write base_triggers0 no_extra keep_statuses (sample_db [] true) [1]
          [(F_sla_recompute_bump, V_int 1)] with
  | Ok d' => sla_statuses d' !! 100
             <> Some {| status_ticket_id := 1; status_sla_id := 20; reached := true |}
  | _ => False
  end.
Proof.
  assert (H1 : tickets (sample_db [] true) !! 1 = Some (sample_ticket [] true))
    by (vm_compute; reflexivity).
  split; [exact H1|]. split; [reflexivity|]. split; [vm_compute; reflexivity|].
  destruct (write base_triggers0 no_extra keep_statuses (sample_db [] true) [1]
              [(F_sla_recompute_bump, V_int 1)]) as [d'| |] eqn:E;
    [|vm_compute in E; discriminate E..].
  intros Hst.
  refine (proj2 (proj1 (proj2 (proj2 (proj2
            (opt_out_clears_statuses_unless_reset base_triggers0 no_extra keep_statuses
               (sample_db [] true) [1] 1 (sample_ticket [] true) H1 eq_refl))))
            [(F_sla_recompute_bump, V_int 1)] d' E _ eq_refl _) 100 _ Hst eq_refl).
  - apply list_elem_of_singleton. reflexivity.
  - intros v Hin. apply list_elem_of_singleton in Hin. discriminate Hin.
Defined.

(** C10 as stated fails on the write that sets the flag back: the ticket
    has opted out, the write touches the trigger field [sla_opt_out], and
    record 100 of the ticket (policy 20, which matches once the flag is
    down) is still there afterwards. *)
Lemma opting_back_in_keeps_matching_status :
  tickets (sample_db [] true) !! 1 = Some (sample_ticket [] true) /\
  sla_opt_out (sample_ticket [] true) = true /\
  allowed base_triggers0 no_extra (sample_db [] true) [1] 1 = [] /\
  touches_trigger base_triggers0 [(F_sla_opt_out, V_bool false)] = true /\
  match write base_triggers0 no_extra keep_statuses (sample_db [] true) [1]
          [(F_sla_opt_out, V_bool false)] with
  | Ok d' =>
      sla_statuses d' !! 100
      = Some {| status_ticket_id := 1; status_sla_id := 20; reached := true |}
  | _ => False
  end.
Proof. repeat split; vm_compute; reflexivity. Qed.

End HelpdeskOptOut.


(** ** helpdesk_ticket.py: the category in [_sla_find] on several tickets *)

Module HelpdeskBatch.
Import PyStr Helpdesk HelpdeskMore HelpdeskGroups.

Section Batch.

Variable base : list field.
Variable d : db.










End Batch.






End HelpdeskBatch.
